(** * Release ingestion and reconciliation engine: a shallow embedding

    The development follows four source units of the repository:

    - [src/workers/processors/feed-ingest.processor.ts]
      (module [FeedIngest]): the tiered ingest processor, its idempotent
      event insert and the atomic [GREATEST] watermark update;
    - the chapter listing route with [performOnDemandSync]
      (module [OnDemandSync]): the advisory-lock guarded lazy sync;
    - [src/lib/monitoring.ts] (modules [Alerting] and [Monitoring]): the
      DLQ alerting service with its cooldown map, and the error monitor
      with its queue;
    - the middleware (modules [RateLimit] and [Middleware]): its
      [BoundedRateLimitStore] and [checkRateLimit], and the request
      handling around them, with [updateSession] of
      [src/lib/supabase/middleware.ts].

    The paging and the series-id test of the chapter listing route are
    in module [ChaptersRoute].

    JavaScript timestamps are milliseconds since the Unix epoch, kept as
    [Z]; counters are [nat]; thrown values carry the failure class the
    storage layer or adapter attached to them and their message text. *)

From Stdlib Require Import ZArith QArith Lia List Bool String Ascii.
From stdpp Require Import base option list gmap strings pretty.

Import ListNotations.
Local Open Scope string_scope.
Local Open Scope Z_scope.

(* ===================================================================== *)
(** ** JavaScript values and helpers *)
(* ===================================================================== *)

Module Js.

(** What kind of failure a thrown error stands for.  This is the "failure
    class" a typed storage layer would expose; the message is free text. *)
Inductive FailureClass : Type :=
| UniqueConstraintViolation
| StorageUnavailable
| MalformedRow
| UpstreamThrottled
| UpstreamUnreachable
| ProgramError.

(** A thrown JavaScript value: an [Error] instance (class and message), or
    any other value ([throw "text"], [throw 42], ...). *)
Inductive Thrown : Type :=
| JsError (cls : FailureClass) (message : string)
| JsNonError (repr : string).

(** [err instanceof Error] *)
Definition instanceof_Error (err : Thrown) : bool :=
  match err with JsError _ _ => true | JsNonError _ => false end.

(** [String.prototype.includes]: [needle] occurs somewhere in [hay]. *)
Fixpoint includes (hay needle : string) : bool :=
  String.prefix needle hay ||
  match hay with
  | EmptyString => false
  | String _ rest => includes rest needle
  end.

(** Truthiness of a string: every string but the empty one. *)
Definition truthy_str (s : string) : bool := negb (String.eqb s "").

(** Truthiness of [string | null | undefined]. *)
Definition truthy_ostr (o : option string) : bool :=
  match o with Some s => truthy_str s | None => false end.

(** [o || d] on [string | null | undefined]. *)
Definition or_str (o : option string) (d : string) : string :=
  match o with
  | Some s => if truthy_str s then s else d
  | None => d
  end.

(** [x || 0] on an optional counter. *)
Definition or_zero (o : option nat) : nat :=
  match o with Some n => n | None => 0%nat end.

(** Value of one hexadecimal digit. *)
Definition hex_digit (c : ascii) : option Z :=
  let n := Z.of_nat (nat_of_ascii c) in
  if (48 <=? n) && (n <=? 57) then Some (n - 48)
  else if (97 <=? n) && (n <=? 102) then Some (n - 87)
  else if (65 <=? n) && (n <=? 70) then Some (n - 55)
  else None.

(** Longest prefix of hexadecimal digits, folded left to right.  The
    result is [None] when no digit was read. *)
Fixpoint hex_prefix (s : string) (acc : option Z) : option Z :=
  match s with
  | EmptyString => acc
  | String c rest =>
      match hex_digit c with
      | Some d => hex_prefix rest (Some (16 * default 0 acc + d))
      | None => acc
      end
  end.

(** Leading white space skipped by [parseInt] (the ASCII part of it). *)
Definition is_space (c : ascii) : bool :=
  let n := nat_of_ascii c in
  Nat.eqb n 32 || (Nat.leb 9 n && Nat.leb n 13).

Fixpoint skip_spaces (s : string) : string :=
  match s with
  | String c rest => if is_space c then skip_spaces rest else s
  | EmptyString => s
  end.

(** An optional [0x] or [0X] prefix is dropped for radix 16. *)
Definition strip_0x (s : string) : string :=
  match s with
  | String "0"%char (String c rest) =>
      if Ascii.eqb c "x"%char || Ascii.eqb c "X"%char then rest else s
  | _ => s
  end.

(** [parseInt(s, 16)]: white space, an optional sign, an optional [0x],
    then the longest run of hexadecimal digits; [None] is [NaN]. *)
Definition parseInt16 (s : string) : option Z :=
  match skip_spaces s with
  | String "-"%char rest => Z.opp <$> hex_prefix (strip_0x rest) None
  | String "+"%char rest => hex_prefix (strip_0x rest) None
  | t => hex_prefix (strip_0x t) None
  end.

(** [s.replace(/-/g, '')] *)
Fixpoint remove_dashes (s : string) : string :=
  match s with
  | EmptyString => EmptyString
  | String c rest =>
      if Ascii.eqb c "-"%char then remove_dashes rest
      else String c (remove_dashes rest)
  end.

End Js.

(* ===================================================================== *)
(** ** Completions and a state monad with exceptions *)
(* ===================================================================== *)

Module Eff.

Import Js.

(** The completion of an awaited computation: a value or a thrown error. *)
Inductive Completion (A : Type) : Type :=
| Normal (a : A)
| Throw (e : Thrown).

Arguments Normal {A} a.
Arguments Throw {A} e.

(** A computation over a store [S]. *)
Definition M (S A : Type) : Type := S -> Completion A * S.

Definition ret {S A : Type} (a : A) : M S A := fun s => (Normal a, s).

Definition throw {S A : Type} (e : Thrown) : M S A := fun s => (Throw e, s).

Definition bind {S A B : Type} (m : M S A) (k : A -> M S B) : M S B :=
  fun s =>
    match m s with
    | (Normal a, s') => k a s'
    | (Throw e, s') => (Throw e, s')
    end.

(** [try { m } catch (err) { h err }] *)
Definition try_catch {S A : Type} (m : M S A) (h : Thrown -> M S A) : M S A :=
  fun s =>
    match m s with
    | (Normal a, s') => (Normal a, s')
    | (Throw e, s') => h e s'
    end.

(** [try { m } finally { fin }]: [fin] always runs; a throw of [fin]
    replaces the completion of [m]. *)
Definition try_finally {S A : Type} (m : M S A) (fin : M S unit) : M S A :=
  fun s =>
    match m s with
    | (c, s') =>
        match fin s' with
        | (Normal _, s'') => (c, s'')
        | (Throw e, s'') => (Throw e, s'')
        end
    end.

Definition get {S : Type} : M S S := fun s => (Normal s, s).

Definition modify {S : Type} (f : S -> S) : M S unit := fun s => (Normal tt, f s).

(** Sequential iteration ([for ... of] with [await] in the body). *)
Fixpoint for_each {S A : Type} (body : A -> M S unit) (l : list A) : M S unit :=
  match l with
  | [] => ret tt
  | x :: rest => bind (body x) (fun _ => for_each body rest)
  end.

End Eff.

Declare Scope eff_scope.
Delimit Scope eff_scope with eff.
Notation "x <- m ;; k" := (Eff.bind m (fun x => k))
  (at level 100, m at next level, right associativity) : eff_scope.
Notation "m ;;; k" := (Eff.bind m (fun _ => k))
  (at level 100, right associativity) : eff_scope.

(* ===================================================================== *)
(** ** The feed ingest processor *)
(* ===================================================================== *)

Module FeedIngest.

Import Js Eff.
Local Open Scope eff_scope.

Definition BATCH_SIZE : nat := 50.
Definition MAX_EVENTS_PER_RUN : Z := 100.

Inductive FeedIngestTier : Type := TierA | TierB | TierC.

(** [FeedIngestJobData].  At run time [source] is whatever string the job
    carries, which is why the processor's [switch] has a [default]. *)
Record FeedIngestJobData : Type := mkJob {
  source : string;
  tier : FeedIngestTier;
  limit : option Z
}.

(** The six counters of a run (the [Omit<FeedIngestResult, ...>] object
    called [result] in both ingest functions). *)
Record Counts : Type := mkCounts {
  events_fetched : nat;
  events_created : nat;
  events_skipped : nat;
  series_updated : nat;
  errors : nat;
  rate_limit_hits : nat
}.

Definition zero_counts : Counts := mkCounts 0 0 0 0 0 0.

(** [Partial<FeedIngestResult>], as far as [completeIngestRun] reads it. *)
Record PartialCounts : Type := mkPartial {
  p_events_fetched : option nat;
  p_events_created : option nat;
  p_events_skipped : option nat;
  p_series_updated : option nat;
  p_errors : option nat;
  p_rate_limit_hits : option nat
}.

Definition partial_of (c : Counts) : PartialCounts :=
  mkPartial (Some (events_fetched c)) (Some (events_created c))
            (Some (events_skipped c)) (Some (series_updated c))
            (Some (errors c)) (Some (rate_limit_hits c)).

(** [{ errors: 1 }] *)
Definition only_errors (n : nat) : PartialCounts :=
  mkPartial None None None None (Some n) None.

(** [FeedIngestResult]; the counters are kept together in [counts]. *)
Record FeedIngestResult : Type := mkResult {
  res_source : string;
  res_tier : FeedIngestTier;
  runId : string;
  counts : Counts;
  duration_ms : Z;
  paused_due_to_queue_depth : option bool
}.

(** *** Stored rows *)

Record SeriesRow : Type := mkSeries {
  series_id : string;
  mangadex_id : option string;
  last_chapter_released_at : option Z;
  deleted_at : option Z
}.

(** A [chapterAvailabilityEvent] row: the four key columns and the
    timestamps and title.  The remaining columns ([volume_number],
    [language], [external_url], [raw_payload], ...) take no part in the
    unique index or in any decision of the processor and are left out;
    an insert the store refuses because of one of them is a failing
    statement ([storage_fault] below). *)
Record EventRow : Type := mkEvent {
  ev_series_id : string;
  ev_chapter_number : string;
  ev_source_name : string;
  ev_external_event_id : string;
  ev_discovered_at : Z;
  ev_published_at : option Z;
  ev_chapter_title : option string
}.

Inductive RunStatus : Type := running | completed | failed.

Record RunRow : Type := mkRun {
  run_id : string;
  run_source_name : string;
  run_tier : FeedIngestTier;
  run_status : RunStatus;
  run_counts : Counts;
  run_error_message : option string;
  run_completed_at : option Z;
  run_api_calls_made : nat
}.

(** Calls that leave the process, in the order they were issued. *)
Inductive Effect : Type :=
| AdapterFetch (lim : Z)
| ReleaseQuery (lim : Z)
| RunInsert (id : string)
| RunUpdate (id : string) (status : RunStatus).

(** The store a run works on: the three tables, the trace of outside
    calls, the number of storage statements and clock reads issued so
    far, and the [result] object of the ingest function in progress. *)
Record State : Type := mkState {
  series : list SeriesRow;
  events : list EventRow;
  runs : list RunRow;
  trace : list Effect;
  stmt_no : nat;
  ticks : nat;
  result : Counts
}.

Definition set_series (x : list SeriesRow) (st : State) : State :=
  mkState x (events st) (runs st) (trace st) (stmt_no st) (ticks st) (result st).
Definition set_events (x : list EventRow) (st : State) : State :=
  mkState (series st) x (runs st) (trace st) (stmt_no st) (ticks st) (result st).
Definition set_runs (x : list RunRow) (st : State) : State :=
  mkState (series st) (events st) x (trace st) (stmt_no st) (ticks st) (result st).
Definition emit (e : Effect) (st : State) : State :=
  mkState (series st) (events st) (runs st) (trace st ++ [e]) (stmt_no st) (ticks st) (result st).
Definition next_stmt (st : State) : State :=
  mkState (series st) (events st) (runs st) (trace st) (S (stmt_no st)) (ticks st) (result st).
Definition next_tick (st : State) : State :=
  mkState (series st) (events st) (runs st) (trace st) (stmt_no st) (S (ticks st)) (result st).
Definition set_result (c : Counts) (st : State) : State :=
  mkState (series st) (events st) (runs st) (trace st) (stmt_no st) (ticks st) c.

Definition set_fetched (n : nat) (c : Counts) : Counts :=
  mkCounts n (events_created c) (events_skipped c) (series_updated c) (errors c) (rate_limit_hits c).
Definition inc_created (c : Counts) : Counts :=
  mkCounts (events_fetched c) (S (events_created c)) (events_skipped c) (series_updated c) (errors c) (rate_limit_hits c).
Definition inc_skipped (c : Counts) : Counts :=
  mkCounts (events_fetched c) (events_created c) (S (events_skipped c)) (series_updated c) (errors c) (rate_limit_hits c).
Definition inc_series_updated (c : Counts) : Counts :=
  mkCounts (events_fetched c) (events_created c) (events_skipped c) (S (series_updated c)) (errors c) (rate_limit_hits c).
Definition inc_errors (c : Counts) : Counts :=
  mkCounts (events_fetched c) (events_created c) (events_skipped c) (series_updated c) (S (errors c)) (rate_limit_hits c).
Definition inc_rate_limit_hits (c : Counts) : Counts :=
  mkCounts (events_fetched c) (events_created c) (events_skipped c) (series_updated c) (errors c) (S (rate_limit_hits c)).

(** [result.x++] and friends. *)
Definition bump (f : Counts -> Counts) : M State unit :=
  modify (fun st => set_result (f (result st)) st).

(** *** What the outside world answers *)

Record Relationship : Type := mkRel {
  rel_type : string;
  rel_id : string
}.

(** A chapter of the MangaDex feed, as far as the processor reads it. *)
Record MdChapter : Type := mkChapter {
  md_id : string;
  md_chapter : option string;
  md_title : option string;
  md_publishAt : option Z;
  md_relationships : list Relationship
}.

(** A [mangaUpdatesRelease] row with its included series, whose
    watermark is the one read by the query. *)
Record MuRelease : Type := mkRelease {
  mu_series : option (string * option Z);
  mu_chapter : option string;
  mu_release_id : string;
  mu_created_at : Z;
  mu_published_at : option Z;
  mu_title : option string
}.

Record QueueDepth : Type := mkDepth {
  total : Z;
  isOverloaded : bool
}.

(** The collaborators of one run.  [getTotalQueueDepth] is the queue
    module's answer, [fetchLatestChapters] the MangaDex client's for a
    given limit, [findManyReleases] the recent-release query's for a
    given [take]; [storage_fault k] tells whether the [k]-th storage
    statement of the run fails on its own (connectivity and the like),
    [clock k] is the [k]-th reading of the clock and [fresh_run_id] the
    identifier the store generates for a new run row. *)
Record Env : Type := mkEnv {
  getTotalQueueDepth : Completion QueueDepth;
  fetchLatestChapters : Z -> Completion (list MdChapter);
  findManyReleases : Z -> Completion (list MuRelease);
  storage_fault : nat -> option Thrown;
  clock : nat -> Z;
  fresh_run_id : nat -> string
}.

(** [Date.now()] / [new Date()] *)
Definition date_now (env : Env) : M State Z :=
  fun st => (Normal (clock env (ticks st)), next_tick st).

(** One storage statement: it fails if the environment says so, and
    otherwise does [op]. *)
Definition storage {A : Type} (env : Env) (op : State -> Completion A * State) : M State A :=
  fun st =>
    match storage_fault env (stmt_no st) with
    | Some e => (Throw e, next_stmt st)
    | None => op (next_stmt st)
    end.

(** *** Storage statements *)

(** [prisma.series.findUnique({ where: { mangadex_id } })] *)
Definition series_findUnique (env : Env) (mdid : string) : M State (option SeriesRow) :=
  storage env (fun st =>
    (Normal (List.find (fun r => match mangadex_id r with
                                 | Some m => String.eqb m mdid
                                 | None => false
                                 end) (series st)), st)).

(** The idempotency key of an event row. *)
Definition same_key (a b : EventRow) : bool :=
  String.eqb (ev_series_id a) (ev_series_id b) &&
  String.eqb (ev_chapter_number a) (ev_chapter_number b) &&
  String.eqb (ev_source_name a) (ev_source_name b) &&
  String.eqb (ev_external_event_id a) (ev_external_event_id b).

(** The error the client library raises when an insert hits the unique
    index on the key columns. *)
Definition unique_violation : Thrown :=
  JsError UniqueConstraintViolation
    "Unique constraint failed on the fields: (`series_id`,`chapter_number`,`source_name`,`external_event_id`)".

(** [prisma.chapterAvailabilityEvent.create({ data })] under the unique
    index on the key. *)
Definition event_create (env : Env) (row : EventRow) : M State unit :=
  storage env (fun st =>
    if existsb (same_key row) (events st)
    then (Throw unique_violation, st)
    else (Normal tt, set_events (events st ++ [row]) st)).

(** [GREATEST(COALESCE(last_chapter_released_at, '1970-01-01'), ts)] *)
Definition greatest (last : option Z) (ts : Z) : Z := Z.max (default 0 last) ts.

(** The row-level effect of the [UPDATE series SET ... WHERE id = ... AND
    deleted_at IS NULL] statement. *)
Definition update_row (id : string) (ts : Z) (r : SeriesRow) : SeriesRow :=
  if String.eqb (series_id r) id && bool_decide (deleted_at r = None)
  then mkSeries (series_id r) (mangadex_id r)
                (Some (greatest (last_chapter_released_at r) ts)) (deleted_at r)
  else r.

Definition series_advance (env : Env) (id : string) (ts : Z) : M State unit :=
  storage env (fun st => (Normal tt, set_series (List.map (update_row id ts) (series st)) st)).

(** The stale-read test in front of the update:
    [!series.last_chapter_released_at || discoveredAt > series.last_chapter_released_at] *)
Definition shouldUpdate (snapshot : option Z) (discoveredAt : Z) : bool :=
  match snapshot with
  | None => true
  | Some l => l <? discoveredAt
  end.

Definition error_message (err : Thrown) : string :=
  match err with JsError _ m => m | JsNonError _ => "" end.

(** [err instanceof Error && err.message.includes('Unique constraint')] *)
Definition is_unique_constraint_error (err : Thrown) : bool :=
  instanceof_Error err && includes (error_message err) "Unique constraint".

(** [err instanceof Error && err.message.includes('429')] *)
Definition is_rate_limit_error (err : Thrown) : bool :=
  instanceof_Error err && includes (error_message err) "429".

(** The inner [try { create; created++; advance } catch (err) { ... }]
    block, which both ingest functions contain verbatim. *)
Definition persist_observation (env : Env) (row : EventRow) (snapshot : option Z) : M State unit :=
  try_catch
    (event_create env row ;;;
     bump inc_created ;;;
     if shouldUpdate snapshot (ev_discovered_at row)
     then (series_advance env (ev_series_id row) (ev_discovered_at row) ;;;
           bump inc_series_updated)
     else ret tt)
    (fun err =>
       if is_unique_constraint_error err
       then bump inc_skipped
       else bump inc_errors).

(** *** The MangaDex path *)

(** The callback of [batch.map(async (chapter) => ...)]. *)
Definition process_chapter (env : Env) (chapter : MdChapter) : M State unit :=
  try_catch
    (match List.find (fun r => String.eqb (rel_type r) "manga") (md_relationships chapter) with
     | None => bump inc_skipped
     | Some mangaRel =>
         found <- series_findUnique env (rel_id mangaRel) ;;
         match found with
         | None => bump inc_skipped
         | Some s =>
             discoveredAt <- date_now env ;;
             persist_observation env
               (mkEvent (series_id s) (or_str (md_chapter chapter) "0") "mangadex"
                        (md_id chapter) discoveredAt (md_publishAt chapter)
                        (if truthy_ostr (md_title chapter) then md_title chapter else None))
               (last_chapter_released_at s)
         end
     end)
    (fun _ => bump inc_errors).

(** [data.slice(i, i + BATCH_SIZE)] for [i = 0, BATCH_SIZE, ...] *)
Fixpoint chunks_of {A : Type} (fuel n : nat) (l : list A) : list (list A) :=
  match fuel with
  | O => []
  | S fuel' =>
      match l with
      | [] => []
      | _ => take n l :: chunks_of fuel' n (drop n l)
      end
  end.

Definition batches {A : Type} (l : list A) : list (list A) :=
  chunks_of (length l) BATCH_SIZE l.

Definition adapter_fetch (env : Env) (lim : Z) : M State (list MdChapter) :=
  fun st => (fetchLatestChapters env lim, emit (AdapterFetch lim) st).

(** [ingestMangaDexChapters].  The callbacks of one batch are awaited
    together; here they run to completion one after the other, in the
    order of the batch.  What their interleaving does to the watermark
    is the subject of [Advance] below. *)
Definition ingestMangaDexChapters (env : Env) (run : string) (t : FeedIngestTier) (lim : Z)
  : M State Counts :=
  modify (set_result zero_counts) ;;;
  try_catch
    (data <- adapter_fetch env (Z.min lim 100) ;;
     bump (set_fetched (length data)) ;;;
     for_each (for_each (process_chapter env)) (batches data))
    (fun err =>
       if is_rate_limit_error err
       then bump inc_rate_limit_hits
       else throw err) ;;;
  st <- get ;;
  ret (result st).

(** *** The MangaUpdates path *)

Definition release_query (env : Env) (lim : Z) : M State (list MuRelease) :=
  fun st => (findManyReleases env lim, emit (ReleaseQuery lim) st).

(** The body of [for (const release of recentReleases)]. *)
Definition process_release (env : Env) (release : MuRelease) : M State unit :=
  match mu_series release with
  | None => bump inc_skipped
  | Some (sid, snapshot) =>
      persist_observation env
        (mkEvent sid (or_str (mu_chapter release) "0") "mangaupdates"
                 (mu_release_id release) (mu_created_at release)
                 (mu_published_at release) (mu_title release))
        snapshot
  end.

Definition ingestMangaUpdatesReleases (env : Env) (run : string) (t : FeedIngestTier) (lim : Z)
  : M State Counts :=
  modify (set_result zero_counts) ;;;
  try_catch
    (recent <- release_query env lim ;;
     bump (set_fetched (length recent)) ;;;
     for_each (process_release env) recent)
    (fun _ => bump inc_errors) ;;;
  st <- get ;;
  ret (result st).

(** *** Run records and the processor *)

(** [checkQueueHealth]: [{ healthy: !isOverloaded, depth: total }] *)
Definition checkQueueHealth (env : Env) : M State (bool * Z) :=
  fun st =>
    match getTotalQueueDepth env with
    | Normal q => (Normal (negb (isOverloaded q), total q), st)
    | Throw e => (Throw e, st)
    end.

Definition createIngestRun (env : Env) (src : string) (t : FeedIngestTier) : M State string :=
  storage env (fun st =>
    let id := fresh_run_id env (length (runs st)) in
    (Normal id,
     emit (RunInsert id)
       (set_runs (runs st ++ [mkRun id src t running zero_counts None None 0]) st))).

(** The error of an [update] whose [where] matches no row. *)
Definition record_not_found : Thrown :=
  JsError MalformedRow "Record to update not found.".

(** The [data] of [completeIngestRun] applied to a run row. *)
Definition finalize_row (now : Z) (p : PartialCounts) (error : option string) (r : RunRow) : RunRow :=
  mkRun (run_id r) (run_source_name r) (run_tier r)
        (if truthy_ostr error then failed else completed)
        (mkCounts (or_zero (p_events_fetched p)) (or_zero (p_events_created p))
                  (or_zero (p_events_skipped p)) (or_zero (p_series_updated p))
                  (or_zero (p_errors p)) (or_zero (p_rate_limit_hits p)))
        (if truthy_ostr error then error else None)
        (Some now) 1.

Definition completeIngestRun (env : Env) (run : string) (p : PartialCounts) (error : option string)
  : M State unit :=
  now <- date_now env ;;
  storage env (fun st =>
    if existsb (fun r => String.eqb (run_id r) run) (runs st)
    then (Normal tt,
          emit (RunUpdate run (if truthy_ostr error then failed else completed))
            (set_runs (List.map (fun r => if String.eqb (run_id r) run
                                          then finalize_row now p error r else r)
                                (runs st)) st))
    else (Throw record_not_found, st)).

Definition unknown_source (src : string) : Thrown :=
  JsError ProgramError ("Unknown feed source: " +:+ src).

(** The [switch (source)] of the processor. *)
Definition ingest_of (env : Env) (job : FeedIngestJobData) (id : string) : M State Counts :=
  if String.eqb (source job) "mangadex"
  then ingestMangaDexChapters env id (tier job) (default MAX_EVENTS_PER_RUN (limit job))
  else if String.eqb (source job) "mangaupdates"
  then ingestMangaUpdatesReleases env id (tier job) (default MAX_EVENTS_PER_RUN (limit job))
  else throw (unknown_source (source job)).

Definition processFeedIngest (env : Env) (job : FeedIngestJobData) : M State FeedIngestResult :=
  startTime <- date_now env ;;
  health <- checkQueueHealth env ;;
  if negb (fst health)
  then (now <- date_now env ;;
        ret (mkResult (source job) (tier job) "" zero_counts (now - startTime) (Some true)))
  else
    (run <- createIngestRun env (source job) (tier job) ;;
     try_catch
       (res <- ingest_of env job run ;;
        now <- date_now env ;;
        let finalResult := mkResult (source job) (tier job) run res (now - startTime) None in
        completeIngestRun env run (partial_of (counts finalResult)) None ;;;
        ret finalResult)
       (fun error =>
          let errorMessage := match error with
                              | JsError _ m => m
                              | JsNonError _ => "Unknown error"
                              end in
          completeIngestRun env run (only_errors 1) (Some errorMessage) ;;;
          throw error)).

(** *** Concurrent watermark advances

    Each pending advance has read the stored watermark of its series
    (the [select] of [findUnique], or the [include] of the release
    query) and will later test [shouldUpdate] on that reading and issue
    the [UPDATE].  The two storage statements of different advances may
    interleave in any order; a schedule names, step by step, the advance
    that moves next. *)

Inductive Phase : Type :=
| Pending
| HasRead (snapshot : option Z)
| Finished.

Record Advance : Type := mkAdvance {
  candidate : Z;
  phase : Phase
}.

Record System : Type := mkSystem {
  table : list SeriesRow;
  advances : list Advance
}.

(** [findUnique({ where: { id } })] on the series table. *)
Definition find_series (id : string) (tbl : list SeriesRow) : option SeriesRow :=
  List.find (fun r => String.eqb (series_id r) id) tbl.

(** One storage statement of advance number [i] for series [id]. *)
Definition advance_step (id : string) (i : nat) (sys : System) : System :=
  match advances sys !! i with
  | None => sys
  | Some a =>
      match phase a with
      | Pending =>
          match find_series id (table sys) with
          | Some r =>
              mkSystem (table sys)
                (<[i := mkAdvance (candidate a) (HasRead (last_chapter_released_at r))]> (advances sys))
          | None =>
              mkSystem (table sys) (<[i := mkAdvance (candidate a) Finished]> (advances sys))
          end
      | HasRead snapshot =>
          mkSystem
            (if shouldUpdate snapshot (candidate a)
             then List.map (update_row id (candidate a)) (table sys)
             else table sys)
            (<[i := mkAdvance (candidate a) Finished]> (advances sys))
      | Finished => sys
      end
  end.

Definition run_schedule (id : string) (sched : list nat) (sys : System) : System :=
  fold_left (fun s i => advance_step id i s) sched sys.

Definition start (tbl : list SeriesRow) (ts : list Z) : System :=
  mkSystem tbl (List.map (fun t => mkAdvance t Pending) ts).

(** The watermark of series [id], if the series exists. *)
Definition watermark (id : string) (sys : System) : option (option Z) :=
  last_chapter_released_at <$> find_series id (table sys).

(** Every advance gets its two steps. *)
Definition complete_schedule (n : nat) (sched : list nat) : Prop :=
  forall i, (i < n)%nat -> (2 <= count_occ Nat.eq_dec sched i)%nat.

(** Order on watermarks: no value lies below every timestamp. *)
Definition wm_le (a b : option Z) : Prop :=
  match a, b with
  | None, _ => True
  | Some _, None => False
  | Some x, Some y => x <= y
  end.

(** [max(base, t1, ..., tn)] *)
Definition max_of (base : Z) (ts : list Z) : Z := fold_right Z.max base ts.

(** What every reachable system satisfies, for the series [id] whose
    row was [r0] at the start and the candidates [ts]: the row is still
    there with the same soft-delete mark; its watermark lies between the
    initial one and [max_of]; every reading taken is below it; and every
    finished advance of a live series has its candidate below it. *)
Definition adv_inv (id : string) (r0 : SeriesRow) (ts : list Z) (sys : System) : Prop :=
  candidate <$> advances sys = ts /\
  exists r, find_series id (table sys) = Some r /\
    deleted_at r = deleted_at r0 /\
    wm_le (last_chapter_released_at r0) (last_chapter_released_at r) /\
    (deleted_at r0 <> None -> last_chapter_released_at r = last_chapter_released_at r0) /\
    default 0 (last_chapter_released_at r0) <= default 0 (last_chapter_released_at r) /\
    default 0 (last_chapter_released_at r) <= max_of (default 0 (last_chapter_released_at r0)) ts /\
    (forall i a, advances sys !! i = Some a ->
       match phase a with
       | Pending => True
       | HasRead s => wm_le s (last_chapter_released_at r)
       | Finished => deleted_at r0 = None -> wm_le (Some (candidate a)) (last_chapter_released_at r)
       end).

(** The classification the event store is specified to make: a failure
    is a duplicate exactly when its failure class is the uniqueness
    violation, whatever its message says. *)
Definition duplicate_by_class (err : Thrown) : bool :=
  match err with
  | JsError UniqueConstraintViolation _ => true
  | _ => false
  end.

(** Number of stored events that carry the key of [row]. *)
Definition key_count (row : EventRow) (evs : list EventRow) : nat :=
  length (List.filter (same_key row) evs).

(** Number of finalizing updates of run [id] in a trace. *)
Definition updates_of (id : string) (tr : list Effect) : nat :=
  length (List.filter (fun e => match e with
                                | RunUpdate i _ => String.eqb i id
                                | _ => false
                                end) tr).

(** Number of adapter calls in a trace. *)
Definition adapter_calls (tr : list Effect) : nat :=
  length (List.filter (fun e => match e with
                                | AdapterFetch _ | ReleaseQuery _ => true
                                | _ => false
                                end) tr).

(** *** What an ingest function leaves alone *)

(** An adapter call or a release query. *)
Definition is_fetch (e : Effect) : Prop :=
  match e with AdapterFetch _ | ReleaseQuery _ => True | _ => False end.

(** From [st] to [st']: the run table is untouched and the trace has
    only grown by fetches. *)
Definition ingest_frame (st st' : State) : Prop :=
  runs st' = runs st /\ exists tr, trace st' = (trace st ++ tr)%list /\ Forall is_fetch tr.

(** A computation that never touches the run table. *)
Definition keeps_runs {A : Type} (m : M State A) : Prop :=
  forall st, ingest_frame st (snd (m st)).

(** *** Sample inputs *)

Definition demo_row : EventRow :=
  mkEvent "series-1" "10.5" "mangadex" "chapter-77" 1000 None None.

Definition empty_state : State := mkState [] [] [] [] 0 0 zero_counts.

(** A healthy queue, an empty feed, a store that never fails. *)
Definition quiet_env : Env :=
  mkEnv (Normal (mkDepth 0 false)) (fun _ => Normal []) (fun _ => Normal [])
        (fun _ => None) (fun k => 1000 + Z.of_nat k) (fun k => "run-" +:+ pretty (S k)).

(** The queue module reports an overload. *)
Definition overloaded_env : Env :=
  mkEnv (Normal (mkDepth 6000 true)) (fun _ => Normal []) (fun _ => Normal [])
        (fun _ => None) (fun k => 1000 + Z.of_nat k) (fun k => "run-" +:+ pretty (S k)).

(** The MangaDex client answers with a rate-limit error. *)
Definition throttled_env : Env :=
  mkEnv (Normal (mkDepth 12 false))
        (fun _ => Throw (JsError UpstreamThrottled "Request failed with status code 429"))
        (fun _ => Normal []) (fun _ => None) (fun k => 1000 + Z.of_nat k) (fun k => "run-" +:+ pretty (S k)).

(** The MangaDex client throws an [Error] with an empty message, as
    [new Error(response.statusText)] does over HTTP/2. *)
Definition unreachable_env : Env :=
  mkEnv (Normal (mkDepth 12 false))
        (fun _ => Throw (JsError UpstreamUnreachable ""))
        (fun _ => Normal []) (fun _ => None) (fun k => 1000 + Z.of_nat k) (fun k => "run-" +:+ pretty (S k)).

(** One tracked series without a watermark, and a feed that carries one
    chapter of it. *)
Definition one_series : State :=
  mkState [mkSeries "series-1" (Some "md-1") None None] [] [] [] 0 0 zero_counts.

Definition one_chapter_env : Env :=
  mkEnv (Normal (mkDepth 12 false))
        (fun _ => Normal [mkChapter "chapter-77" (Some "10.5") (Some "Title") None
                                    [mkRel "scanlation_group" "g-1"; mkRel "manga" "md-1"]])
        (fun _ => Normal []) (fun _ => None) (fun k => 1000 + Z.of_nat k) (fun k => "run-" +:+ pretty (S k)).

(** Where an advance stands: 0 before its read, 1 after it, 2 when done. *)
Definition rank (p : Phase) : nat :=
  match p with
  | Pending => 0
  | HasRead _ => 1
  | Finished => 2
  end.

End FeedIngest.

(* ===================================================================== *)
(** ** The on-demand sync trigger *)
(* ===================================================================== *)

Module OnDemandSync.

Import Js Eff.
Local Open Scope eff_scope.

(** *** Stored rows, as far as [performOnDemandSync] reads or writes them *)

Record SeriesRow : Type := mkSeries {
  series_id : string;
  title : string;
  mangadex_id : option string
}.

Record SeriesSource : Type := mkSource {
  ss_series_id : string;
  source_name : string;
  source_id : string
}.

Record Chapter : Type := mkChapter {
  ch_id : string;
  ch_series_id : string;
  chapter_title : option string;
  ch_deleted_at : option Z
}.

(** A per-source detail row of a chapter. *)
Record ChapterSource : Type := mkChapterSource {
  cs_chapter_id : string
}.

Record Db : Type := mkDb {
  series : list SeriesRow;
  series_sources : list SeriesSource;
  chapters : list Chapter;
  chapter_sources : list ChapterSource
}.

Record ScrapedChapter : Type := mkScraped {
  sc_number : string;
  sc_title : option string
}.

(** What the function prints. *)
Inductive LogLine : Type :=
| InvalidLockId (sid : string)
| AlreadySyncing (sid : string)
| ReleaseFailed (sid : string) (err : Thrown)
| SyncFailed (sid : string) (err : Thrown).

(** Lock statements sent to the database. *)
Inductive LockStmt : Type :=
| TryLock (key : Z)
| Unlock (key : Z).

(** The database, the advisory locks currently held, the console, the
    lock statements issued and the scraper calls made, oldest first. *)
Record World : Type := mkWorld {
  db : Db;
  locks : gset Z;
  console : list LogLine;
  lock_trace : list LockStmt;
  scrape_calls : list (string * string)
}.

Definition set_db (x : Db) (w : World) : World :=
  mkWorld x (locks w) (console w) (lock_trace w) (scrape_calls w).
Definition set_locks (x : gset Z) (w : World) : World :=
  mkWorld (db w) x (console w) (lock_trace w) (scrape_calls w).
Definition print (l : LogLine) (w : World) : World :=
  mkWorld (db w) (locks w) (console w ++ [l]) (lock_trace w) (scrape_calls w).
Definition sent (s : LockStmt) (w : World) : World :=
  mkWorld (db w) (locks w) (console w) (lock_trace w ++ [s]) (scrape_calls w).
Definition scraped_with (name sid : string) (w : World) : World :=
  mkWorld (db w) (locks w) (console w) (lock_trace w) (scrape_calls w ++ [(name, sid)]).

(** The scraper registry and the chapter-grouping collaborator.
    [scrapers name] is [scrapers[name]]; [syncChapters] may rewrite the
    database and may throw. *)
Record Collaborators : Type := mkCollaborators {
  scrapers : string -> option (string -> Completion (list ScrapedChapter));
  syncChapters : string -> string -> string -> list ScrapedChapter -> Db -> Completion unit * Db
}.

(** Which statements of one invocation fail on their own. *)
Record Faults : Type := mkFaults {
  lock_fault : option Thrown;
  count_fault : option Thrown;
  find_series_fault : option Thrown;
  upsert_fault : option Thrown;
  titles_fault : option Thrown;
  unlock_fault : option Thrown
}.

Definition no_faults : Faults := mkFaults None None None None None None.

(** A statement that fails if [fault] says so and otherwise does [op]. *)
Definition stmt {A : Type} (fault : option Thrown) (op : World -> Completion A * World) : M World A :=
  fun w =>
    match fault with
    | Some e => (Throw e, w)
    | None => op w
    end.

Definition log (l : LogLine) : M World unit := modify (print l).

(** [parseInt(seriesId.replace(/-/g, '').substring(0, 8), 16)] *)
Definition lockId_of (seriesId : string) : option Z :=
  parseInt16 (String.substring 0 8 (remove_dashes seriesId)).

(** [SELECT pg_try_advisory_lock(key)]: one row, [true] exactly when
    nobody holds the key, which then becomes held. *)
Definition pg_try_advisory_lock (F : Faults) (key : Z) : M World (list bool) :=
  fun w =>
    match lock_fault F with
    | Some e => (Throw e, sent (TryLock key) w)
    | None =>
        if bool_decide (key ∈ locks w)
        then (Normal [false], sent (TryLock key) w)
        else (Normal [true], sent (TryLock key) (set_locks ({[key]} ∪ locks w) w))
    end.

(** [SELECT pg_advisory_unlock(key)] *)
Definition pg_advisory_unlock (F : Faults) (key : Z) : M World unit :=
  fun w =>
    match unlock_fault F with
    | Some e => (Throw e, sent (Unlock key) w)
    | None => (Normal tt, sent (Unlock key) (set_locks (locks w ∖ {[key]}) w))
    end.

(** [!lockAcquired || lockAcquired.length === 0 || !lockAcquired[0]?.pg_try_advisory_lock] *)
Definition lock_refused (rows : list bool) : bool :=
  match rows with
  | [] => true
  | r :: _ => negb r
  end.

(** *** The queries of the guarded section *)

Definition live_chapters (sid : string) (d : Db) : list Chapter :=
  List.filter (fun c => String.eqb (ch_series_id c) sid && bool_decide (ch_deleted_at c = None))
              (chapters d).

(** [prisma.chapter.count({ where: { series_id, deleted_at: null } })] *)
Definition chapter_count (sid : string) (d : Db) : nat := length (live_chapters sid d).

(** [prisma.chapterSource.count({ where: { chapter: { series_id, deleted_at: null } } })] *)
Definition chapter_source_count (sid : string) (d : Db) : nat :=
  length (List.filter (fun cs => existsb (fun c => String.eqb (ch_id c) (cs_chapter_id cs))
                                         (live_chapters sid d))
                      (chapter_sources d)).

Definition counts (F : Faults) (sid : string) : M World (nat * nat) :=
  stmt (count_fault F) (fun w => (Normal (chapter_count sid (db w), chapter_source_count sid (db w)), w)).

(** [prisma.series.findUnique({ where: { id }, include: { sources: true } })] *)
Definition find_series (F : Faults) (sid : string) : M World (option (SeriesRow * list SeriesSource)) :=
  stmt (find_series_fault F) (fun w =>
    (Normal (match List.find (fun s => String.eqb (series_id s) sid) (series (db w)) with
             | Some s => Some (s, List.filter (fun x => String.eqb (ss_series_id x) sid)
                                              (series_sources (db w)))
             | None => None
             end), w)).

(** [series.sources.find(s => s.source_name === 'mangadex') || series.sources[0]] *)
Definition pick_source (sources : list SeriesSource) : option SeriesSource :=
  match List.find (fun s => String.eqb (source_name s) "mangadex") sources with
  | Some s => Some s
  | None => head sources
  end.

Definition is_binding (name id : string) (x : SeriesSource) : bool :=
  String.eqb (source_name x) name && String.eqb (source_id x) id.

(** [prisma.seriesSource.upsert] on the unique pair (source name, source
    id): an existing binding is moved to the series, a missing one is
    created; the row is returned. *)
Definition upsert_mangadex (F : Faults) (sid mdid : string) : M World SeriesSource :=
  stmt (upsert_fault F) (fun w =>
    let row := mkSource sid "mangadex" mdid in
    let d := db w in
    let bound := series_sources d in
    (Normal row,
     set_db (mkDb (series d)
                  (if existsb (is_binding "mangadex" mdid) bound
                   then List.map (fun x => if is_binding "mangadex" mdid x then row else x) bound
                   else bound ++ [row])
                  (chapters d) (chapter_sources d)) w)).

Definition dummyTitles : list string := ["The Beginning"; "The Journey"; "New Discovery"].

(** [prisma.chapter.findMany({ where: { series_id }, select: { chapter_title } })];
    this query has no [deleted_at] filter. *)
Definition chapter_titles (F : Faults) (sid : string) : M World (list (option string)) :=
  stmt (titles_fault F) (fun w =>
    (Normal (List.map chapter_title
               (List.filter (fun c => String.eqb (ch_series_id c) sid) (chapters (db w)))), w)).

(** [dummyTitles.includes(c.chapter_title || "")] *)
Definition is_dummy_title (t : option string) : bool :=
  existsb (String.eqb (or_str t "")) dummyTitles.

Definition scrape (scraper : string -> Completion (list ScrapedChapter)) (name id : string)
  : M World (list ScrapedChapter) :=
  fun w => (scraper id, scraped_with name id w).

Definition sync (clb : Collaborators) (sid id name : string) (chs : list ScrapedChapter) : M World unit :=
  fun w =>
    match syncChapters clb sid id name chs (db w) with
    | (c, d) => (c, set_db d w)
    end.

(** The last part of the guarded section, from the placeholder test on. *)
Definition recheck_and_fetch (clb : Collaborators) (F : Faults) (sid : string)
    (currentCount sourceCount : nat) (syncSource : SeriesSource) : M World unit :=
  isDummy <- (if Nat.eqb currentCount 3
              then (existing <- chapter_titles F sid ;; ret (forallb is_dummy_title existing))
              else ret false) ;;
  let hasOrphanedChapters := Nat.ltb 0 currentCount && Nat.eqb sourceCount 0 in
  if Nat.ltb 0 currentCount && negb isDummy && negb hasOrphanedChapters
  then ret tt
  else
    match scrapers clb (source_name syncSource) with
    | None => ret tt
    | Some scraper =>
        scraped <- scrape scraper (source_name syncSource) (source_id syncSource) ;;
        if Nat.ltb 0 (length scraped)
        then sync clb sid (source_id syncSource) (source_name syncSource) scraped
        else ret tt
    end.

(** The body of the inner [try], run while the lock is held. *)
Definition guarded (clb : Collaborators) (F : Faults) (sid : string) : M World unit :=
  cs <- counts F sid ;;
  found <- find_series F sid ;;
  match found with
  | None => ret tt
  | Some (s, sources) =>
      syncSource <- match pick_source sources with
                    | Some x => ret (Some x)
                    | None =>
                        if truthy_ostr (mangadex_id s)
                        then (x <- upsert_mangadex F sid (default "" (mangadex_id s)) ;;
                              ret (Some x))
                        else ret None
                    end ;;
      match syncSource with
      | None => ret tt
      | Some src => recheck_and_fetch clb F sid (fst cs) (snd cs) src
      end
  end.

(** The [finally] block: the unlock with its [.catch]. *)
Definition release (F : Faults) (sid : string) (key : Z) : M World unit :=
  try_catch (pg_advisory_unlock F key) (fun err => log (ReleaseFailed sid err)).

Definition performOnDemandSync (clb : Collaborators) (F : Faults) (seriesId : string) : M World unit :=
  match lockId_of seriesId with
  | None => log (InvalidLockId seriesId)
  | Some lockId =>
      try_catch
        (lockAcquired <- pg_try_advisory_lock F lockId ;;
         if lock_refused lockAcquired
         then log (AlreadySyncing seriesId)
         else try_finally (guarded clb F seriesId) (release F seriesId lockId))
        (fun err => log (SyncFailed seriesId err))
  end.

(** *** Two callers for the same series

    Each caller moves through its awaited statements: the lock attempt,
    the guarded section, the release.  A schedule says, step by step,
    which of the two callers moves ([false] the first, [true] the
    second).  Another caller for the same series can only touch the
    lock while one is inside the guarded section, so the section is one
    step here. *)

Inductive Exit : Type :=
| ExitInvalidId
| ExitLockBusy
| ExitDone
| ExitCaught (err : Thrown).

Inductive Pc : Type :=
| AtStart
| InGuarded (key : Z)
| AtRelease (key : Z) (body : Completion unit)
| Returned (how : Exit).

Record Caller : Type := mkCaller {
  pc : Pc;
  faults : Faults;
  ran_guarded : bool;
  fetches : nat
}.

Definition caller_step (clb : Collaborators) (sid : string) (c : Caller) (w : World)
  : Caller * World :=
  let F := faults c in
  match pc c with
  | AtStart =>
      match lockId_of sid with
      | None => (mkCaller (Returned ExitInvalidId) F (ran_guarded c) (fetches c),
                 print (InvalidLockId sid) w)
      | Some key =>
          match pg_try_advisory_lock F key w with
          | (Throw e, w') =>
              (mkCaller (Returned (ExitCaught e)) F (ran_guarded c) (fetches c),
               print (SyncFailed sid e) w')
          | (Normal rows, w') =>
              if lock_refused rows
              then (mkCaller (Returned ExitLockBusy) F (ran_guarded c) (fetches c),
                    print (AlreadySyncing sid) w')
              else (mkCaller (InGuarded key) F (ran_guarded c) (fetches c), w')
          end
      end
  | InGuarded key =>
      match guarded clb F sid w with
      | (body, w') =>
          (mkCaller (AtRelease key body) F true
                    (fetches c + (length (scrape_calls w') - length (scrape_calls w))), w')
      end
  | AtRelease key body =>
      match release F sid key w with
      | (Throw e, w') =>
          (mkCaller (Returned (ExitCaught e)) F (ran_guarded c) (fetches c),
           print (SyncFailed sid e) w')
      | (Normal _, w') =>
          match body with
          | Normal _ => (mkCaller (Returned ExitDone) F (ran_guarded c) (fetches c), w')
          | Throw e =>
              (mkCaller (Returned (ExitCaught e)) F (ran_guarded c) (fetches c),
               print (SyncFailed sid e) w')
          end
      end
  | Returned _ => (c, w)
  end.

Record Pair : Type := mkPair {
  first : Caller;
  second : Caller;
  world : World
}.

Definition pair_step (clb : Collaborators) (sid : string) (p : Pair) (who : bool) : Pair :=
  if who
  then match caller_step clb sid (second p) (world p) with
       | (c, w) => mkPair (first p) c w
       end
  else match caller_step clb sid (first p) (world p) with
       | (c, w) => mkPair c (second p) w
       end.

Definition run_pair (clb : Collaborators) (sid : string) (sched : list bool) (p : Pair) : Pair :=
  fold_left (pair_step clb sid) sched p.

Definition boot (F0 F1 : Faults) (w : World) : Pair :=
  mkPair (mkCaller AtStart F0 false 0) (mkCaller AtStart F1 false 0) w.

Definition caller_of (p : Pair) (who : bool) : Caller :=
  if who then second p else first p.

(** The two calls overlap: the later caller asks for the lock after the
    earlier one did and before the earlier one has released it. *)
Definition concurrent (sched : list bool) : Prop :=
  exists x rest, sched = x :: negb x :: rest \/ sched = x :: x :: negb x :: rest.

(** Both callers get the three steps they need to return. *)
Definition both_return (sched : list bool) : Prop :=
  (3 <= count_occ bool_dec sched false)%nat /\ (3 <= count_occ bool_dec sched true)%nat.

(** What the re-check is meant to decide, on the live chapters of the
    series: there are none, or they are the three seeded placeholders,
    or they have no per-source detail row at all. *)
Definition placeholder_pattern (sid : string) (d : Db) : Prop :=
  length (live_chapters sid d) = 3%nat /\
  Forall (fun c => is_dummy_title (chapter_title c) = true) (live_chapters sid d).

Definition orphaned (sid : string) (d : Db) : Prop :=
  live_chapters sid d <> [] /\ chapter_source_count sid d = 0%nat.

Definition needs_sync (sid : string) (d : Db) : Prop :=
  live_chapters sid d = [] \/ placeholder_pattern sid d \/ orphaned sid d.

(** The situation once both lock attempts have been made, [x] being
    the caller that asked first and [n0] the number of scraper calls
    made before: the other caller has returned through the busy-lock
    exit without entering the guarded section, and [x] is somewhere
    between its lock attempt and its return, with the scraper calls
    added so far all its own. *)
Definition settled (n0 : nat) (x : bool) (p : Pair) : Prop :=
  let a := caller_of p x in
  let b := caller_of p (negb x) in
  pc b = Returned ExitLockBusy /\ ran_guarded b = false /\ fetches b = 0%nat /\
  length (scrape_calls (world p)) = (n0 + fetches a)%nat /\
  ((exists key, pc a = InGuarded key) /\ ran_guarded a = false /\ fetches a = 0%nat \/
   ((exists key c, pc a = AtRelease key c) \/
    (exists how, pc a = Returned how /\ how <> ExitLockBusy)) /\
   ran_guarded a = true /\ (fetches a <= 1)%nat).

(** How far a caller has got. *)
Definition pc_rank (c : Pc) : nat :=
  match c with
  | AtStart => 0
  | InGuarded _ => 1
  | AtRelease _ _ => 2
  | Returned _ => 3
  end.

(** *** Sample inputs *)

Definition demo_series : string := "1a2b3c4d-0000-4000-8000-000000000001".

(** A MangaDex scraper that finds one chapter, and a grouping
    collaborator that files what it is given under the series. *)
Definition demo_collaborators : Collaborators :=
  mkCollaborators
    (fun name => if String.eqb name "mangadex"
                 then Some (fun _ => Normal [mkScraped "1" None])
                 else None)
    (fun sid _ _ _ d =>
       (Normal tt,
        mkDb (series d) (series_sources d)
             (chapters d ++ [mkChapter "c1" sid (Some "Chapter 1") None])
             (chapter_sources d ++ [mkChapterSource "c1"]))).

(** The series is known by its MangaDex id and has no chapter yet. *)
Definition cold_world : World :=
  mkWorld (mkDb [mkSeries demo_series "Title" (Some "md-1")] [] [] []) ∅ [] [] [].

(** The series has one real chapter with a detail row. *)
Definition synced_world : World :=
  mkWorld (mkDb [mkSeries demo_series "Title" (Some "md-1")]
                [mkSource demo_series "mangadex" "md-1"]
                [mkChapter "c1" demo_series (Some "Chapter 1") None]
                [mkChapterSource "c1"]) ∅ [] [] [].

(** Every statement that can fail does. *)
Definition storage_down : Faults :=
  let e := JsError StorageUnavailable "connection refused" in
  mkFaults None (Some e) (Some e) (Some e) (Some e) (Some e).

End OnDemandSync.

(* ===================================================================== *)
(** ** DLQ alerting *)
(* ===================================================================== *)

Module Alerting.

Import Js Eff.

Inductive AlertType : Type :=
| dlq_threshold
| dlq_critical
| metadata_failure
| source_failure
| system_error.

Inductive Severity : Type := warning | error | critical.

Record DLQAlert : Type := mkAlert {
  type : AlertType;
  entityId : option string;
  failureCount : Z;
  message : string;
  timestamp : Z;
  severity : Severity
}.

Definition type_name (t : AlertType) : string :=
  match t with
  | dlq_threshold => "dlq_threshold"
  | dlq_critical => "dlq_critical"
  | metadata_failure => "metadata_failure"
  | source_failure => "source_failure"
  | system_error => "system_error"
  end.

(** An [AlertHandler]: it returns or throws. *)
Definition AlertHandler : Type := DLQAlert -> Completion unit.

(** The [DLQAlertingService] instance: its two private fields, then
    what it has done so far: the alerts printed as [[DLQ_ALERT]] lines,
    the handler calls (position of the handler, alert), the handler
    errors printed and the messages handed to the error monitor. *)
Record Service : Type := mkService {
  handlers : list AlertHandler;
  lastAlertTime : gmap string Z;
  dispatched : list DLQAlert;
  handler_calls : list (nat * DLQAlert);
  handler_errors : list Thrown;
  captured : list string
}.

Definition alertCooldownMs : Z := 5 * 60 * 1000.

Definition fresh : Service := mkService [] ∅ [] [] [] [].

(** [`${alert.type}:${alert.entityId || 'global'}`] *)
Definition alertKey (alert : DLQAlert) : string :=
  type_name (type alert) +:+ ":" +:+ or_str (entityId alert) "global".

(** [lastAlert && now - lastAlert < this.alertCooldownMs] *)
Definition in_cooldown (svc : Service) (key : string) (now : Z) : bool :=
  match lastAlertTime svc !! key with
  | Some lastAlert => negb (lastAlert =? 0) && (now - lastAlert <? alertCooldownMs)
  | None => false
  end.

(** The [for (const handler of this.handlers)] loop with its
    [try]/[catch], from position [i] on. *)
Fixpoint call_handlers (alert : DLQAlert) (i : nat) (hs : list AlertHandler)
    (calls : list (nat * DLQAlert)) (errs : list Thrown)
  : list (nat * DLQAlert) * list Thrown :=
  match hs with
  | [] => (calls, errs)
  | h :: rest =>
      match h alert with
      | Normal _ => call_handlers alert (S i) rest (calls ++ [(i, alert)]) errs
      | Throw e => call_handlers alert (S i) rest (calls ++ [(i, alert)]) (errs ++ [e])
      end
  end.

(** [sendAlert], with [now] the reading of [Date.now()]. *)
Definition sendAlert (now : Z) (alert : DLQAlert) (svc : Service) : Service :=
  let key := alertKey alert in
  if in_cooldown svc key now
  then svc
  else
    let '(calls, errs) :=
      call_handlers alert 0 (handlers svc) (handler_calls svc) (handler_errors svc) in
    mkService (handlers svc) (<[key := now]> (lastAlertTime svc))
              (dispatched svc ++ [alert]) calls errs
              (captured svc ++ [message alert]).

Record Thresholds : Type := mkThresholds {
  th_warning : Z;
  th_error : Z;
  th_critical : Z
}.

Definition default_thresholds : Thresholds := mkThresholds 50 200 500.

Definition dlq_message (label : string) (dlqCount threshold : Z) : string :=
  label +:+ ": DLQ has " +:+ pretty dlqCount +:+ " unresolved failures (threshold: "
        +:+ pretty threshold +:+ ")".

(** [checkDLQThresholds]; [stamp] is the [new Date()] of the alert and
    [now] the clock reading inside [sendAlert]. *)
Definition checkDLQThresholds (dlqCount : Z) (th : Thresholds) (stamp now : Z) (svc : Service)
  : Service :=
  if th_critical th <=? dlqCount
  then sendAlert now (mkAlert dlq_critical None dlqCount
                        (dlq_message "CRITICAL" dlqCount (th_critical th)) stamp critical) svc
  else if th_error th <=? dlqCount
  then sendAlert now (mkAlert dlq_threshold None dlqCount
                        (dlq_message "ERROR" dlqCount (th_error th)) stamp error) svc
  else if th_warning th <=? dlqCount
  then sendAlert now (mkAlert dlq_threshold None dlqCount
                        (dlq_message "WARNING" dlqCount (th_warning th)) stamp warning) svc
  else svc.

(** [registerHandler] (the returned unregister function is not needed
    here). *)
Definition registerHandler (h : AlertHandler) (svc : Service) : Service :=
  mkService (handlers svc ++ [h]) (lastAlertTime svc) (dispatched svc)
            (handler_calls svc) (handler_errors svc) (captured svc).

End Alerting.

(* ===================================================================== *)
(** ** The middleware's bounded rate-limit store *)
(* ===================================================================== *)

Module RateLimit.

Import Js.

Record Entry : Type := mkEntry {
  count : Z;
  resetTime : Z
}.

(** [BoundedRateLimitStore].  The [Map] keeps insertion order, which
    decides ties in the eviction scan, so it is an association list with
    one pair per key. *)
Record BoundedRateLimitStore : Type := mkStore {
  store : list (string * Entry);
  maxEntries : Z;
  lastCleanup : Z
}.

Definition cleanupInterval : Z := 60000.

(** [new BoundedRateLimitStore(maxEntries)] at clock reading [now]. *)
Definition new_store (maxEntries : Z) (now : Z) : BoundedRateLimitStore :=
  mkStore [] maxEntries now.

(** [this.store.size] *)
Definition size (s : BoundedRateLimitStore) : Z := Z.of_nat (length (store s)).

(** [Map.prototype.delete] *)
Definition map_delete (key : string) (m : list (string * Entry)) : list (string * Entry) :=
  List.filter (fun p => negb (String.eqb (fst p) key)) m.

(** [Map.prototype.set]: an existing key keeps its place. *)
Fixpoint map_set (key : string) (value : Entry) (m : list (string * Entry))
  : list (string * Entry) :=
  match m with
  | [] => [(key, value)]
  | p :: rest =>
      if String.eqb (fst p) key then (key, value) :: rest
      else p :: map_set key value rest
  end.

(** [Map.prototype.get] *)
Definition map_get (key : string) (m : list (string * Entry)) : option Entry :=
  snd <$> List.find (fun p => String.eqb (fst p) key) m.

(** Stable sort by [resetTime], oldest first
    ([entries.sort((a, b) => a[1].resetTime - b[1].resetTime)]). *)
Fixpoint insert_sorted (x : string * Entry) (l : list (string * Entry)) : list (string * Entry) :=
  match l with
  | [] => [x]
  | y :: rest =>
      if resetTime (snd x) <=? resetTime (snd y) then x :: l
      else y :: insert_sorted x rest
  end.

Definition sort_by_reset (l : list (string * Entry)) : list (string * Entry) :=
  foldr insert_sorted [] l.

(** [cleanup], with [now] the reading of [Date.now()]. *)
Definition cleanup (now : Z) (s : BoundedRateLimitStore) : BoundedRateLimitStore :=
  if now - lastCleanup s <? cleanupInterval then s
  else
    let kept := List.filter (fun p => negb (resetTime (snd p) <? now)) (store s) in
    let trimmed :=
      if maxEntries s <? Z.of_nat (length kept)
      then fold_left (fun m p => map_delete (fst p) m)
                     (take (Z.to_nat (Z.of_nat (length kept) - maxEntries s))
                           (sort_by_reset kept)) kept
      else kept in
    mkStore trimmed (maxEntries s) now.

Definition get (key : string) (s : BoundedRateLimitStore) : option Entry :=
  map_get key (store s).

(** The scan of [set] for the entry with the smallest [resetTime]:
    [oldestTime] starts at [Infinity] ([None] here), and only a strictly
    smaller time replaces the candidate. *)
Definition oldest_scan (m : list (string * Entry)) : option string * option Z :=
  fold_left (fun acc p =>
               match snd acc with
               | None => (Some (fst p), Some (resetTime (snd p)))
               | Some oldestTime =>
                   if resetTime (snd p) <? oldestTime
                   then (Some (fst p), Some (resetTime (snd p)))
                   else acc
               end) m (None, None).

(** The second half of [set]: evict if at capacity, then insert. *)
Definition evict_and_insert (key : string) (value : Entry) (s : BoundedRateLimitStore)
  : BoundedRateLimitStore :=
  let m :=
    if maxEntries s <=? size s
    then match fst (oldest_scan (store s)) with
         | Some oldestKey =>
             if truthy_str oldestKey then map_delete oldestKey (store s) else store s
         | None => store s
         end
    else store s in
  mkStore (map_set key value m) (maxEntries s) (lastCleanup s).

(** [set], with [now] the clock reading [cleanup] would take. *)
Definition set (now : Z) (key : string) (value : Entry) (s : BoundedRateLimitStore)
  : BoundedRateLimitStore :=
  evict_and_insert key value
    (if maxEntries s <=? size s then cleanup now s else s).

Definition triggerCleanup (now : Z) (s : BoundedRateLimitStore) : BoundedRateLimitStore :=
  cleanup now s.

(** [const rateLimitStore = new BoundedRateLimitStore(10000)] *)
Definition rateLimitStore (now : Z) : BoundedRateLimitStore := new_store 10000 now.

Record RateLimitResult : Type := mkRateLimitResult {
  allowed : bool;
  remaining : Z;
  reset : Z;
  rl_limit : Z
}.

(** [checkRateLimit]; [t0], [now] and [t1] are the clock readings of
    [triggerCleanup], of the function itself and of [set]. *)
Definition checkRateLimit (t0 now t1 : Z) (key : string) (limit windowMs : Z)
    (s : BoundedRateLimitStore) : RateLimitResult * BoundedRateLimitStore :=
  let s0 := triggerCleanup t0 s in
  match get key s0 with
  | Some existing =>
      if resetTime existing <? now
      then (mkRateLimitResult true (limit - 1) (now + windowMs) limit,
            set t1 key (mkEntry 1 (now + windowMs)) s0)
      else
        let newCount := count existing + 1 in
        (mkRateLimitResult (newCount <=? limit) (Z.max 0 (limit - newCount))
                           (resetTime existing) limit,
         set t1 key (mkEntry newCount (resetTime existing)) s0)
  | None =>
      (mkRateLimitResult true (limit - 1) (now + windowMs) limit,
       set t1 key (mkEntry 1 (now + windowMs)) s0)
  end.

(** [`${tier}:${ip}`], the key the middleware builds. *)
Definition rate_key (tier ip : string) : string := tier +:+ ":" +:+ ip.

(** The operations of the store, each with the clock reading it would
    take. *)
Inductive Op : Type :=
| OpGet (key : string)
| OpSet (now : Z) (key : string) (value : Entry)
| OpCleanup (now : Z).

Definition apply_op (s : BoundedRateLimitStore) (op : Op) : BoundedRateLimitStore :=
  match op with
  | OpGet _ => s
  | OpSet now key value => set now key value s
  | OpCleanup now => triggerCleanup now s
  end.

Definition run_ops (ops : list Op) (s : BoundedRateLimitStore) : BoundedRateLimitStore :=
  fold_left apply_op ops s.

(** The keys handed to [set] are truthy (non-empty) strings. *)
Definition truthy_keys (ops : list Op) : Prop :=
  Forall (fun op => match op with
                    | OpSet _ key _ => truthy_str key = true
                    | _ => True
                    end) ops.

(** One request passing the limiter of the middleware: the tier and
    address the key is built from, the limit and window, and the three
    clock readings of [checkRateLimit]. *)
Record Request : Type := mkRequest {
  rq_tier : string;
  rq_ip : string;
  rq_limit : Z;
  rq_window : Z;
  rq_t0 : Z;
  rq_now : Z;
  rq_t1 : Z
}.

Definition serve (s : BoundedRateLimitStore) (r : Request) : BoundedRateLimitStore :=
  snd (checkRateLimit (rq_t0 r) (rq_now r) (rq_t1 r) (rate_key (rq_tier r) (rq_ip r))
                      (rq_limit r) (rq_window r) s).

Definition serve_all (rs : list Request) (s : BoundedRateLimitStore) : BoundedRateLimitStore :=
  fold_left serve rs s.

(** What the operations keep true of a store that started empty with a
    positive capacity: it is within capacity and holds no empty key. *)
Definition within_capacity (s : BoundedRateLimitStore) : Prop :=
  0 < maxEntries s /\ size s <= maxEntries s /\
  Forall (fun p => truthy_str (fst p) = true) (store s).

End RateLimit.

(* ===================================================================== *)
(** ** What a run of the processor keeps, and how it counts *)
(* ===================================================================== *)

Module FeedIngestRun.
Import Js Eff FeedIngest.
Local Open Scope eff_scope.

(** *** What a whole run keeps *)

(** Every run of [m] relates the store it starts from to the store it
    leaves by [R]. *)
Definition preserves {A : Type} (R : State -> State -> Prop) (m : M State A) : Prop :=
  forall st, R st (snd (m st)).

(** No two stored events carry the same idempotency key. *)
Definition unique_keys (evs : list EventRow) : Prop :=
  forall row, (key_count row evs <= 1)%nat.

(** The event table has only grown at its end, and is free of duplicate
    keys if it was. *)
Definition events_kept (st st' : State) : Prop :=
  (exists added, events st' = (events st ++ added)%list) /\
  (unique_keys (events st) -> unique_keys (events st')).

(** A series row after some statements, against the row before them:
    only the watermark may differ, it has not gone down, and a
    soft-deleted row is as it was. *)
Definition row_advanced (r r' : SeriesRow) : Prop :=
  series_id r' = series_id r /\ mangadex_id r' = mangadex_id r /\
  deleted_at r' = deleted_at r /\
  wm_le (last_chapter_released_at r) (last_chapter_released_at r') /\
  (deleted_at r <> None -> r' = r).

Definition series_advanced (st st' : State) : Prop :=
  Forall2 row_advanced (series st) (series st').

(** The items a run has accounted for: created, skipped or failed. *)
Definition accounted (c : Counts) : nat :=
  (events_created c + events_skipped c + errors c)%nat.

(** What handling [n] fetched items does to the counters and to the
    event table: every item is counted at least once, [events_fetched]
    and [rate_limit_hits] are not touched, each created event is one new
    row, and the watermark is advanced at most once per created event. *)
Definition items_counted (n : nat) (st st' : State) : Prop :=
  events_fetched (result st') = events_fetched (result st) /\
  rate_limit_hits (result st') = rate_limit_hits (result st) /\
  (accounted (result st) + n <= accounted (result st'))%nat /\
  (events_created (result st') <= events_created (result st) + n)%nat /\
  (length (events st') + events_created (result st)
   = length (events st) + events_created (result st'))%nat /\
  (series_updated (result st') + events_created (result st)
   <= series_updated (result st) + events_created (result st'))%nat.

(** Handling [n] items with a store that does not fail: each is
    counted once, as created or as skipped, and none as an error. *)
Definition items_exact (n : nat) (st st' : State) : Prop :=
  errors (result st') = errors (result st) /\
  (events_created (result st') + events_skipped (result st')
   = events_created (result st) + events_skipped (result st) + n)%nat.

(** The second storage statement fails, the others go through. *)
Definition flaky_advance_env : Env :=
  mkEnv (Normal (mkDepth 12 false)) (fun _ => Normal []) (fun _ => Normal [])
        (fun k => if Nat.eqb k 1 then Some (JsError StorageUnavailable "connection reset")
                  else None)
        (fun k => 1000 + Z.of_nat k) (fun k => "run-" +:+ pretty (S k)).

(** The release query fails, everything else goes through. *)
Definition query_down_env : Env :=
  mkEnv (Normal (mkDepth 12 false)) (fun _ => Normal [])
        (fun _ => Throw (JsError StorageUnavailable "connection refused"))
        (fun _ => None) (fun k => 1000 + Z.of_nat k) (fun k => "run-" +:+ pretty (S k)).

(** The trace of outside calls is as it was. *)
Definition same_trace (st st' : State) : Prop := trace st' = trace st.

End FeedIngestRun.

(* ===================================================================== *)
(** ** Decimal [parseInt] *)
(* ===================================================================== *)

Module JsParse.

Import Js.

(** Value of one decimal digit. *)
Definition dec_digit (c : ascii) : option Z :=
  let n := Z.of_nat (nat_of_ascii c) in
  if (48 <=? n) && (n <=? 57) then Some (n - 48) else None.

(** Longest prefix of decimal digits, folded left to right; [None] when
    no digit was read. *)
Fixpoint dec_prefix (s : string) (acc : option Z) : option Z :=
  match s with
  | EmptyString => acc
  | String c rest =>
      match dec_digit c with
      | Some d => dec_prefix rest (Some (10 * default 0 acc + d))
      | None => acc
      end
  end.

(** [parseInt(s, 10)]: white space, an optional sign, then the longest
    run of decimal digits; [None] is [NaN].  The result is the integer
    the digits denote; JavaScript rounds it to a double, which agrees
    with it up to 2^53 and which comparisons against bounds below 2^53
    (the callers clamp to at most 10000, or compare with 2^20) cannot
    tell apart from it. *)
Definition parseInt10 (s : string) : option Z :=
  match skip_spaces s with
  | String "-"%char rest => Z.opp <$> dec_prefix rest None
  | String "+"%char rest => dec_prefix rest None
  | t => dec_prefix t None
  end.

End JsParse.

(* ===================================================================== *)
(** ** The chapter listing route around the on-demand sync *)
(* ===================================================================== *)

Module ChaptersRoute.

Import Js JsParse OnDemandSync.

(** [safeParseInt(value, defaultValue, min, max)] *)
Definition safeParseInt (value : option string) (defaultValue min max : Z) : Z :=
  if negb (truthy_ostr value) then defaultValue
  else
    match parseInt10 (default "" value) with
    | None => defaultValue
    | Some parsed => Z.min max (Z.max min parsed)
    end.

(** The paging parameters [GET] reads from the query string;
    [searchParams] is [searchParams.get]. *)
Record Paging : Type := mkPaging {
  page : Z;
  limit : Z
}.

Definition paging_of (searchParams : string -> option string) : Paging :=
  mkPaging (safeParseInt (searchParams "page") 1 1 10000)
           (safeParseInt (searchParams "limit") 50 1 100).

(** [const skip = (page - 1) * limit] of [fetchChapters]. *)
Definition skip_of (p : Paging) : Z := (page p - 1) * limit p.

(** [findMany({ ..., take: limit, skip })] over the rows that match the
    [where] clause, in the order of the [orderBy] clause. *)
Definition window {A : Type} (rows : list A) (p : Paging) : list A :=
  take (Z.to_nat (limit p)) (drop (Z.to_nat (skip_of p)) rows).

(** [Math.ceil(total / limit)] for a positive [limit]. *)
Definition total_pages (total limit : Z) : Z := - ((- total) / limit).

(** One position of [UUID_REGEX]. *)
Inductive CharClass : Type :=
| HexDigit      (* [0-9a-f] under the [i] flag *)
| Dash          (* - *)
| VersionDigit  (* [1-5] *)
| VariantDigit. (* [89ab] under the [i] flag *)

Definition in_class (k : CharClass) (c : ascii) : bool :=
  match k with
  | HexDigit => bool_decide (is_Some (hex_digit c))
  | Dash => Ascii.eqb c "-"%char
  | VersionDigit =>
      let n := nat_of_ascii c in Nat.leb 49 n && Nat.leb n 53
  | VariantDigit =>
      existsb (Ascii.eqb c) ["8"; "9"; "a"; "b"; "A"; "B"]%char
  end.

(** [^[0-9a-f]{8}-[0-9a-f]{4}-[1-5][0-9a-f]{3}-[89ab][0-9a-f]{3}-[0-9a-f]{12}$] *)
Definition UUID_PATTERN : list CharClass :=
  (replicate 8 HexDigit ++ [Dash] ++ replicate 4 HexDigit ++ [Dash] ++
   [VersionDigit] ++ replicate 3 HexDigit ++ [Dash] ++
   [VariantDigit] ++ replicate 3 HexDigit ++ [Dash] ++ replicate 12 HexDigit)%list.

(** A string matches a sequence of classes from its first to its last
    character. *)
Fixpoint matches (p : list CharClass) (s : string) : bool :=
  match p, s with
  | [], EmptyString => true
  | k :: p', String c s' => in_class k c && matches p' s'
  | _, _ => false
  end.

(** [UUID_REGEX.test(seriesId)] *)
Definition UUID_REGEX_test (seriesId : string) : bool := matches UUID_PATTERN seriesId.


End ChaptersRoute.

(* ===================================================================== *)
(** ** The on-demand sync, case by case *)
(* ===================================================================== *)

Module OnDemandSyncCases.
Import Js Eff OnDemandSync.

(** What the placeholder test of the guarded section reads: the titles
    of all chapters of the series, soft-deleted ones included. *)
Definition all_titles (sid : string) (d : Db) : list (option string) :=
  List.map chapter_title (List.filter (fun c => String.eqb (ch_series_id c) sid) (chapters d)).

(** The source the guarded section syncs from: a bound one, or the
    one it binds from the MangaDex id of the series when none is bound. *)
Definition sync_source_of (sid : string) (s : SeriesRow) (bound : list SeriesSource)
  : option SeriesSource :=
  match pick_source (List.filter (fun x => String.eqb (ss_series_id x) sid) bound) with
  | Some x => Some x
  | None =>
      if truthy_ostr (mangadex_id s)
      then Some (mkSource sid "mangadex" (default "" (mangadex_id s)))
      else None
  end.

(** The three seeded placeholders with a detail row for the first, next to a
    soft-deleted chapter that carries a real title. *)
Definition haunted_world : World :=
  mkWorld (mkDb [mkSeries demo_series "Title" (Some "md-1")]
                [mkSource demo_series "mangadex" "md-1"]
                [mkChapter "p1" demo_series (Some "The Beginning") None;
                 mkChapter "p2" demo_series (Some "The Journey") None;
                 mkChapter "p3" demo_series (Some "New Discovery") None;
                 mkChapter "old" demo_series (Some "Chapter 1") (Some 5)]
                [mkChapterSource "p1"]) ∅ [] [] [].

End OnDemandSyncCases.

(* ===================================================================== *)
(** ** Alert handlers *)
(* ===================================================================== *)

Module AlertingCases.
Import Js Eff Alerting.

(** What a handler threw for an alert, if it threw. *)
Definition thrown_by (alert : DLQAlert) (h : AlertHandler) : option Thrown :=
  match h alert with
  | Throw e => Some e
  | Normal _ => None
  end.

(** Two handlers, the first of which always throws. *)
Definition noisy_service : Service :=
  mkService [fun _ => Throw (JsNonError "webhook down"); fun _ => Normal tt] ∅ [] [] [] [].

Definition demo_alert : DLQAlert :=
  mkAlert source_failure (Some "mangadex") 7 "source keeps failing" 1000 error.

End AlertingCases.

(* ===================================================================== *)
(** ** The error monitor *)
(* ===================================================================== *)

Module Monitoring.

Import Js.

(** [MonitoringConfig]; every field is optional.  A [sampleRate] that
    is [NaN] is falsy like a missing one and is not told apart here. *)
Record MonitoringConfig : Type := mkConfig {
  dsn : option string;
  environment : option string;
  release : option string;
  sampleRate : option Q;
  enabled : option bool
}.

(** [Partial<MonitoringConfig>]: a key is absent ([None]) or present,
    and a present key may hold [undefined] ([Some None]). *)
Record Overrides : Type := mkOverrides {
  o_dsn : option (option string);
  o_environment : option (option string);
  o_release : option (option string);
  o_sampleRate : option (option Q);
  o_enabled : option (option bool)
}.

Definition no_overrides : Overrides := mkOverrides None None None None None.

(** One key of [{ ...this.config, ...overrides }]. *)
Definition spread {A : Type} (base : option A) (over : option (option A)) : option A :=
  match over with
  | Some v => v
  | None => base
  end.

Definition merge (c : MonitoringConfig) (o : Overrides) : MonitoringConfig :=
  mkConfig (spread (dsn c) (o_dsn o)) (spread (environment c) (o_environment o))
           (spread (release c) (o_release o)) (spread (sampleRate c) (o_sampleRate o))
           (spread (enabled c) (o_enabled o)).

(** An [Error], as far as the monitor reads it. *)
Record ErrorInfo : Type := mkError {
  err_name : string;
  err_message : string
}.

(** An [ErrorContext], as far as the monitor reads it. *)
Record ErrorContext : Type := mkContext {
  requestId : option string;
  userId : option string;
  path : option string
}.

(** What the monitor prints: the fields of a captured exception, and the
    level and text of a captured message (the line shows the level in
    upper case; the record keeps the level as it was passed). *)
Inductive ConsoleLine : Type :=
| CapturedException (name message : string) (requestId userId path : option string)
| CapturedMessage (level message : string).

(** The [ErrorMonitoring] instance: its three private fields, the
    console, and the number of [Math.random()] draws made so far. *)
Record ErrorMonitoring : Type := mkMonitoring {
  config : MonitoringConfig;
  isInitialized : bool;
  queue : list (ErrorInfo * option ErrorContext);
  console : list ConsoleLine;
  draws : nat
}.

(** The field initializers of the class, from the environment
    variables they read. *)
Definition new_monitoring (SENTRY_DSN NEXT_PUBLIC_SENTRY_DSN NODE_ENV NEXT_PUBLIC_APP_VERSION
                             : option string) : ErrorMonitoring :=
  mkMonitoring
    (mkConfig (if truthy_ostr SENTRY_DSN then SENTRY_DSN else NEXT_PUBLIC_SENTRY_DSN)
              NODE_ENV NEXT_PUBLIC_APP_VERSION (Some 1%Q)
              (Some (bool_decide (NODE_ENV = Some "production"))))
    false [] [] 0.

(** [!this.config.dsn || !this.config.enabled] *)
Definition reporting_off (c : MonitoringConfig) : bool :=
  negb (truthy_ostr (dsn c)) || negb (default false (enabled c)).

(** [this.config.sampleRate && x > this.config.sampleRate], for the
    draw [x] of [Math.random()]. *)
Definition sampled_out (c : MonitoringConfig) (x : Q) : bool :=
  match sampleRate c with
  | Some r => negb (Qeq_bool r 0) && negb (Qle_bool x r)
  | None => false
  end.

(** Whether the sampling test draws a random number at all. *)
Definition draws_sample (c : MonitoringConfig) : bool :=
  match sampleRate c with
  | Some r => negb (Qeq_bool r 0)
  | None => false
  end.

(** The line [captureException] prints. *)
Definition line_of (item : ErrorInfo * option ErrorContext) : ConsoleLine :=
  CapturedException (err_name (fst item)) (err_message (fst item))
                    (snd item ≫= requestId) (snd item ≫= userId) (snd item ≫= path).

Section Random.

(** [random k] is the [k]-th result of [Math.random()]. *)
Variable random : nat -> Q.

Definition captureException (error : ErrorInfo) (context : option ErrorContext)
    (m : ErrorMonitoring) : ErrorMonitoring :=
  if negb (isInitialized m)
  then mkMonitoring (config m) (isInitialized m) (queue m ++ [(error, context)])
                    (console m) (draws m)
  else if reporting_off (config m) then m
  else
    let m' := mkMonitoring (config m) (isInitialized m) (queue m) (console m)
                           (if draws_sample (config m) then S (draws m) else draws m) in
    if sampled_out (config m) (random (draws m)) then m'
    else mkMonitoring (config m') (isInitialized m') (queue m')
                      (console m' ++ [line_of (error, context)]) (draws m').

(** [processQueue]: [while (this.queue.length > 0)], run for at most
    [fuel] rounds. *)
Fixpoint processQueue (fuel : nat) (m : ErrorMonitoring) : ErrorMonitoring :=
  match fuel with
  | O => m
  | S fuel' =>
      match queue m with
      | [] => m
      | item :: rest =>
          processQueue fuel'
            (captureException (fst item) (snd item)
               (mkMonitoring (config m) (isInitialized m) rest (console m) (draws m)))
      end
  end.

(** [init(overrides)].  The loop of [processQueue] runs with
    [isInitialized] set, so no round adds to the queue and one round
    per queued item is enough. *)
Definition init (overrides : Overrides) (m : ErrorMonitoring) : ErrorMonitoring :=
  if isInitialized m then m
  else
    let c := merge (config m) overrides in
    if reporting_off c
    then mkMonitoring c true (queue m) (console m) (draws m)
    else processQueue (length (queue m))
           (mkMonitoring c true (queue m) (console m) (draws m)).

(** [captureMessage(message, level = 'info')] *)
Definition captureMessage (message : string) (level : option string) (m : ErrorMonitoring)
  : ErrorMonitoring :=
  if reporting_off (config m) then m
  else mkMonitoring (config m) (isInitialized m) (queue m)
         (console m ++ [CapturedMessage (default "info" level) message]) (draws m).

(** The calls a program makes on the monitor. *)
Inductive Call : Type :=
| CallInit (overrides : Overrides)
| CallCaptureException (error : ErrorInfo) (context : option ErrorContext)
| CallCaptureMessage (message : string) (level : option string).

Definition call (m : ErrorMonitoring) (c : Call) : ErrorMonitoring :=
  match c with
  | CallInit o => init o m
  | CallCaptureException e ctx => captureException e ctx m
  | CallCaptureMessage msg lvl => captureMessage msg lvl m
  end.

Definition run_calls (cs : list Call) (m : ErrorMonitoring) : ErrorMonitoring :=
  fold_left call cs m.

End Random.

(** Sampling lets everything through: no rate, a rate of zero, or a
    rate no draw exceeds. *)
Definition keeps_all (random : nat -> Q) (c : MonitoringConfig) : Prop :=
  forall k, sampled_out c (random k) = false.

End Monitoring.

(* ===================================================================== *)
(** ** Requests passing the rate limiter *)
(* ===================================================================== *)

Module RateLimitTraffic.
Import Js RateLimit.

(** The answer of [checkRateLimit] to one request of the middleware,
    with the store it leaves. *)
Definition answer (s : BoundedRateLimitStore) (r : Request)
  : RateLimitResult * BoundedRateLimitStore :=
  checkRateLimit (rq_t0 r) (rq_now r) (rq_t1 r) (rate_key (rq_tier r) (rq_ip r))
                 (rq_limit r) (rq_window r) s.

(** The answers to a sequence of requests, served one after the other. *)
Fixpoint answers (rs : list Request) (s : BoundedRateLimitStore) : list RateLimitResult :=
  match rs with
  | [] => []
  | r :: rest => fst (answer s r) :: answers rest (snd (answer s r))
  end.

(** A later request of the client of [r0], inside the window that [r0]
    opened: same tier, address, limit and window, and clock readings
    that have not passed the reset time. *)
Definition same_window (r0 r : Request) : Prop :=
  rq_tier r = rq_tier r0 /\ rq_ip r = rq_ip r0 /\
  rq_limit r = rq_limit r0 /\ rq_window r = rq_window r0 /\
  rq_t0 r <= rq_now r0 + rq_window r0 /\ rq_now r <= rq_now r0 + rq_window r0.

(** A store of capacity two whose oldest entry sits under the empty
    key. *)
Definition empty_key_store : BoundedRateLimitStore :=
  mkStore [("", mkEntry 1 100); ("public:10.0.0.1", mkEntry 1 200)] 2 0.

(** A store of capacity two that is full. *)
Definition crowded_store : BoundedRateLimitStore :=
  mkStore [("auth:10.0.0.9", mkEntry 1 100); ("public:10.0.0.1", mkEntry 1 200)] 2 0.

End RateLimitTraffic.

(* ===================================================================== *)
(** ** The middleware around the rate limiter *)
(* ===================================================================== *)

Module Middleware.

Import Js JsParse RateLimit.

Definition MAX_REQUEST_BODY_SIZE : Z := 1024 * 1024.

(** A [NextRequest], as far as the middleware and [updateSession] read
    it; [header] is [request.headers.get]. *)
Record NextRequest : Type := mkNextRequest {
  pathname : string;
  method : string;
  header : string -> option string
}.

(** What a response carries besides its status and headers. *)
Inductive Body : Type :=
| NoBody                                            (* new NextResponse(null, ...) *)
| PassOn                                            (* NextResponse.next({ request }) *)
| Unauthorized (auth_timeout : bool)                (* { error: 'unauthorized', ... } *)
| RedirectTo (url : string)                         (* NextResponse.redirect(url) *)
| PayloadTooLarge (maxSize : Z) (requestId : string)
| RateLimited (retryAfter : Z) (requestId : string).

(** A [NextResponse].  Header names are case-insensitive; they are kept
    in lower case. *)
Record NextResponse : Type := mkResponse {
  status : Z;
  body : Body;
  headers : gmap string string
}.

Definition set_header (name value : string) (r : NextResponse) : NextResponse :=
  mkResponse (status r) (body r) (<[name := value]> (headers r)).

(** What the deployment fixes: the name of the request-id header
    (imported, in lower case), two environment variables, and the login
    URL cloned from the URL of a request, with or without the time-out
    reason. *)
Record Env : Type := mkEnv {
  REQUEST_ID_HEADER : string;
  NEXT_PUBLIC_SITE_URL : option string;
  production : bool;
  login_url : NextRequest -> bool -> string
}.

(** How the race between [supabase.auth.getUser()] and the timer ends. *)
Inductive AuthOutcome : Type :=
| AuthAnswered (user : option string)
| AuthTimedOut
| AuthThrew (err : Thrown).

(** What the outside answers during one request: the auth race, the
    headers [NextResponse.next] comes with once the session cookies are
    set, the id [generateRequestId] would make up, and the clock
    readings of [checkRateLimit] and of the [Retry-After] computation. *)
Record Outside : Type := mkOutside {
  auth : AuthOutcome;
  next_headers : gmap string string;
  generated_id : string;
  clock_cleanup : Z;
  clock_check : Z;
  clock_set : Z;
  clock_retry : Z
}.

(** [pathname.startsWith(prefix)] *)
Definition startsWith (s prefix : string) : bool := String.prefix prefix s.

(** *** [updateSession] *)

Definition publicPaths : list string :=
  ["/login"; "/register"; "/forgot-password"; "/reset-password"; "/auth";
   "/onboarding"; "/browse"; "/series"; "/dmca"].

Definition publicApiPaths : list string :=
  ["/api/health"; "/api/auth/check-username"; "/api/auth/lockout"; "/api/proxy/image";
   "/api/proxy/check-url"; "/api/series/"; "/api/dmca"].

Definition user_of (a : AuthOutcome) : option string :=
  match a with
  | AuthAnswered u => u
  | AuthTimedOut | AuthThrew _ => None
  end.

Definition timed_out (a : AuthOutcome) : bool :=
  match a with
  | AuthTimedOut => true
  | _ => false
  end.

(** [updateSession]: the response and the user. *)
Definition updateSession (env : Env) (out : Outside) (request : NextRequest)
  : NextResponse * option string :=
  let supabaseResponse := mkResponse 200 PassOn (next_headers out) in
  let user := user_of (auth out) in
  let authTimedOut := timed_out (auth out) in
  let isPublicPath := existsb (startsWith (pathname request)) publicPaths in
  let isPublicApiPath := existsb (startsWith (pathname request)) publicApiPaths in
  let isApiPath := startsWith (pathname request) "/api" in
  match user with
  | None =>
      if isApiPath && negb isPublicApiPath
      then (mkResponse 401 (Unauthorized authTimedOut)
              (if authTimedOut
               then <["x-auth-degraded" := "timeout"]> {["content-type" := "application/json"]}
               else {["content-type" := "application/json"]}),
            None)
      else if negb isPublicPath && negb isPublicApiPath &&
              negb (String.eqb (pathname request) "/")
      then (mkResponse 307 (RedirectTo (login_url env request authTimedOut))
              {["location" := login_url env request authTimedOut]},
            None)
      else (supabaseResponse, user)
  | Some _ => (supabaseResponse, user)
  end.

(** *** Headers *)

Definition CONTENT_SECURITY_POLICY : string :=
  "default-src 'self'; script-src 'self' 'unsafe-inline' 'unsafe-eval' https://*.supabase.co; style-src 'self' 'unsafe-inline'; img-src 'self' blob: data: https://*.supabase.co https://*.unsplash.com https://*.mangadex.org https://*.mangapark.net https://*.mangasee123.com https://*.manga4life.com https://uploads.mangadex.org; font-src 'self' data:; connect-src 'self' https://*.supabase.co wss://*.supabase.co https://*.mangadex.org https://*.orchids.cloud https://orchids.cloud https://*.vercel.app; worker-src 'self' blob:; frame-src 'none'; frame-ancestors 'none'; upgrade-insecure-requests;".

Definition setSecurityHeaders (env : Env) (requestId : string) (response : NextResponse)
  : NextResponse :=
  let r :=
    set_header "content-security-policy" CONTENT_SECURITY_POLICY
      (set_header "permissions-policy"
         "camera=(), microphone=(), geolocation=(), interest-cohort=(), payment=()"
         (set_header "referrer-policy" "strict-origin-when-cross-origin"
            (set_header "x-permitted-cross-domain-policies" "none"
               (set_header "x-xss-protection" "1; mode=block"
                  (set_header "x-content-type-options" "nosniff"
                     (set_header "x-frame-options" "DENY"
                        (set_header (REQUEST_ID_HEADER env) requestId response))))))) in
  if production env
  then set_header "strict-transport-security" "max-age=31536000; includeSubDomains" r
  else r.

(** One piece of the regular expression an allowed origin with a star
    in it is turned into. *)
Inductive Piece : Type :=
| AnyRun            (* .* : what a star became *)
| AnyChar           (* . : a period of the origin, left unescaped *)
| Literal (c : ascii).

(** [allowed.replace(/\*/g, '.*')] read as a regular expression.  Of
    the characters that are special in one, the period and the star are
    told apart; this covers the built-in origins and a site URL written
    with letters, digits, [:], [/], [-], [.] and [*]. *)
Fixpoint pieces (allowed : string) : list Piece :=
  match allowed with
  | EmptyString => []
  | String c rest =>
      (if Ascii.eqb c "*"%char then AnyRun
       else if Ascii.eqb c "."%char then AnyChar
       else Literal c) :: pieces rest
  end.

(** What a period of a regular expression matches: any character but a
    line terminator. *)
Definition dot_matches (c : ascii) : bool :=
  negb (Ascii.eqb c "010"%char) && negb (Ascii.eqb c "013"%char).

(** [new RegExp('^' + ... + '$').test(origin)] *)
Fixpoint regex_test (p : list Piece) : string -> bool :=
  match p with
  | [] => fun s => String.eqb s ""
  | Literal c :: p' =>
      fun s => match s with
               | String d s' => Ascii.eqb c d && regex_test p' s'
               | EmptyString => false
               end
  | AnyChar :: p' =>
      fun s => match s with
               | String d s' => dot_matches d && regex_test p' s'
               | EmptyString => false
               end
  | AnyRun :: p' =>
      fix run (s : string) : bool :=
        regex_test p' s ||
        match s with
        | String d s' => dot_matches d && run s'
        | EmptyString => false
        end
  end.

(** The callback of [allowedOrigins.some(...)]. *)
Definition origin_allowed (origin allowed : string) : bool :=
  if includes allowed "*"
  then regex_test (pieces allowed) origin
  else String.eqb allowed origin.

(** [[process.env.NEXT_PUBLIC_SITE_URL, ...].filter(Boolean)] *)
Definition allowedOrigins (env : Env) : list string :=
  ((if truthy_ostr (NEXT_PUBLIC_SITE_URL env)
    then [default "" (NEXT_PUBLIC_SITE_URL env)] else []) ++
   ["https://orchids.cloud"; "https://*.orchids.cloud"])%list.

Definition setCorsHeaders (env : Env) (request : NextRequest) (response : NextResponse)
  : NextResponse :=
  let origin := header request "origin" in
  let r :=
    if truthy_ostr origin && existsb (origin_allowed (default "" origin)) (allowedOrigins env)
    then set_header "access-control-allow-credentials" "true"
           (set_header "access-control-allow-origin" (default "" origin) response)
    else response in
  set_header "access-control-max-age" "86400"
    (set_header "access-control-allow-headers"
       "Content-Type, Authorization, X-CSRF-Token, X-Request-ID"
       (set_header "access-control-allow-methods" "GET, POST, PUT, PATCH, DELETE, OPTIONS" r)).

(** *** The middleware *)

(** [s.split(',')[0]] *)
Fixpoint before_comma (s : string) : string :=
  match s with
  | EmptyString => EmptyString
  | String c rest => if Ascii.eqb c ","%char then EmptyString else String c (before_comma rest)
  end.

(** [x-real-ip || x-forwarded-for?.split(',')[0] || "127.0.0.1"] *)
Definition client_ip (request : NextRequest) : string :=
  if truthy_ostr (header request "x-real-ip")
  then default "" (header request "x-real-ip")
  else or_str (before_comma <$> header request "x-forwarded-for") "127.0.0.1".

(** The tier and limit of a request that reaches the limiter. *)
Definition tier_of (request : NextRequest) (user : option string) : string * Z :=
  if startsWith (pathname request) "/api/auth" then ("auth", 10)
  else match user with
       | Some _ => ("authenticated", 120)
       | None => ("public", 30)
       end.

(** [Math.max(1, Math.ceil((reset - now) / 1000))] *)
Definition retry_after (reset now : Z) : Z := Z.max 1 (- ((- (reset - now)) / 1000)).

(** [contentLength > MAX_REQUEST_BODY_SIZE], false for [NaN]. *)
Definition body_too_large (request : NextRequest) : bool :=
  match parseInt10 (or_str (header request "content-length") "0") with
  | Some n => MAX_REQUEST_BODY_SIZE <? n
  | None => false
  end.

Definition too_large_response (env : Env) (requestId : string) : NextResponse :=
  mkResponse 413 (PayloadTooLarge MAX_REQUEST_BODY_SIZE requestId)
    (<[REQUEST_ID_HEADER env := requestId]> {["content-type" := "application/json"]}).

Definition rate_limited_response (env : Env) (requestId : string) (rl : RateLimitResult)
    (retryAfter : Z) : NextResponse :=
  mkResponse 429 (RateLimited retryAfter requestId)
    (<[REQUEST_ID_HEADER env := requestId]>
       (<["retry-after" := pretty retryAfter]>
          (<["x-ratelimit-reset" := pretty (reset rl)]>
             (<["x-ratelimit-remaining" := "0"]>
                (<["x-ratelimit-limit" := pretty (rl_limit rl)]>
                   {["content-type" := "application/json"]}))))).

(** [middleware]: the response, and the store of the limiter after it. *)
Definition middleware (env : Env) (out : Outside) (request : NextRequest)
    (store : BoundedRateLimitStore) : NextResponse * BoundedRateLimitStore :=
  let requestId := or_str (header request (REQUEST_ID_HEADER env)) (generated_id out) in
  if startsWith (pathname request) "/api" && String.eqb (method request) "OPTIONS"
  then (setSecurityHeaders env requestId
          (setCorsHeaders env request (mkResponse 204 NoBody ∅)), store)
  else
    let '(response, user) := updateSession env out request in
    if negb (status response =? 200) || truthy_ostr (headers response !! "location")
    then (setSecurityHeaders env requestId response, store)
    else if startsWith (pathname request) "/api"
    then
      let response := setCorsHeaders env request response in
      if body_too_large request
      then (too_large_response env requestId, store)
      else
        let '(tier, limit) := tier_of request user in
        let '(rl, store') :=
          checkRateLimit (clock_cleanup out) (clock_check out) (clock_set out)
                         (rate_key tier (client_ip request)) limit 60000 store in
        let response :=
          set_header "x-ratelimit-reset" (pretty (reset rl))
            (set_header "x-ratelimit-remaining" (pretty (remaining rl))
               (set_header "x-ratelimit-limit" (pretty (rl_limit rl)) response)) in
        if negb (allowed rl)
        then (rate_limited_response env requestId rl (retry_after (reset rl) (clock_retry out)),
              store')
        else (setSecurityHeaders env requestId response, store')
    else (setSecurityHeaders env requestId response, store).

(** A request that the session check lets through to the limiter. *)
Definition reaches_limiter (out : Outside) (request : NextRequest) : bool :=
  startsWith (pathname request) "/api" &&
  negb (String.eqb (method request) "OPTIONS") &&
  (bool_decide (is_Some (user_of (auth out))) ||
   existsb (startsWith (pathname request)) publicApiPaths) &&
  negb (body_too_large request).

(** A string without line terminators. *)
Fixpoint one_line (s : string) : bool :=
  match s with
  | EmptyString => true
  | String c rest => dot_matches c && one_line rest
  end.

(** *** Sample inputs *)

Definition demo_env : Env :=
  mkEnv "x-request-id" None true (fun _ _ => "https://mangatrack.example/login").

(** An anonymous visitor whose auth call was answered in time. *)
Definition anonymous : Outside :=
  mkOutside (AuthAnswered None) ∅ "K3J9X2ABLZ0" 1000 1000 1000 1500.

(** A listing request for the chapters of a series, from another
    origin. *)
Definition listing_request (origin : string) : NextRequest :=
  mkNextRequest "/api/series/1a2b3c4d-0000-4000-8000-000000000001/chapters" "GET"
    (fun name =>
       if String.eqb name "origin" then Some origin
       else if String.eqb name "x-real-ip" then Some "10.0.0.1"
       else None).

(** The visitor has used up the thirty requests of the public tier. *)
Definition spent_store : BoundedRateLimitStore :=
  mkStore [("public:10.0.0.1", mkEntry 30 60000)] 10000 0.

End Middleware.

(* ===================================================================== *)
(** * Properties *)
(* ===================================================================== *)

(** ** The watermark and the ingest runs *)

Module FeedIngestFacts.

Import Js Eff FeedIngest.

Lemma find_series_id (id : string) (tbl : list SeriesRow) (r : SeriesRow) :
  find_series id tbl = Some r -> series_id r = id.
Proof.
  unfold find_series. intros H. apply List.find_some in H as [_ H].
  by apply String.eqb_eq.
Qed.

Lemma update_row_id (id : string) (t : Z) (r : SeriesRow) :
  series_id (update_row id t r) = series_id r.
Proof. unfold update_row. by case_match. Qed.

Lemma update_row_deleted (id : string) (t : Z) (r : SeriesRow) :
  deleted_at (update_row id t r) = deleted_at r.
Proof. unfold update_row. by case_match. Qed.

Lemma find_series_map (id : string) (t : Z) (tbl : list SeriesRow) :
  find_series id (List.map (update_row id t) tbl) = update_row id t <$> find_series id tbl.
Proof.
  unfold find_series. induction tbl as [|r tbl IH]; [done|].
  cbn [List.map List.find]. rewrite update_row_id.
  destruct (String.eqb (series_id r) id); [done | apply IH].
Qed.

(** The watermark a live row carries after the [UPDATE]. *)
Lemma update_row_live (id : string) (t : Z) (r : SeriesRow) :
  series_id r = id -> deleted_at r = None ->
  last_chapter_released_at (update_row id t r) = Some (greatest (last_chapter_released_at r) t).
Proof.
  intros Hid Hd. unfold update_row. rewrite Hid, String.eqb_refl, Hd.
  by rewrite bool_decide_eq_true_2.
Qed.

Lemma update_row_deleted_noop (id : string) (t : Z) (r : SeriesRow) :
  deleted_at r <> None -> update_row id t r = r.
Proof.
  intros Hd. unfold update_row. rewrite bool_decide_eq_false_2 by done.
  by rewrite andb_false_r.
Qed.

Lemma wm_le_refl (a : option Z) : wm_le a a.
Proof. destruct a; simpl; [lia | done]. Qed.

Lemma wm_le_trans (a b c : option Z) : wm_le a b -> wm_le b c -> wm_le a c.
Proof. destruct a, b, c; simpl; try done; lia. Qed.

Lemma wm_le_greatest (a : option Z) (t : Z) : wm_le a (Some (greatest a t)).
Proof. unfold greatest. destruct a; simpl; [lia | done]. Qed.

Lemma wm_le_greatest_r (a w : option Z) (t : Z) :
  wm_le a w -> wm_le a (Some (greatest w t)).
Proof. unfold greatest. destruct a, w; simpl; try done; lia. Qed.

Lemma update_row_grows (id : string) (t : Z) (r : SeriesRow) :
  wm_le (last_chapter_released_at r) (last_chapter_released_at (update_row id t r)).
Proof.
  unfold update_row. case_match; simpl; [apply wm_le_greatest | apply wm_le_refl].
Qed.

Create HintDb watermark.

#[local] Hint Resolve wm_le_refl wm_le_greatest wm_le_greatest_r update_row_grows : watermark.

Lemma max_of_base (b : Z) (ts : list Z) : b <= max_of b ts.
Proof. induction ts as [|t ts IH]; simpl; lia. Qed.

Lemma max_of_elem (b t : Z) (ts : list Z) : In t ts -> t <= max_of b ts.
Proof.
  induction ts as [|u ts IH]; simpl; [done|].
  intros [->|H]; [lia | specialize (IH H); lia].
Qed.

Lemma max_of_least (b B : Z) (ts : list Z) :
  b <= B -> (forall t, In t ts -> t <= B) -> max_of b ts <= B.
Proof.
  intros Hb. induction ts as [|u ts IH]; simpl; intros H; [done|].
  apply Z.max_lub; [apply H; by left | apply IH; intros; apply H; by right].
Qed.

Lemma candidate_insert (i : nat) (a b : Advance) (l : list Advance) :
  l !! i = Some a -> candidate b = candidate a ->
  candidate <$> <[i := b]> l = candidate <$> l.
Proof.
  intros Hl Hc. rewrite list_fmap_insert, Hc.
  apply list_insert_id. by rewrite list_lookup_fmap, Hl.
Qed.

(** *** Interleaved advances for one series *)

Section Interleaving.

Variable id : string.

Lemma adv_inv_start (tbl : list SeriesRow) (r0 : SeriesRow) (ts : list Z) :
  find_series id tbl = Some r0 -> adv_inv id r0 ts (start tbl ts).
Proof.
  intros Hf. split.
  - unfold start; simpl. change (List.map ?f ?l) with (f <$> l).
    rewrite <- list_fmap_compose. simpl. induction ts as [|t ts IH]; [done|].
    simpl. by f_equal.
  - exists r0. split; [done|]. split; [done|]. split; [auto with watermark|].
    split; [done|]. split; [lia|]. split; [apply max_of_base|].
    intros i a. unfold start; simpl. change (List.map ?f ?l) with (f <$> l).
      rewrite list_lookup_fmap. destruct (ts !! i); simpl; [|done].
      intros [= <-]. done.
Qed.

Lemma adv_inv_step (r0 : SeriesRow) (ts : list Z) (sys : System) (i : nat) :
  adv_inv id r0 ts sys -> adv_inv id r0 ts (advance_step id i sys).
Proof.
  intros (Hc & r & Hf & Hd & Hle & Hdel & Hlo & Hhi & Hph).
  unfold advance_step. destruct (advances sys !! i) as [a|] eqn:Hi.
  2:{ split; [done|]. exists r. done. }
  destruct (phase a) as [|s|] eqn:Hp.
  - rewrite Hf. split; simpl.
    + rewrite <- Hc. by apply candidate_insert with a.
    + exists r. repeat split; try done.
      intros j b Hj. apply list_lookup_insert_Some in Hj as [(-> & <- & _)|(Hne & Hj)].
      * simpl. apply wm_le_refl.
      * exact (Hph j b Hj).
  - pose proof (Hph i a Hi) as Hs. rewrite Hp in Hs.
    assert (Hin : In (candidate a) ts).
    { rewrite <- Hc. apply list_elem_of_In, list_elem_of_lookup. exists i.
      by rewrite list_lookup_fmap, Hi. }
    pose proof (find_series_id _ _ _ Hf) as Hid.
    split; simpl.
    + rewrite <- Hc. by apply candidate_insert with a.
    + destruct (shouldUpdate s (candidate a)) eqn:Hsu.
      * exists (update_row id (candidate a) r).
        rewrite find_series_map, Hf. split; [done|].
        rewrite update_row_deleted. split; [done|].
        pose proof (update_row_grows id (candidate a) r) as Hg.
        split; [by eapply wm_le_trans|].
        split. { intros Hnd. rewrite update_row_deleted_noop by congruence. auto. }
        destruct (decide (deleted_at r0 = None)) as [Hl|Hl].
        -- rewrite update_row_live by congruence.
           pose proof (max_of_elem (default 0 (last_chapter_released_at r0)) _ _ Hin).
           split; [simpl; unfold greatest; lia|].
           split; [simpl; unfold greatest; lia|].
           intros j b Hj. apply list_lookup_insert_Some in Hj as [(-> & <- & _)|(Hne & Hj)].
           ++ simpl. intros _. unfold greatest. lia.
           ++ pose proof (Hph j b Hj) as Hb. destruct (phase b); [done| |].
              ** exact (wm_le_greatest_r _ _ _ Hb).
              ** intros H'. exact (wm_le_greatest_r _ _ _ (Hb H')).
        -- rewrite update_row_deleted_noop by congruence.
           split; [done|]. split; [done|].
           intros j b Hj. apply list_lookup_insert_Some in Hj as [(-> & <- & _)|(Hne & Hj)].
           ++ simpl. done.
           ++ exact (Hph j b Hj).
      * exists r. repeat split; try done.
        intros j b Hj. apply list_lookup_insert_Some in Hj as [(-> & <- & _)|(Hne & Hj)].
        -- simpl. intros _. unfold shouldUpdate in Hsu. destruct s as [l|]; [|done].
           apply Z.ltb_ge in Hsu.
           apply (wm_le_trans (Some (candidate a)) (Some l)); [simpl; lia | exact Hs].
        -- exact (Hph j b Hj).
  - split; [done|]. exists r. done.
Qed.

Lemma adv_inv_run (r0 : SeriesRow) (ts : list Z) (sched : list nat) (sys : System) :
  adv_inv id r0 ts sys -> adv_inv id r0 ts (run_schedule id sched sys).
Proof.
  revert sys. induction sched as [|i sched IH]; intros sys H; [done|].
  simpl. apply IH. by apply adv_inv_step.
Qed.

Lemma step_table (i : nat) (sys : System) :
  table (advance_step id i sys) = table sys \/
  exists t, table (advance_step id i sys) = List.map (update_row id t) (table sys).
Proof.
  unfold advance_step. destruct (advances sys !! i) as [a|]; [|by left].
  destruct (phase a); [destruct (find_series id (table sys)); by left | | by left].
  simpl. destruct (shouldUpdate _ _); [right; by eexists | by left].
Qed.

Lemma run_grows (sched : list nat) (sys : System) (r : SeriesRow) :
  find_series id (table sys) = Some r ->
  exists r', find_series id (table (run_schedule id sched sys)) = Some r' /\
    wm_le (last_chapter_released_at r) (last_chapter_released_at r').
Proof.
  revert sys r. induction sched as [|i sched IH]; intros sys r Hf.
  - exists r. split; [done | auto with watermark].
  - simpl. destruct (step_table i sys) as [He|[t He]].
    + apply IH. by rewrite He.
    + destruct (IH (advance_step id i sys) (update_row id t r)) as (r' & Hf' & Hle).
      { by rewrite He, find_series_map, Hf. }
      exists r'. split; [done|].
      eapply wm_le_trans; [|exact Hle]. auto with watermark.
Qed.

Lemma step_lookup_ne (i j : nat) (sys : System) :
  i <> j -> advances (advance_step id i sys) !! j = advances sys !! j.
Proof.
  intros Hne. unfold advance_step. destruct (advances sys !! i) as [a|]; [|done].
  destruct (phase a); [destruct (find_series id (table sys))| |]; simpl;
    try done; by rewrite list_lookup_insert_ne.
Qed.

Lemma step_lookup_eq (i : nat) (sys : System) (a : Advance) :
  advances sys !! i = Some a ->
  exists a', advances (advance_step id i sys) !! i = Some a' /\
    (Nat.min 2 (S (rank (phase a))) <= rank (phase a'))%nat.
Proof.
  intros Hi. pose proof (lookup_lt_Some _ _ _ Hi) as Hlt.
  unfold advance_step. rewrite Hi.
  destruct (phase a) eqn:Hp; [destruct (find_series id (table sys))| |]; simpl.
  - eexists. split; [by apply list_lookup_insert_eq|]. simpl. lia.
  - eexists. split; [by apply list_lookup_insert_eq|]. simpl. lia.
  - eexists. split; [by apply list_lookup_insert_eq|]. simpl. lia.
  - exists a. split; [done|]. rewrite Hp. simpl. lia.
Qed.

Lemma run_rank (sched : list nat) (sys : System) (i : nat) (a : Advance) :
  advances sys !! i = Some a ->
  exists a', advances (run_schedule id sched sys) !! i = Some a' /\
    (Nat.min 2 (rank (phase a) + count_occ Nat.eq_dec sched i) <= rank (phase a'))%nat.
Proof.
  revert sys a. induction sched as [|j sched IH]; intros sys a Hi.
  - exists a. split; [done|]. cbn [count_occ]. lia.
  - cbn [run_schedule fold_left count_occ]. destruct (Nat.eq_dec j i) as [->|Hne].
    + destruct (step_lookup_eq i sys a Hi) as (a1 & H1 & Hr1).
      destruct (IH _ _ H1) as (a' & H' & Hr'). exists a'. split; [done|]. lia.
    + apply IH. by rewrite step_lookup_ne.
Qed.

Lemma run_no_advances (sched : list nat) (sys : System) :
  advances sys = [] -> run_schedule id sched sys = sys.
Proof.
  intros He. induction sched as [|i sched IH]; [done|].
  cbn [run_schedule fold_left].
  replace (advance_step id i sys) with sys; [exact IH|].
  unfold advance_step. by rewrite He.
Qed.

End Interleaving.

(** The stale-read test never changes the outcome: whenever the reading
    is not above the stored watermark, skipping the [UPDATE] leaves what
    the [UPDATE] would have written. *)
Lemma stale_gate_harmless (id : string) (t : Z) (snapshot : option Z) (r : SeriesRow) :
  wm_le snapshot (last_chapter_released_at r) ->
  series_id r = id -> deleted_at r = None ->
  last_chapter_released_at (if shouldUpdate snapshot t then update_row id t r else r)
  = last_chapter_released_at (update_row id t r).
Proof.
  intros Hs Hid Hd. destruct (shouldUpdate snapshot t) eqn:Hsu; [done|].
  rewrite update_row_live by done. unfold shouldUpdate in Hsu.
  destruct snapshot as [l|]; [|done]. apply Z.ltb_ge in Hsu.
  destruct (last_chapter_released_at r) as [w|]; simpl in Hs; [|done].
  unfold greatest. simpl. f_equal. lia.
Qed.



Lemma storage_ok {A : Type} (env : Env) (op : State -> Completion A * State) (st : State) :
  storage_fault env (stmt_no st) = None -> storage env op st = op (next_stmt st).
Proof. intros H. unfold storage. by rewrite H. Qed.

Lemma storage_fails {A : Type} (env : Env) (op : State -> Completion A * State) (st : State)
    (e : Thrown) :
  storage_fault env (stmt_no st) = Some e -> storage env op st = (Throw e, next_stmt st).
Proof. intros H. unfold storage. by rewrite H. Qed.

(** The first insert of a key stores one row with that key and counts
    as created, whatever happens to the watermark update after it. *)
Lemma first_persist (env : Env) (row : EventRow) (snap : option Z) (st : State) :
  existsb (same_key row) (events st) = false ->
  storage_fault env (stmt_no st) = None ->
  let st1 := snd (persist_observation env row snap st) in
  events st1 = (events st ++ [row])%list /\
  events_created (result st1) = S (events_created (result st)).
Proof.
  intros Hnew Hok. unfold persist_observation, try_catch, bind, event_create.
  rewrite storage_ok by done. cbn [events next_stmt]. rewrite Hnew.
  cbn. destruct (shouldUpdate snap (ev_discovered_at row)); [|done].
  unfold series_advance, storage. cbn.
  destruct (storage_fault env (S (stmt_no st))) as [e|]; cbn; [|done].
  destruct (is_unique_constraint_error e); done.
Qed.

Lemma same_key_refl (row : EventRow) : same_key row row = true.
Proof. unfold same_key. by rewrite !String.eqb_refl. Qed.

Lemma same_key_filter (row row' : EventRow) (evs : list EventRow) :
  same_key row row' = true ->
  List.filter (same_key row') evs = List.filter (same_key row) evs.
Proof.
  intros H. unfold same_key in H.
  apply andb_prop in H as [H H4]. apply andb_prop in H as [H H3].
  apply andb_prop in H as [H1 H2].
  apply String.eqb_eq in H1, H2, H3, H4.
  induction evs as [|x evs IH]; [done|]. cbn [List.filter].
  rewrite IH. unfold same_key. by rewrite H1, H2, H3, H4.
Qed.

Lemma filter_none {A : Type} (f : A -> bool) (l : list A) :
  existsb f l = false -> List.filter f l = [].
Proof.
  induction l as [|x l IH]; [done|]. cbn. destruct (f x); [done|]. exact IH.
Qed.

Lemma filter_some {A : Type} (f : A -> bool) (l : list A) :
  List.filter f l <> [] -> existsb f l = true.
Proof.
  induction l as [|x l IH]; [done|]. cbn. destruct (f x); [done|]. exact IH.
Qed.

Lemma unique_violation_recognised : is_unique_constraint_error unique_violation = true.
Proof. reflexivity. Qed.

(** Inserting a key that is already stored changes no table, and the
    attempt is counted as skipped. *)
Lemma repeated_persist (env : Env) (row : EventRow) (snap : option Z) (st : State) :
  existsb (same_key row) (events st) = true ->
  storage_fault env (stmt_no st) = None ->
  let st2 := snd (persist_observation env row snap st) in
  events st2 = events st /\ series st2 = series st /\ runs st2 = runs st /\
  result st2 = inc_skipped (result st).
Proof.
  intros Hdup Hok. unfold persist_observation, try_catch, bind, event_create.
  rewrite storage_ok by done. cbn [events next_stmt]. rewrite Hdup.
  rewrite unique_violation_recognised. done.
Qed.




(** C3.  When the backpressure monitor reports [healthy = false], the
    processor returns normally with [paused_due_to_queue_depth = true],
    an empty run id and all counters zero; no table is touched, no
    storage statement is issued and nothing is added to the trace of
    outside calls: no run record, no adapter call. *)
Theorem backpressure_gate :
  forall (env : Env) (job : FeedIngestJobData) (st : State) (depth : Z),
    fst (checkQueueHealth env st) = Normal (false, depth) ->
    exists res st',
      processFeedIngest env job st = (Normal res, st') /\
      paused_due_to_queue_depth res = Some true /\
      counts res = zero_counts /\
      runId res = "" /\
      runs st' = runs st /\ events st' = events st /\ series st' = series st /\
      trace st' = trace st /\ stmt_no st' = stmt_no st /\
      adapter_calls (trace st') = adapter_calls (trace st).
Proof.
  intros env job st depth H. unfold processFeedIngest, bind, date_now.
  unfold checkQueueHealth in *. destruct (getTotalQueueDepth env) as [q|e]; [|done].
  cbn in H. injection H as Hh _. cbn [fst]. rewrite Hh. cbn.
  eexists _, _. split; [reflexivity|]. by repeat split.
Qed.

Lemma backpressure_gate_witness :
  exists res st',
    processFeedIngest overloaded_env (mkJob "mangadex" TierA None) empty_state = (Normal res, st') /\
    paused_due_to_queue_depth res = Some true /\
    runs st' = [] /\ trace st' = [].
Proof.
  destruct (backpressure_gate overloaded_env (mkJob "mangadex" TierA None) empty_state 6000
              eq_refl) as (res & st' & H & Hp & _ & _ & Hr & _ & _ & Ht & _).
  exists res, st'. by repeat split.
Defined.

(** The run row written by [completeIngestRun]. *)
Lemma finalize_row_status (now : Z) (p : PartialCounts) (error : option string) (r : RunRow) :
  run_status (finalize_row now p error r) = (if truthy_ostr error then failed else completed) /\
  run_error_message (finalize_row now p error r) = (if truthy_ostr error then error else None) /\
  run_id (finalize_row now p error r) = run_id r.
Proof. done. Qed.

Lemma updates_of_app (id : string) (a b : list Effect) :
  updates_of id (a ++ b) = (updates_of id a + updates_of id b)%nat.
Proof. unfold updates_of. by rewrite List.filter_app, length_app. Qed.

(** How a healthy run starts: the clock is read, the queue is asked,
    the run row is inserted. *)
Lemma run_prefix (env : Env) (job : FeedIngestJobData) (st : State) (depth : Z) :
  fst (checkQueueHealth env st) = Normal (true, depth) ->
  storage_fault env (stmt_no st) = None ->
  let id := fresh_run_id env (length (runs st)) in
  let st1 := emit (RunInsert id)
               (set_runs (runs st ++ [mkRun id (source job) (tier job) running zero_counts None None 0])
                         (next_stmt (next_tick st))) in
  processFeedIngest env job st =
    try_catch
      (bind (ingest_of env job id)
         (fun res =>
            bind (date_now env) (fun now =>
              let finalResult := mkResult (source job) (tier job) id res
                                          (now - clock env (ticks st)) None in
              bind (completeIngestRun env id (partial_of (counts finalResult)) None)
                   (fun _ => ret finalResult))))
      (fun error =>
         let errorMessage := match error with
                             | JsError _ m => m
                             | JsNonError _ => "Unknown error"
                             end in
         bind (completeIngestRun env id (only_errors 1) (Some errorMessage))
              (fun _ => throw error)) st1.
Proof.
  intros H Hok id st1. unfold processFeedIngest at 1. unfold bind at 1, date_now at 1.
  unfold bind at 1. unfold checkQueueHealth in *.
  destruct (getTotalQueueDepth env) as [q|e]; [|done].
  cbn in H. injection H as Hh _. cbn [fst]. rewrite Hh. cbn [negb].
  unfold bind at 1. unfold createIngestRun. rewrite storage_ok by done. reflexivity.
Qed.

Lemma finalized_rows (id : string) (f : RunRow -> RunRow) (rows : list RunRow) (r : RunRow) :
  (forall x, run_id (f x) = run_id x) ->
  In r (List.map (fun x => if String.eqb (run_id x) id then f x else x) rows) ->
  run_id r = id -> exists x, In x rows /\ run_id x = id /\ r = f x.
Proof.
  intros Hf Hin Hid. apply in_map_iff in Hin as (x & Hx & Hin).
  destruct (String.eqb (run_id x) id) eqn:E.
  - apply String.eqb_eq in E. by exists x.
  - apply String.eqb_neq in E. subst r. done.
Qed.

Lemma complete_ok (env : Env) (id : string) (p : PartialCounts) (error : option string)
    (st : State) :
  storage_fault env (stmt_no st) = None ->
  existsb (fun r => String.eqb (run_id r) id) (runs st) = true ->
  completeIngestRun env id p error st =
    (Normal tt,
     emit (RunUpdate id (if truthy_ostr error then failed else completed))
       (set_runs (List.map (fun r => if String.eqb (run_id r) id
                                     then finalize_row (clock env (ticks st)) p error r else r)
                           (runs st))
                 (next_stmt (next_tick st)))).
Proof.
  intros Hok Hex. unfold completeIngestRun, bind, date_now. rewrite storage_ok by done.
  cbn [runs next_stmt next_tick]. by rewrite Hex.
Qed.

(** The finalizing update of a run whose row was inserted at the start
    of the run and whose storage statement [Hok] goes through. *)
Ltac finalize_run Hok :=
  unfold bind at 1; rewrite complete_ok;
  [ | exact Hok
    | cbn; rewrite existsb_app; cbn; by rewrite String.eqb_refl, orb_true_r ].

(** A row with the id of the run is one that [completeIngestRun] wrote. *)
Ltac finalized_row Hin :=
  apply finalized_rows in Hin as (? & _ & _ & ->); [ | done | done].

Lemma updates_of_run (id : string) (tr mid : list Effect) (status : RunStatus) :
  updates_of id mid = 0%nat ->
  updates_of id (tr ++ mid ++ [RunUpdate id status]) = S (updates_of id tr).
Proof.
  intros Hmid. rewrite !updates_of_app, Hmid. unfold updates_of at 2. cbn.
  rewrite String.eqb_refl. cbn. lia.
Qed.



(** What the processor does when the MangaDex adapter call fails with
    anything but a rate-limit error: the error is thrown again, and the
    run row is updated once, as [failed] with the captured message when
    that message is a non-empty string, and as [completed] without a
    message when it is empty. *)
Lemma escaping_error_finalization (env : Env) (job : FeedIngestJobData) (st : State)
    (depth : Z) (e : Thrown) :
  source job = "mangadex" ->
  fst (checkQueueHealth env st) = Normal (true, depth) ->
  storage_fault env (stmt_no st) = None ->
  storage_fault env (S (stmt_no st)) = None ->
  fetchLatestChapters env (Z.min (default MAX_EVENTS_PER_RUN (limit job)) 100) = Throw e ->
  is_rate_limit_error e = false ->
  let id := fresh_run_id env (length (runs st)) in
  let msg := match e with JsError _ m => m | JsNonError _ => "Unknown error" end in
  let status := if truthy_str msg then failed else completed in
  exists st',
    processFeedIngest env job st = (Throw e, st') /\
    trace st' = (trace st ++ [RunInsert id;
                              AdapterFetch (Z.min (default MAX_EVENTS_PER_RUN (limit job)) 100);
                              RunUpdate id status])%list /\
    updates_of id (trace st') = S (updates_of id (trace st)) /\
    (exists r, In r (runs st') /\ run_id r = id) /\
    (forall r, In r (runs st') -> run_id r = id ->
       run_status r = status /\
       run_error_message r = (if truthy_str msg then Some msg else None) /\
       errors (run_counts r) = 1%nat).
Proof.
  intros Hsrc Hh Hok1 Hok2 Hfetch Hrl id msg status.
  rewrite (run_prefix env job st depth Hh Hok1). unfold ingest_of. rewrite Hsrc.
  change (String.eqb "mangadex" "mangadex") with true. cbn iota.
  unfold try_catch at 1. unfold bind at 1.
  unfold ingestMangaDexChapters. unfold bind at 1. unfold modify at 1.
  unfold bind at 1. unfold try_catch at 1. unfold bind at 1. unfold adapter_fetch at 1.
  rewrite Hfetch. rewrite Hrl. cbn -[String.eqb Z.min completeIngestRun].
  finalize_run Hok2.
  eexists. split; [reflexivity|]. cbn -[String.eqb Z.min truthy_str].
  fold msg. fold id. fold status. split.
  { by rewrite <- !app_assoc. }
  split.
  { rewrite <- !app_assoc. cbn [app].
    by apply (updates_of_run id (trace st) [RunInsert id; AdapterFetch _]). }
  split.
  { eexists. split.
    - apply in_map_iff. eexists. split; [reflexivity|]. apply in_or_app. right. by left.
    - cbn. fold id. by rewrite String.eqb_refl. }
  intros r Hin Hid.
  finalized_row Hin. done.
Qed.

(** C6 at the failing input.  The MangaDex client throws an [Error]
    whose message is the empty string.  The error escapes the run and is
    thrown again, yet the one finalizing update marks the run
    [completed] and stores no error message: the status is chosen by
    the truthiness of the message, and the empty string is falsy. *)
Lemma empty_message_run_marked_completed :
  exists st',
    processFeedIngest unreachable_env (mkJob "mangadex" TierA None) empty_state
      = (Throw (JsError UpstreamUnreachable ""), st') /\
    runs st' = [mkRun "run-1" "mangadex" TierA completed (mkCounts 0 0 0 0 1 0) None (Some 1001) 1] /\
    trace st' = [RunInsert "run-1"; AdapterFetch 100; RunUpdate "run-1" completed].
Proof. eexists. split; [vm_compute; reflexivity|]. by split. Qed.

(** An unknown source argument is a fatal error with a non-empty
    message: the run is marked [failed] and the error is thrown again. *)
Lemma unknown_source_fails_run (env : Env) (job : FeedIngestJobData) (st : State) (depth : Z) :
  String.eqb (source job) "mangadex" = false ->
  String.eqb (source job) "mangaupdates" = false ->
  fst (checkQueueHealth env st) = Normal (true, depth) ->
  storage_fault env (stmt_no st) = None ->
  storage_fault env (S (stmt_no st)) = None ->
  let id := fresh_run_id env (length (runs st)) in
  exists st',
    processFeedIngest env job st = (Throw (unknown_source (source job)), st') /\
    trace st' = (trace st ++ [RunInsert id; RunUpdate id failed])%list /\
    updates_of id (trace st') = S (updates_of id (trace st)) /\
    (forall r, In r (runs st') -> run_id r = id ->
       run_status r = failed /\
       run_error_message r = Some ("Unknown feed source: " +:+ source job)).
Proof.
  intros H1 H2 Hh Hok1 Hok2 id.
  rewrite (run_prefix env job st depth Hh Hok1). unfold ingest_of. rewrite H1, H2.
  unfold try_catch at 1. unfold bind at 1. unfold throw at 1.
  cbn -[String.eqb completeIngestRun].
  finalize_run Hok2.
  eexists. split; [reflexivity|]. cbn -[String.eqb]. fold id. split.
  { by rewrite <- !app_assoc. }
  split.
  { rewrite <- !app_assoc. cbn [app].
    by apply (updates_of_run id (trace st) [RunInsert id]). }
  intros r Hin Hid.
  finalized_row Hin. done.
Qed.

(** *** Every healthy run *)

Lemma ingest_frame_refl (st : State) : ingest_frame st st.
Proof. split; [done|]. exists []. by rewrite app_nil_r. Qed.

Lemma ingest_frame_same (st st' : State) :
  runs st' = runs st -> trace st' = trace st -> ingest_frame st st'.
Proof. intros H1 H2. split; [done|]. exists []. by rewrite app_nil_r. Qed.

Lemma ingest_frame_trans (a b c : State) :
  ingest_frame a b -> ingest_frame b c -> ingest_frame a c.
Proof.
  intros [H1 (t1 & Ht1 & F1)] [H2 (t2 & Ht2 & F2)]. split; [congruence|].
  exists (t1 ++ t2)%list. split; [by rewrite Ht2, Ht1, app_assoc|]. by apply Forall_app.
Qed.

Section Combinators.

Context {A B : Type}.

Lemma keeps_ret (a : A) : keeps_runs (@ret State A a).
Proof. intros st. apply ingest_frame_refl. Qed.

Lemma keeps_throw (e : Thrown) : keeps_runs (@throw State A e).
Proof. intros st. apply ingest_frame_refl. Qed.

Lemma keeps_bind (m : M State A) (k : A -> M State B) :
  keeps_runs m -> (forall a, keeps_runs (k a)) -> keeps_runs (bind m k).
Proof.
  intros Hm Hk st. unfold bind. specialize (Hm st).
  destruct (m st) as [[a|e] st1]; cbn [snd] in *; [|done].
  eapply ingest_frame_trans; [exact Hm | apply Hk].
Qed.

Lemma keeps_try_catch (m : M State A) (h : Thrown -> M State A) :
  keeps_runs m -> (forall e, keeps_runs (h e)) -> keeps_runs (try_catch m h).
Proof.
  intros Hm Hh st. unfold try_catch. specialize (Hm st).
  destruct (m st) as [[a|e] st1]; cbn [snd] in *; [done|].
  eapply ingest_frame_trans; [exact Hm | apply Hh].
Qed.

Lemma keeps_storage (env : Env) (op : State -> Completion A * State) :
  (forall st, ingest_frame st (snd (op st))) -> keeps_runs (storage env op).
Proof.
  intros Hop st. unfold storage.
  assert (Hn : ingest_frame st (next_stmt st)) by by apply ingest_frame_same.
  destruct (storage_fault env (stmt_no st)); cbn [snd]; [done|].
  eapply ingest_frame_trans; [exact Hn | apply Hop].
Qed.

End Combinators.

Lemma keeps_for_each {A : Type} (body : A -> M State unit) (l : list A) :
  (forall x, keeps_runs (body x)) -> keeps_runs (for_each body l).
Proof.
  intros Hb. induction l as [|x l IH]; cbn [for_each]; [apply keeps_ret|].
  apply keeps_bind; [apply Hb | intros _; exact IH].
Qed.

Lemma keeps_bump (f : Counts -> Counts) : keeps_runs (bump f).
Proof. intros st. by apply ingest_frame_same. Qed.

Lemma keeps_date_now (env : Env) : keeps_runs (date_now env).
Proof. intros st. by apply ingest_frame_same. Qed.

Lemma keeps_persist (env : Env) (row : EventRow) (snap : option Z) :
  keeps_runs (persist_observation env row snap).
Proof.
  unfold persist_observation. apply keeps_try_catch.
  - apply keeps_bind.
    { apply keeps_storage. intros st. destruct (existsb _ _); by apply ingest_frame_same. }
    intros _. apply keeps_bind; [apply keeps_bump|]. intros _.
    destruct (shouldUpdate _ _); [|apply keeps_ret].
    apply keeps_bind; [|intros _; apply keeps_bump].
    apply keeps_storage. intros st. by apply ingest_frame_same.
  - intros e. destruct (is_unique_constraint_error e); apply keeps_bump.
Qed.

Lemma keeps_process_chapter (env : Env) (ch : MdChapter) : keeps_runs (process_chapter env ch).
Proof.
  unfold process_chapter. apply keeps_try_catch; [|intros _; apply keeps_bump].
  destruct (List.find _ _); [|apply keeps_bump].
  apply keeps_bind.
  { apply keeps_storage. intros st. by apply ingest_frame_same. }
  intros [s|]; [|apply keeps_bump].
  apply keeps_bind; [apply keeps_date_now|]. intros d. apply keeps_persist.
Qed.

Lemma keeps_process_release (env : Env) (r : MuRelease) : keeps_runs (process_release env r).
Proof.
  unfold process_release. destruct (mu_series r) as [[sid snap]|]; [apply keeps_persist|apply keeps_bump].
Qed.

Lemma keeps_ingest_mangadex (env : Env) (run : string) (t : FeedIngestTier) (lim : Z) :
  keeps_runs (ingestMangaDexChapters env run t lim).
Proof.
  unfold ingestMangaDexChapters.
  apply keeps_bind; [intros st; by apply ingest_frame_same|]. intros _.
  apply keeps_bind.
  - apply keeps_try_catch.
    + apply keeps_bind.
      { intros st. unfold adapter_fetch. cbn. split; [done|].
        eexists [_]. split; [done|]. by repeat constructor. }
      intros data. apply keeps_bind; [apply keeps_bump|]. intros _.
      apply keeps_for_each. intros batch. apply keeps_for_each. apply keeps_process_chapter.
    + intros e. destruct (is_rate_limit_error e); [apply keeps_bump|apply keeps_throw].
  - intros _. apply keeps_bind; [intros st; by apply ingest_frame_same|]. intros st. apply keeps_ret.
Qed.

Lemma keeps_ingest_mangaupdates (env : Env) (run : string) (t : FeedIngestTier) (lim : Z) :
  keeps_runs (ingestMangaUpdatesReleases env run t lim).
Proof.
  unfold ingestMangaUpdatesReleases.
  apply keeps_bind; [intros st; by apply ingest_frame_same|]. intros _.
  apply keeps_bind.
  - apply keeps_try_catch.
    + apply keeps_bind.
      { intros st. unfold release_query. cbn. split; [done|].
        eexists [_]. split; [done|]. by repeat constructor. }
      intros data. apply keeps_bind; [apply keeps_bump|]. intros _.
      apply keeps_for_each. apply keeps_process_release.
    + intros e. apply keeps_bump.
  - intros _. apply keeps_bind; [intros st; by apply ingest_frame_same|]. intros st. apply keeps_ret.
Qed.


Lemma keeps_ingest_of (env : Env) (job : FeedIngestJobData) (id : string) :
  keeps_runs (ingest_of env job id).
Proof.
  unfold ingest_of. destruct (String.eqb _ _); [apply keeps_ingest_mangadex|].
  destruct (String.eqb _ _); [apply keeps_ingest_mangaupdates | apply keeps_throw].
Qed.

Lemma fetches_are_no_updates (id : string) (tr : list Effect) :
  Forall is_fetch tr -> updates_of id tr = 0%nat.
Proof.
  unfold updates_of. induction 1 as [|e tr He _ IH]; [done|].
  cbn [List.filter]. by destruct e.
Qed.

Lemma partial_of_counts (c : Counts) :
  mkCounts (or_zero (p_events_fetched (partial_of c))) (or_zero (p_events_created (partial_of c)))
           (or_zero (p_events_skipped (partial_of c))) (or_zero (p_series_updated (partial_of c)))
           (or_zero (p_errors (partial_of c))) (or_zero (p_rate_limit_hits (partial_of c))) = c.
Proof. by destruct c. Qed.


(** X30.  On the MangaUpdates path a failing release query does not escape:
    the run returns normally with one error counted and is finalized
    once, as [completed]. *)
Lemma release_query_failure_is_contained (env : Env) (job : FeedIngestJobData) (st : State)
    (depth : Z) (e : Thrown) :
  source job = "mangaupdates" ->
  fst (checkQueueHealth env st) = Normal (true, depth) ->
  storage_fault env (stmt_no st) = None ->
  storage_fault env (S (stmt_no st)) = None ->
  findManyReleases env (default MAX_EVENTS_PER_RUN (limit job)) = Throw e ->
  let id := fresh_run_id env (length (runs st)) in
  exists res st',
    processFeedIngest env job st = (Normal res, st') /\
    counts res = mkCounts 0 0 0 0 1 0 /\
    updates_of id (trace st') = S (updates_of id (trace st)) /\
    (forall r, In r (runs st') -> run_id r = id ->
       run_status r = completed /\ run_counts r = mkCounts 0 0 0 0 1 0 /\
       run_error_message r = None).
Proof.
  intros Hsrc Hh Hok1 Hok2 Hq id.
  rewrite (run_prefix env job st depth Hh Hok1). unfold ingest_of. rewrite Hsrc.
  change (String.eqb "mangaupdates" "mangadex") with false.
  change (String.eqb "mangaupdates" "mangaupdates") with true. cbn iota.
  unfold try_catch at 1. unfold bind at 1.
  unfold ingestMangaUpdatesReleases. unfold bind at 1. unfold modify at 1.
  unfold bind at 1. unfold try_catch at 1. unfold bind at 1. unfold release_query at 1.
  rewrite Hq. cbn -[String.eqb completeIngestRun].
  finalize_run Hok2.
  eexists _, _. split; [reflexivity|]. cbn -[String.eqb]. fold id.
  split; [done|]. split.
  { rewrite <- !app_assoc. cbn [app].
    by apply (updates_of_run id (trace st) [RunInsert id; ReleaseQuery _]). }
  intros r Hin Hid. finalized_row Hin. done.
Qed.

(** The end-to-end scenario: a series without a watermark, one fetched
    observation discovered at time 1001.  After the run the event is
    stored, the watermark is 1001, and the run row shows one event
    created, one series updated and no error. *)
Example end_to_end_scenario :
  exists res st',
    processFeedIngest one_chapter_env (mkJob "mangadex" TierA None) one_series = (Normal res, st') /\
    counts res = mkCounts 1 1 0 1 0 0 /\
    events st' = [mkEvent "series-1" "10.5" "mangadex" "chapter-77" 1001 None (Some "Title")] /\
    series st' = [mkSeries "series-1" (Some "md-1") (Some 1001) None] /\
    runs st' = [mkRun "run-1" "mangadex" TierA completed (mkCounts 1 1 0 1 0 0) None (Some 1003) 1].
Proof. eexists _, _. split; [vm_compute; reflexivity|]. by repeat split. Qed.

(** The same feed ingested again by a second run: no new row, the
    attempt counted as skipped, the watermark as it was. *)
Example second_run_skips :
  exists res1 st1 res2 st2,
    processFeedIngest one_chapter_env (mkJob "mangadex" TierA None) one_series = (Normal res1, st1) /\
    processFeedIngest one_chapter_env (mkJob "mangadex" TierA None) st1 = (Normal res2, st2) /\
    counts res2 = mkCounts 1 0 1 0 0 0 /\
    events st2 = events st1 /\ series st2 = series st1.
Proof.
  eexists _, _, _, _. split; [vm_compute; reflexivity|].
  split; [vm_compute; reflexivity|]. by repeat split.
Qed.

End FeedIngestFacts.

(** ** The on-demand sync trigger *)

Module OnDemandSyncFacts.

Import Js Eff OnDemandSync.

(** What the guarded section can change: the database and the list of
    scraper calls, the latter by at most one call at its end. *)
Lemma guarded_frame (clb : Collaborators) (F : Faults) (sid : string) (w w1 : World)
    (c : Completion unit) :
  guarded clb F sid w = (c, w1) ->
  locks w1 = locks w /\ lock_trace w1 = lock_trace w /\ console w1 = console w /\
  (scrape_calls w1 = scrape_calls w \/
   exists name id, scrape_calls w1 = (scrape_calls w ++ [(name, id)])%list).
Proof.
  unfold guarded, recheck_and_fetch, bind, counts, find_series, upsert_mangadex,
    chapter_titles, stmt, scrape, sync, ret.
  intros H.
  repeat (case_match; simplify_eq/=); eauto 10.
Qed.

Lemma dummy_titles_live (sid : string) (d : Db) :
  forallb is_dummy_title
    (List.map chapter_title
       (List.filter (fun c => String.eqb (ch_series_id c) sid) (chapters d))) = true ->
  Forall (fun c => is_dummy_title (chapter_title c) = true) (live_chapters sid d).
Proof.
  unfold live_chapters. induction (chapters d) as [|c l IH]; cbn [List.filter]; [constructor|].
  destruct (String.eqb (ch_series_id c) sid); cbn [andb List.map forallb]; [|exact IH].
  intros H. apply andb_prop in H as [H1 H2].
  destruct (bool_decide (ch_deleted_at c = None)); [constructor|]; auto.
Qed.

(** The re-check against the code: whenever the last part of the guarded
    section reaches a scraper, the series had no live chapter, or its
    live chapters were the three placeholders, or they had no detail
    row. *)
Lemma recheck_fetch_needs_sync (clb : Collaborators) (F : Faults) (sid : string)
    (src : SeriesSource) (w w1 : World) (c : Completion unit) :
  recheck_and_fetch clb F sid (chapter_count sid (db w)) (chapter_source_count sid (db w)) src w
    = (c, w1) ->
  scrape_calls w1 <> scrape_calls w ->
  needs_sync sid (db w).
Proof.
  unfold recheck_and_fetch, bind, chapter_titles, stmt, scrape, sync, ret.
  intros H Hne.
  destruct (Nat.eqb (chapter_count sid (db w)) 3) eqn:E3.
  - destruct (titles_fault F); [by simplify_eq/=|].
    cbn -[Nat.ltb Nat.eqb] in H.
    match type of H with context [forallb ?f ?l] => destruct (forallb f l) eqn:Ed end.
    + right. left. split; [by apply Nat.eqb_eq | by apply dummy_titles_live].
    + apply Nat.eqb_eq in E3. rewrite E3 in H. cbn -[Nat.eqb] in H.
      destruct (Nat.eqb (chapter_source_count sid (db w)) 0) eqn:E0.
      * right. right. split; [|by apply Nat.eqb_eq].
        unfold chapter_count in E3. intros E. by rewrite E in E3.
      * by simplify_eq/=.
  - cbn -[Nat.ltb Nat.eqb] in H. destruct (Nat.ltb 0 (chapter_count sid (db w))) eqn:Ec.
    + cbn -[Nat.eqb] in H. destruct (Nat.eqb (chapter_source_count sid (db w)) 0) eqn:E0.
      * right. right. split; [|by apply Nat.eqb_eq].
        apply Nat.ltb_lt in Ec. unfold chapter_count in Ec.
        intros E. rewrite E in Ec. cbn in Ec. lia.
      * by simplify_eq/=.
    + left. apply Nat.ltb_ge in Ec. unfold chapter_count in Ec.
      destruct (live_chapters sid (db w)); [done | cbn in Ec; lia].
Qed.

Lemma guarded_fetch_needs_sync (clb : Collaborators) (F : Faults) (sid : string)
    (w w1 : World) (c : Completion unit) :
  guarded clb F sid w = (c, w1) ->
  scrape_calls w1 <> scrape_calls w ->
  needs_sync sid (db w).
Proof.
  unfold guarded, bind, counts, find_series, stmt, ret.
  intros H Hne.
  destruct (count_fault F); [by simplify_eq/=|].
  destruct (find_series_fault F); [by simplify_eq/=|].
  cbn in H.
  destruct (List.find _ (series (db w))) as [s|]; [|by simplify_eq/=].
  destruct (pick_source _) as [src|].
  - cbn in H. by eapply recheck_fetch_needs_sync.
  - destruct (truthy_ostr (mangadex_id s)); [|by simplify_eq/=].
    unfold upsert_mangadex, stmt in H. destruct (upsert_fault F); [by simplify_eq/=|].
    cbn in H.
    match type of H with
    | recheck_and_fetch _ _ _ _ _ _ ?w' = _ =>
        change (chapter_count sid (db w)) with (chapter_count sid (db w')) in H;
        change (chapter_source_count sid (db w)) with (chapter_source_count sid (db w')) in H;
        apply recheck_fetch_needs_sync in H; [exact H | exact Hne]
    end.
Qed.

(** Everything around the guarded section leaves the scraper alone. *)
Lemma sync_scrapes_in_guarded (clb : Collaborators) (F : Faults) (sid : string) (w : World) :
  scrape_calls (snd (performOnDemandSync clb F sid w)) <> scrape_calls w ->
  exists key w0 c w1,
    lockId_of sid = Some key /\ db w0 = db w /\ scrape_calls w0 = scrape_calls w /\
    guarded clb F sid w0 = (c, w1) /\ scrape_calls w1 <> scrape_calls w0.
Proof.
  unfold performOnDemandSync, try_catch, try_finally, bind, pg_try_advisory_lock,
    release, pg_advisory_unlock, log, modify.
  destruct (lockId_of sid) as [key|]; [|done].
  destruct (lock_fault F); [done|].
  destruct (bool_decide (key ∈ locks w)); [done|].
  cbn [lock_refused negb].
  match goal with |- context [guarded clb F sid ?w0] =>
    destruct (guarded clb F sid w0) as [c w1] eqn:Hg; intros Hne;
    exists key, w0, c, w1 end.
  split; [done|]. split; [done|]. split; [done|]. split; [done|].
  cbn [scrape_calls sent set_locks]. intros E. apply Hne. clear Hne.
  unfold try_catch. destruct (unlock_fault F), c; cbn; exact E.
Qed.

(** C8.  The re-check made under the lock: when the series has a live
    chapter, its live chapters are not the three seeded placeholders and
    a per-source detail row is attached, [performOnDemandSync] calls no
    scraper; put the other way round, a scraper is called only for a
    series that needs syncing. *)
Theorem recheck_skips_fetch :
  forall (clb : Collaborators) (F : Faults) (sid : string) (w : World),
    (scrape_calls (snd (performOnDemandSync clb F sid w)) <> scrape_calls w ->
     needs_sync sid (db w)) /\
    (live_chapters sid (db w) <> [] ->
     ~ placeholder_pattern sid (db w) ->
     chapter_source_count sid (db w) <> 0%nat ->
     scrape_calls (snd (performOnDemandSync clb F sid w)) = scrape_calls w).
Proof.
  intros clb F sid w.
  assert (H : scrape_calls (snd (performOnDemandSync clb F sid w)) <> scrape_calls w ->
              needs_sync sid (db w)).
  { intros Hne. apply sync_scrapes_in_guarded in Hne as (key & w0 & c & w1 & _ & Hd & _ & Hg & Hne).
    rewrite <- Hd. by eapply guarded_fetch_needs_sync. }
  split; [exact H|].
  intros Hlive Hnp Hsc.
  destruct (decide (scrape_calls (snd (performOnDemandSync clb F sid w)) = scrape_calls w))
    as [E|E]; [exact E|].
  destruct (H E) as [Hn|[Hn|[_ Hn]]]; done.
Qed.

Lemma lock_released (key : Z) (held : gset Z) :
  key ∉ held -> ({[key]} ∪ held) ∖ {[key]} = held.
Proof.
  intros Hfree. apply set_eq. intros x.
  rewrite elem_of_difference, elem_of_union, !elem_of_singleton.
  split; [intros [[->|H] Hn]; done|].
  intros H. split; [by right|]. intros ->. done.
Qed.

(** C7.  [performOnDemandSync] returns normally for every series id,
    every database and every pattern of failing statements.  When it
    acquired the lock, the unlock statement is sent exactly once, after
    the guarded section, whether that section returned or threw; the
    lock is free again if the unlock went through, and a failing unlock
    is printed and swallowed.  A failure of the lock query or of
    anything in the guarded section (counting, lookup, binding, scraping,
    persisting) ends up on the console as a sync failure. *)
Theorem on_demand_sync_never_throws :
  forall (clb : Collaborators) (F : Faults) (sid : string) (w : World),
    exists w',
      performOnDemandSync clb F sid w = (Normal tt, w') /\
      (forall key,
         lockId_of sid = Some key -> lock_fault F = None -> key ∉ locks w ->
         let held := sent (TryLock key) (set_locks ({[key]} ∪ locks w) w) in
         lock_trace w' = (lock_trace w ++ [TryLock key; Unlock key])%list /\
         (unlock_fault F = None -> locks w' = locks w) /\
         (forall e, unlock_fault F = Some e -> In (ReleaseFailed sid e) (console w')) /\
         (forall e, fst (guarded clb F sid held) = Throw e -> In (SyncFailed sid e) (console w'))) /\
      (forall key e,
         lockId_of sid = Some key -> lock_fault F = Some e ->
         console w' = (console w ++ [SyncFailed sid e])%list /\ locks w' = locks w).
Proof.
  intros clb F sid w.
  unfold performOnDemandSync, try_catch, try_finally, bind, pg_try_advisory_lock,
    release, pg_advisory_unlock, log, modify.
  destruct (lockId_of sid) as [key|].
  2:{ eexists. split; [reflexivity|]. split; [intros key; done | intros key e; done]. }
  destruct (lock_fault F) as [e|] eqn:Hlf.
  { eexists. split; [reflexivity|]. split; [intros k ? ?; done|].
    intros k e' _ [= <-]. done. }
  destruct (bool_decide (key ∈ locks w)) eqn:Hheld.
  { eexists. split; [reflexivity|]. split; [|intros k e' _ ?; done].
    intros k [= <-] _ Hfree. apply bool_decide_eq_true in Hheld. done. }
  cbn [lock_refused negb].
  match goal with |- context [guarded clb F sid ?w0] =>
    destruct (guarded clb F sid w0) as [c w1] eqn:Hg end.
  destruct (guarded_frame _ _ _ _ _ _ Hg) as (Hl & Ht & Hc & _).
  cbn in Hl, Ht, Hc.
  unfold try_catch.
  destruct (unlock_fault F) as [eu|] eqn:Hu, c as [[]|eb];
    (eexists; split; [reflexivity|]; split; [|intros k e' _ ?; done]);
    intros k [= <-] _ Hfree; rewrite Hg;
    cbn [lock_trace locks console sent set_locks print fst];
    rewrite Ht, Hl, Hc.
  - split; [by rewrite <- app_assoc|]. split; [done|]. split; [|done].
    intros e [= <-]. apply in_or_app. right. by left.
  - split; [by rewrite <- app_assoc|]. split; [done|]. split.
    + intros e [= <-]. apply in_or_app. left. apply in_or_app. right. by left.
    + intros e [= <-]. apply in_or_app. right. by left.
  - split; [by rewrite <- app_assoc|]. split; [|done].
    intros _. by apply lock_released.
  - split; [by rewrite <- app_assoc|]. split; [|split; [done|]].
    + intros _. by apply lock_released.
    + intros e [= <-]. apply in_or_app. right. by left.
Qed.

Lemma guarded_fetches (clb : Collaborators) (F : Faults) (sid : string) (w : World) :
  (length (scrape_calls (snd (guarded clb F sid w))) - length (scrape_calls w) <= 1)%nat /\
  length (scrape_calls (snd (guarded clb F sid w))) =
    (length (scrape_calls w) +
     (length (scrape_calls (snd (guarded clb F sid w))) - length (scrape_calls w)))%nat.
Proof.
  destruct (guarded clb F sid w) as [c w1] eqn:Hg.
  cbn [snd].
  destruct (guarded_frame _ _ _ _ _ _ Hg) as (_ & _ & _ & [->|(n & i & ->)]).
  - lia.
  - rewrite length_app. cbn. lia.
Qed.

(** With nothing failing, a series without live chapters that has a
    bound source with a registered scraper is scraped exactly once. *)
Lemma guarded_scrapes_cold_series (clb : Collaborators) (sid : string) (w : World)
    (s : SeriesRow) (src : SeriesSource)
    (scraper : string -> Completion (list ScrapedChapter)) :
  chapter_count sid (db w) = 0%nat ->
  List.find (fun x => String.eqb (series_id x) sid) (series (db w)) = Some s ->
  pick_source (List.filter (fun x => String.eqb (ss_series_id x) sid) (series_sources (db w)))
    = Some src ->
  scrapers clb (source_name src) = Some scraper ->
  scrape_calls (snd (guarded clb no_faults sid w))
  = (scrape_calls w ++ [(source_name src, source_id src)])%list.
Proof.
  intros Hc Hs Hp Hscr.
  unfold guarded, recheck_and_fetch, bind, counts, find_series, stmt, scrape, sync, ret.
  cbn [count_fault find_series_fault no_faults fst snd].
  rewrite Hs, Hp, Hc, Hscr. cbn.
  destruct (scraper (source_id src)) as [chs|e]; [|done].
  destruct chs; cbn; [done|]. by destruct (syncChapters _ _ _ _ _ _).
Qed.

(** The three steps of a caller, taken without interruption, are the
    function itself. *)
Lemma three_steps_are_the_function (clb : Collaborators) (F : Faults) (sid : string) (w : World) :
  match caller_step clb sid (mkCaller AtStart F false 0) w with
  | (c1, w1) =>
      match caller_step clb sid c1 w1 with
      | (c2, w2) =>
          match caller_step clb sid c2 w2 with
          | (c3, w3) =>
              w3 = snd (performOnDemandSync clb F sid w) /\
              exists how, pc c3 = Returned how
          end
      end
  end.
Proof.
  unfold performOnDemandSync, try_catch, try_finally, bind, log, modify.
  unfold caller_step at 1. cbn [pc faults ran_guarded fetches].
  destruct (lockId_of sid) as [key|]; [|by cbn; eauto].
  destruct (pg_try_advisory_lock F key w) as [[rows|e] w']; [|by cbn; eauto].
  destruct (lock_refused rows); [by cbn; eauto|].
  unfold caller_step at 1. cbn [pc faults ran_guarded fetches].
  destruct (guarded clb F sid w') as [c w1].
  unfold caller_step. cbn [pc faults ran_guarded fetches].
  destruct (release F sid key w1) as [[[]|e] w2]; destruct c as [[]|e']; by cbn; eauto.
Qed.

(** *** Two callers under a schedule *)

Section TwoCallers.

Variable clb : Collaborators.
Variable sid : string.

(** A caller that has returned stays as it is. *)
Lemma returned_stays (c : Caller) (w : World) (how : Exit) :
  pc c = Returned how -> caller_step clb sid c w = (c, w).
Proof. intros H. unfold caller_step. by rewrite H. Qed.

Lemma pair_step_other (p : Pair) (x : bool) :
  caller_of (pair_step clb sid p x) (negb x) = caller_of p (negb x).
Proof.
  unfold pair_step. destruct x; cbn; by destruct (caller_step _ _ _ _).
Qed.

Lemma pair_step_self (p : Pair) (x : bool) :
  caller_of (pair_step clb sid p x) x = fst (caller_step clb sid (caller_of p x) (world p)) /\
  world (pair_step clb sid p x) = snd (caller_step clb sid (caller_of p x) (world p)).
Proof.
  unfold pair_step. destruct x; cbn; by destruct (caller_step _ _ _ _).
Qed.

Lemma settled_step (n0 : nat) (x y : bool) (p : Pair) :
  settled n0 x p -> settled n0 x (pair_step clb sid p y).
Proof.
  intros (Hb & Hrb & Hfb & Hlen & Ha). unfold settled.
  destruct (Bool.bool_dec y x) as [->|Hne].
  - rewrite pair_step_other. destruct (pair_step_self p x) as [-> ->].
    split; [done|]. split; [done|]. split; [done|].
    destruct Ha as [([key Hk] & Hra & Hfa)|([(key & c & Hk)|(how & Hk & Hh)] & Hra & Hfa)].
    + unfold caller_step. rewrite Hk.
      pose proof (guarded_fetches clb (faults (caller_of p x)) sid (world p)) as [H1 H2].
      destruct (guarded clb (faults (caller_of p x)) sid (world p)) as [c w1].
      cbn [fst snd pc ran_guarded fetches] in *. rewrite Hfa. cbn [Nat.add].
      split; [lia|]. right. split; [left; by eexists _, _|]. split; [done|]. lia.
    + unfold caller_step. rewrite Hk. unfold release, try_catch, pg_advisory_unlock, log, modify.
      destruct (unlock_fault (faults (caller_of p x))), c;
        cbn [fst snd pc ran_guarded fetches world scrape_calls sent set_locks print];
        (split; [done|]); right; (split; [right; eexists; split; [reflexivity|done]|]); done.
    + rewrite (returned_stays _ _ _ Hk). cbn [fst snd].
      split; [done|]. right. split; [right; by exists how|]. done.
  - assert (y = negb x) as -> by (destruct x, y; done).
    pose proof (pair_step_other p (negb x)) as Ho. rewrite negb_involutive in Ho.
    rewrite Ho. destruct (pair_step_self p (negb x)) as [-> ->].
    rewrite (returned_stays _ _ _ Hb). cbn [fst snd]. done.
Qed.

Lemma settled_run (n0 : nat) (x : bool)
    (sched : list bool) (p : Pair) :
  settled n0 x p -> settled n0 x (run_pair clb sid sched p).
Proof.
  revert p. induction sched as [|y sched IH]; intros p H; [done|].
  cbn. apply IH. by apply settled_step.
Qed.

Lemma step_rank (c : Caller) (w : World) :
  (Nat.min 3 (S (pc_rank (pc c))) <= pc_rank (pc (fst (caller_step clb sid c w))))%nat.
Proof.
  unfold caller_step. destruct (pc c) eqn:Hp.
  - destruct (lockId_of sid); [|cbn; lia].
    destruct (pg_try_advisory_lock _ _ _) as [[rows|e] w']; [|cbn; lia].
    destruct (lock_refused rows); cbn; lia.
  - destruct (guarded _ _ _ _). cbn. lia.
  - destruct (release _ _ _ _) as [[?|?] ?]; [destruct body|]; cbn; lia.
  - cbn. rewrite Hp. cbn. lia.
Qed.

Lemma run_pc_rank (x : bool) (sched : list bool) (p : Pair) :
  (Nat.min 3 (pc_rank (pc (caller_of p x)) + count_occ bool_dec sched x)
   <= pc_rank (pc (caller_of (run_pair clb sid sched p) x)))%nat.
Proof.
  revert p. induction sched as [|y sched IH]; intros p.
  - cbn [count_occ run_pair fold_left]. lia.
  - cbn [count_occ run_pair fold_left]. specialize (IH (pair_step clb sid p y)).
    fold (run_pair clb sid sched (pair_step clb sid p y)).
    destruct (bool_dec y x) as [->|Hne].
    + destruct (pair_step_self p x) as [He _]. rewrite He in IH.
      pose proof (step_rank (caller_of p x) (world p)). lia.
    + assert (x = negb y) as -> by (destruct x, y; done).
      rewrite pair_step_other in IH. exact IH.
Qed.

Lemma lock_attempt_wins (key : Z) (c : Caller) (w : World) :
  lockId_of sid = Some key -> key ∉ locks w ->
  pc c = AtStart -> lock_fault (faults c) = None ->
  caller_step clb sid c w =
    (mkCaller (InGuarded key) (faults c) (ran_guarded c) (fetches c),
     sent (TryLock key) (set_locks ({[key]} ∪ locks w) w)).
Proof.
  intros Hk Hfree Hpc Hf. unfold caller_step, pg_try_advisory_lock.
  rewrite Hpc, Hk, Hf. by rewrite bool_decide_eq_false_2.
Qed.

Lemma lock_attempt_loses (key : Z) (c : Caller) (w : World) :
  lockId_of sid = Some key -> key ∈ locks w ->
  pc c = AtStart -> lock_fault (faults c) = None ->
  caller_step clb sid c w =
    (mkCaller (Returned ExitLockBusy) (faults c) (ran_guarded c) (fetches c),
     print (AlreadySyncing sid) (sent (TryLock key) w)).
Proof.
  intros Hk Hheld Hpc Hf. unfold caller_step, pg_try_advisory_lock.
  rewrite Hpc, Hk, Hf. by rewrite bool_decide_eq_true_2.
Qed.

Lemma pair_step_other' (p : Pair) (x : bool) :
  caller_of (pair_step clb sid p (negb x)) x = caller_of p x.
Proof.
  pose proof (pair_step_other p (negb x)) as H. by rewrite negb_involutive in H.
Qed.

Lemma boot_caller (F0 F1 : Faults) (w : World) (x : bool) :
  pc (caller_of (boot F0 F1 w) x) = AtStart /\
  ran_guarded (caller_of (boot F0 F1 w) x) = false /\
  fetches (caller_of (boot F0 F1 w) x) = 0%nat /\
  faults (caller_of (boot F0 F1 w) x) = (if x then F1 else F0).
Proof. by destruct x. Qed.

(** After the first caller's lock attempt, and after its guarded
    section as well, the second caller's attempt is refused. *)
Lemma overlap_settles (key : Z) (F0 F1 : Faults)
    (w : World) (x : bool) :
  lockId_of sid = Some key -> key ∉ locks w ->
  lock_fault F0 = None -> lock_fault F1 = None ->
  settled (length (scrape_calls w)) x (run_pair clb sid [x; negb x] (boot F0 F1 w)) /\
  settled (length (scrape_calls w)) x (run_pair clb sid [x; x; negb x] (boot F0 F1 w)).
Proof.
  intros Hk Hfree H0 H1.
  assert (Hin : key ∈ {[key]} ∪ locks w) by (apply elem_of_union; left; by apply elem_of_singleton).
  assert (Hf : forall y, lock_fault (faults (caller_of (boot F0 F1 w) y)) = None).
  { intros y. destruct (boot_caller F0 F1 w y) as (_ & _ & _ & ->). by destruct y. }
  set (p0 := boot F0 F1 w).
  set (p1 := pair_step clb sid p0 x).
  destruct (boot_caller F0 F1 w x) as (Hpx & Hrx & Hfx & _).
  destruct (boot_caller F0 F1 w (negb x)) as (Hpy & Hry & Hfy & _).
  fold p0 in Hpx, Hrx, Hfx, Hpy, Hry, Hfy.
  destruct (pair_step_self p0 x) as [Ha1 Hw1]. fold p1 in Ha1, Hw1.
  rewrite (lock_attempt_wins key) in Ha1, Hw1 by (done || apply Hf).
  cbn [fst snd] in Ha1, Hw1.
  pose proof (pair_step_other p0 x) as Hb1. fold p1 in Hb1.
  assert (Hlose : forall p, caller_of p (negb x) = caller_of p0 (negb x) ->
            key ∈ locks (world p) ->
            caller_of (pair_step clb sid p (negb x)) (negb x)
              = mkCaller (Returned ExitLockBusy) (faults (caller_of p0 (negb x))) false 0 /\
            scrape_calls (world (pair_step clb sid p (negb x))) = scrape_calls (world p) /\
            caller_of (pair_step clb sid p (negb x)) x = caller_of p x).
  { intros p Hb Hheld. destruct (pair_step_self p (negb x)) as [-> ->].
    rewrite pair_step_other'. rewrite Hb.
    rewrite (lock_attempt_loses key) by (done || apply Hf).
    cbn [fst snd]. by rewrite Hry, Hfy. }
  split.
  - change (run_pair clb sid [x; negb x] p0) with (pair_step clb sid p1 (negb x)).
    destruct (Hlose p1 Hb1) as (Hb2 & Hs2 & Ha2).
    { rewrite Hw1. exact Hin. }
    unfold settled. cbn zeta. rewrite Hb2, Ha2, Ha1, Hs2, Hw1, Hrx, Hfx. cbn.
    rewrite Nat.add_0_r. split; [done|]. split; [done|]. split; [done|]. split; [done|].
    left. split; [by eexists|done].
  - set (p2 := pair_step clb sid p1 x).
    change (run_pair clb sid [x; x; negb x] p0) with (pair_step clb sid p2 (negb x)).
    destruct (pair_step_self p1 x) as [Ha2 Hw2]. fold p2 in Ha2, Hw2.
    pose proof (pair_step_other p1 x) as Hb2. fold p2 in Hb2. rewrite Hb1 in Hb2.
    rewrite Ha1, Hw1 in Ha2, Hw2. unfold caller_step in Ha2, Hw2. cbn [pc faults] in Ha2, Hw2.
    match type of Ha2 with context [guarded clb ?F sid ?w0] =>
      pose proof (guarded_fetches clb F sid w0) as [Hle Hlen];
      destruct (guarded clb F sid w0) as [c w1] eqn:Hg;
      destruct (guarded_frame _ _ _ _ _ _ Hg) as (Hl & _ & _ & _)
    end.
    cbn [fst snd fetches ran_guarded] in *.
    change (world p0) with w in *. cbn [scrape_calls sent set_locks] in *.
    destruct (Hlose p2 Hb2) as (Hb3 & Hs3 & Ha3).
    { rewrite Hw2, Hl. exact Hin. }
    unfold settled. cbn zeta. rewrite Hb3, Ha3, Ha2, Hs3, Hw2, Hfx. cbn.
    split; [done|]. split; [done|]. split; [done|]. split; [lia|].
    right. split; [left; by eexists _, _|]. split; [done|lia].
Qed.

End TwoCallers.



(** In that run the cold series is scraped exactly once. *)
Example cold_series_scraped_once :
  scrape_calls (world (run_pair demo_collaborators demo_series
                         [false; true; false; true; false; true]
                         (boot no_faults no_faults cold_world)))
  = [("mangadex", "md-1")].
Proof. vm_compute. reflexivity. Qed.

(** Run one after the other, both callers get the lock, and the
    re-check keeps the second from scraping again. *)
Example sequential_callers_scrape_once :
  let p := run_pair demo_collaborators demo_series [false; false; false; true; true; true]
             (boot no_faults no_faults cold_world) in
  ran_guarded (first p) = true /\ ran_guarded (second p) = true /\
  fetches (first p) = 1%nat /\ fetches (second p) = 0%nat.
Proof. vm_compute. by repeat split. Qed.

Lemma never_throws_witness :
  exists w',
    performOnDemandSync demo_collaborators storage_down demo_series cold_world = (Normal tt, w') /\
    lock_trace w' = [TryLock 439041101; Unlock 439041101] /\
    In (ReleaseFailed demo_series (JsError StorageUnavailable "connection refused")) (console w') /\
    In (SyncFailed demo_series (JsError StorageUnavailable "connection refused")) (console w').
Proof.
  destruct (on_demand_sync_never_throws demo_collaborators storage_down demo_series cold_world)
    as (w' & Hrun & Hlocked & _).
  destruct (Hlocked 439041101 eq_refl eq_refl (not_elem_of_empty 439041101))
    as (Ht & _ & Hrel & Hfail).
  exists w'. split; [exact Hrun|]. split; [exact Ht|]. split.
  - by apply Hrel.
  - by apply Hfail.
Defined.

Lemma recheck_witness :
  scrape_calls (snd (performOnDemandSync demo_collaborators no_faults demo_series synced_world))
  = scrape_calls synced_world.
Proof.
  apply (proj2 (recheck_skips_fetch demo_collaborators no_faults demo_series synced_world)).
  - vm_compute. discriminate.
  - intros [H _]. vm_compute in H. discriminate.
  - vm_compute. discriminate.
Defined.

End OnDemandSyncFacts.

(** ** Alert cooldown *)

Module AlertingFacts.

Import Js Eff Alerting.

Lemma sendAlert_dispatches (now : Z) (alert : DLQAlert) (svc : Service) :
  in_cooldown svc (alertKey alert) now = false ->
  dispatched (sendAlert now alert svc) = (dispatched svc ++ [alert])%list /\
  lastAlertTime (sendAlert now alert svc) = <[alertKey alert := now]> (lastAlertTime svc).
Proof.
  intros H. unfold sendAlert. rewrite H.
  by destruct (call_handlers _ _ _ _ _).
Qed.

Lemma sendAlert_suppressed (now : Z) (alert : DLQAlert) (svc : Service) :
  in_cooldown svc (alertKey alert) now = true -> sendAlert now alert svc = svc.
Proof. intros H. unfold sendAlert. by rewrite H. Qed.

Lemma alertKey_same (a1 a2 : DLQAlert) :
  type a1 = type a2 -> entityId a1 = entityId a2 -> alertKey a1 = alertKey a2.
Proof. intros H1 H2. unfold alertKey. by rewrite H1, H2. Qed.

(** A second alert with the key of one just sent is dropped. *)
Lemma second_send_suppressed (t1 t2 : Z) (a1 a2 : DLQAlert) (svc : Service) :
  type a1 = type a2 -> entityId a1 = entityId a2 ->
  in_cooldown svc (alertKey a1) t1 = false ->
  t1 <> 0 -> t2 - t1 < alertCooldownMs ->
  sendAlert t2 a2 (sendAlert t1 a1 svc) = sendAlert t1 a1 svc.
Proof.
  intros Ht He Hfree Hnz Hwin. apply sendAlert_suppressed.
  destruct (sendAlert_dispatches t1 a1 svc Hfree) as [_ Hl].
  unfold in_cooldown. rewrite Hl, <- (alertKey_same a1 a2 Ht He), lookup_insert_eq.
  apply andb_true_intro. split.
  - apply negb_true_iff, Z.eqb_neq. done.
  - by apply Z.ltb_lt.
Qed.

(** C9.  Two calls of [checkDLQThresholds] with counts at or above the
    critical threshold, the second less than the cooldown (five
    minutes) after the first: the first dispatches its alert, the second
    is dropped and leaves the service as it was, so exactly one alert is
    dispatched.  More generally the second of any two alerts with the
    same type and entity sent within the cooldown is dropped, by way of
    the service's last-sent map. *)
Theorem cooldown_suppresses_second_alert :
  forall (svc : Service) (th : Thresholds) (c1 c2 stamp1 stamp2 t1 t2 : Z),
    th_critical th <= c1 -> th_critical th <= c2 ->
    in_cooldown svc "dlq_critical:global" t1 = false ->
    t1 <> 0 ->
    t2 - t1 < alertCooldownMs ->
    let svc1 := checkDLQThresholds c1 th stamp1 t1 svc in
    let svc2 := checkDLQThresholds c2 th stamp2 t2 svc1 in
    alertCooldownMs = 300000 /\
    length (dispatched svc2) = S (length (dispatched svc)) /\
    svc2 = svc1 /\
    lastAlertTime svc1 !! "dlq_critical:global" = Some t1 /\
    (forall (a1 a2 : DLQAlert) (s : Service),
       type a1 = type a2 -> entityId a1 = entityId a2 ->
       in_cooldown s (alertKey a1) t1 = false ->
       sendAlert t2 a2 (sendAlert t1 a1 s) = sendAlert t1 a1 s /\
       dispatched (sendAlert t1 a1 s) = (dispatched s ++ [a1])%list).
Proof.
  intros svc th c1 c2 stamp1 stamp2 t1 t2 H1 H2 Hfree Hnz Hwin svc1 svc2.
  split; [done|].
  assert (Hgen : forall (a1 a2 : DLQAlert) (s : Service),
             type a1 = type a2 -> entityId a1 = entityId a2 ->
             in_cooldown s (alertKey a1) t1 = false ->
             sendAlert t2 a2 (sendAlert t1 a1 s) = sendAlert t1 a1 s /\
             dispatched (sendAlert t1 a1 s) = (dispatched s ++ [a1])%list).
  { intros a1 a2 s Ht He Hf. split; [by apply second_send_suppressed|].
    by apply sendAlert_dispatches. }
  subst svc1 svc2. unfold checkDLQThresholds.
  apply Z.leb_le in H1, H2. rewrite H1, H2.
  match goal with |- context [sendAlert t2 ?a2 (sendAlert t1 ?a1 svc)] =>
    destruct (Hgen a1 a2 svc eq_refl eq_refl Hfree) as [Hs Hd];
    destruct (sendAlert_dispatches t1 a1 svc Hfree) as [_ Hl]
  end.
  rewrite Hs, Hd, Hl. split; [|split; [done|split; [|exact Hgen]]].
  - rewrite length_app. cbn. lia.
  - apply lookup_insert_eq.
Qed.

Lemma cooldown_witness :
  length (dispatched (checkDLQThresholds 700 default_thresholds 61000 61000
                        (checkDLQThresholds 600 default_thresholds 1000 1000 fresh))) = 1%nat.
Proof.
  exact (proj1 (proj2 (cooldown_suppresses_second_alert fresh default_thresholds 600 700
                         1000 61000 1000 61000
                         ltac:(vm_compute; discriminate) ltac:(vm_compute; discriminate)
                         eq_refl ltac:(discriminate) ltac:(reflexivity)))).
Defined.

End AlertingFacts.

(** ** The bounded store *)

Module RateLimitFacts.

Import Js RateLimit.

Lemma map_delete_length (key : string) (m : list (string * Entry)) :
  (length (map_delete key m) <= length m)%nat.
Proof. unfold map_delete. apply List.filter_length_le. Qed.

Lemma map_delete_present (key : string) (m : list (string * Entry)) :
  In key (List.map fst m) -> (length (map_delete key m) < length m)%nat.
Proof.
  unfold map_delete. induction m as [|p m IH]; cbn; [done|].
  intros [E|H].
  - rewrite E, String.eqb_refl. cbn.
    pose proof (List.filter_length_le (fun p => negb (String.eqb (fst p) key)) m). lia.
  - specialize (IH H). destruct (negb (String.eqb (fst p) key)); cbn; lia.
Qed.

Lemma map_delete_keeps (P : string * Entry -> Prop) (key : string) (m : list (string * Entry)) :
  Forall P m -> Forall P (map_delete key m).
Proof.
  unfold map_delete. intros H. apply List.Forall_forall. intros x Hx.
  apply List.filter_In in Hx as [Hx _]. by apply (proj1 (List.Forall_forall P m) H).
Qed.

Lemma map_set_length (key : string) (value : Entry) (m : list (string * Entry)) :
  (length (map_set key value m) <= S (length m))%nat.
Proof.
  induction m as [|p m IH]; cbn; [lia|].
  destruct (String.eqb (fst p) key); cbn; lia.
Qed.

Lemma map_set_keeps (P : string * Entry -> Prop) (key : string) (value : Entry)
    (m : list (string * Entry)) :
  P (key, value) -> Forall P m -> Forall P (map_set key value m).
Proof.
  intros Hk. induction m as [|p m IH]; cbn; intros H.
  - by constructor.
  - inversion H; subst. destruct (String.eqb (fst p) key); constructor; auto.
Qed.

Lemma map_get_set (key : string) (value : Entry) (m : list (string * Entry)) :
  map_get key (map_set key value m) = Some value.
Proof.
  unfold map_get. induction m as [|p m IH]; cbn.
  - by rewrite String.eqb_refl.
  - destruct (String.eqb (fst p) key) eqn:E; cbn.
    + by rewrite String.eqb_refl.
    + by rewrite E.
Qed.

(** The eviction scan returns a key of the map together with its reset
    time, and no entry has a smaller reset time. *)
Lemma oldest_scan_acc (m : list (string * Entry)) (k0 : string) (t0 : Z) :
  exists k t,
    fold_left (fun acc p =>
                 match snd acc with
                 | None => (Some (fst p), Some (resetTime (snd p)))
                 | Some oldestTime =>
                     if resetTime (snd p) <? oldestTime
                     then (Some (fst p), Some (resetTime (snd p)))
                     else acc
                 end) m (Some k0, Some t0) = (Some k, Some t) /\
    t <= t0 /\
    Forall (fun p => t <= resetTime (snd p)) m /\
    ((k = k0 /\ t = t0) \/ exists v, In (k, v) m /\ resetTime v = t).
Proof.
  revert k0 t0. induction m as [|p m IH]; intros k0 t0; cbn.
  - exists k0, t0. split; [done|]. split; [lia|]. split; [constructor|by left].
  - destruct (resetTime (snd p) <? t0) eqn:E.
    + apply Z.ltb_lt in E. destruct (IH (fst p) (resetTime (snd p))) as (k & t & -> & Hle & Hall & Hin).
      exists k, t. split; [done|]. split; [lia|]. split; [constructor; [done|exact Hall]|].
      right. destruct Hin as [[-> ->]|(v & Hv & Ht)].
      * exists (snd p). split; [left; by destruct p|done].
      * exists v. split; [by right|done].
    + apply Z.ltb_ge in E. destruct (IH k0 t0) as (k & t & -> & Hle & Hall & Hin).
      exists k, t. split; [done|]. split; [done|]. split; [constructor; [lia|exact Hall]|].
      destruct Hin as [H|(v & Hv & Ht)]; [by left|].
      right. exists v. split; [by right|done].
Qed.

Lemma oldest_scan_min (m : list (string * Entry)) :
  m <> [] ->
  exists k v,
    oldest_scan m = (Some k, Some (resetTime v)) /\
    In (k, v) m /\
    Forall (fun p => resetTime v <= resetTime (snd p)) m.
Proof.
  destruct m as [|p m]; [done|]. intros _. unfold oldest_scan. cbn [fold_left snd].
  destruct (oldest_scan_acc m (fst p) (resetTime (snd p))) as (k & t & -> & Hle & Hall & Hin).
  destruct Hin as [[-> ->]|(v & Hv & <-)].
  - exists (fst p), (snd p). split; [done|]. split; [left; by destruct p|].
    constructor; [lia|exact Hall].
  - exists k, v. split; [done|]. split; [by right|]. constructor; [done|exact Hall].
Qed.

Lemma fold_delete_length (ks : list (string * Entry)) (m : list (string * Entry)) :
  (length (fold_left (fun m p => map_delete (fst p) m) ks m) <= length m)%nat.
Proof.
  revert m. induction ks as [|k ks IH]; intros m; cbn; [lia|].
  specialize (IH (map_delete (fst k) m)). pose proof (map_delete_length (fst k) m). lia.
Qed.

Lemma fold_delete_keeps (P : string * Entry -> Prop) (ks m : list (string * Entry)) :
  Forall P m -> Forall P (fold_left (fun m p => map_delete (fst p) m) ks m).
Proof.
  revert m. induction ks as [|k ks IH]; intros m H; cbn; [done|].
  apply IH. by apply map_delete_keeps.
Qed.

Lemma filter_keeps {A : Type} (P : A -> Prop) (f : A -> bool) (l : list A) :
  Forall P l -> Forall P (List.filter f l).
Proof.
  intros H. apply List.Forall_forall. intros x Hx.
  apply List.filter_In in Hx as [Hx _]. by apply (proj1 (List.Forall_forall P l) H).
Qed.

(** [cleanup] only removes entries. *)
Lemma cleanup_shrinks (now : Z) (s : BoundedRateLimitStore) :
  maxEntries (cleanup now s) = maxEntries s /\
  size (cleanup now s) <= size s /\
  (forall P, Forall P (store s) -> Forall P (store (cleanup now s))).
Proof.
  unfold cleanup, size. destruct (now - lastCleanup s <? cleanupInterval); [by repeat split; try lia|].
  cbn [maxEntries store]. split; [done|].
  pose proof (List.filter_length_le (fun p => negb (resetTime (snd p) <? now)) (store s)) as Hf.
  destruct (maxEntries s <? _).
  - split.
    + match goal with |- context [fold_left ?f ?ks ?m] =>
        pose proof (fold_delete_length ks m) end. lia.
    + intros P H. apply fold_delete_keeps. by apply filter_keeps.
  - split; [lia|]. intros P H. by apply filter_keeps.
Qed.

(** A cleanup that is due leaves no expired entry behind. *)
Lemma cleanup_due_removes_expired (now : Z) (s : BoundedRateLimitStore) :
  cleanupInterval <= now - lastCleanup s ->
  Forall (fun p => now <= resetTime (snd p)) (store (cleanup now s)).
Proof.
  intros Hdue. unfold cleanup. apply Z.ltb_ge in Hdue. rewrite Hdue. cbn [store].
  assert (H : Forall (fun p => now <= resetTime (snd p))
                (List.filter (fun p => negb (resetTime (snd p) <? now)) (store s))).
  { apply List.Forall_forall. intros x Hx. apply List.filter_In in Hx as [_ Hx].
    apply negb_true_iff, Z.ltb_ge in Hx. done. }
  destruct (maxEntries s <? _); [by apply fold_delete_keeps | done].
Qed.

Lemma evict_and_insert_bounded (key : string) (value : Entry) (s : BoundedRateLimitStore) :
  truthy_str key = true -> within_capacity s -> within_capacity (evict_and_insert key value s).
Proof.
  intros Hkey (Hpos & Hsize & Hkeys). unfold within_capacity, evict_and_insert, size in *.
  cbn [maxEntries store]. split; [done|].
  destruct (maxEntries s <=? Z.of_nat (length (store s))) eqn:Hfull.
  - apply Z.leb_le in Hfull.
    assert (Hne : store s <> []) by (intros E; rewrite E in Hfull; cbn in Hfull; lia).
    destruct (oldest_scan_min (store s) Hne) as (k & v & -> & Hin & _). cbn [fst].
    assert (Hk : truthy_str k = true).
    { exact (proj1 (List.Forall_forall _ _) Hkeys (k, v) Hin). }
    rewrite Hk.
    assert (Hlt : (length (map_delete k (store s)) < length (store s))%nat).
    { apply map_delete_present. apply in_map_iff. by exists (k, v). }
    pose proof (map_set_length key value (map_delete k (store s))).
    split; [lia|]. apply map_set_keeps; [done|]. by apply map_delete_keeps.
  - apply Z.leb_gt in Hfull. pose proof (map_set_length key value (store s)).
    split; [lia|]. by apply map_set_keeps.
Qed.

Lemma cleanup_bounded (now : Z) (s : BoundedRateLimitStore) :
  within_capacity s -> within_capacity (cleanup now s).
Proof.
  intros (Hpos & Hsize & Hkeys). destruct (cleanup_shrinks now s) as (Hm & Hs & Hk).
  unfold within_capacity. rewrite Hm. split; [done|]. split; [lia|]. by apply Hk.
Qed.

Lemma set_bounded (now : Z) (key : string) (value : Entry) (s : BoundedRateLimitStore) :
  truthy_str key = true -> within_capacity s -> within_capacity (set now key value s).
Proof.
  intros Hkey H. unfold set. apply evict_and_insert_bounded; [done|].
  destruct (maxEntries s <=? size s); [by apply cleanup_bounded | done].
Qed.

Lemma set_keeps_capacity (now : Z) (key : string) (value : Entry) (s : BoundedRateLimitStore) :
  maxEntries (set now key value s) = maxEntries s.
Proof.
  unfold set, evict_and_insert. cbn [maxEntries].
  destruct (maxEntries s <=? size s); [apply cleanup_shrinks | done].
Qed.

Lemma run_ops_bounded (ops : list Op) (s : BoundedRateLimitStore) :
  truthy_keys ops -> within_capacity s ->
  within_capacity (run_ops ops s) /\ maxEntries (run_ops ops s) = maxEntries s.
Proof.
  unfold run_ops. revert s. induction ops as [|op ops IH]; intros s Hk Hs; [done|].
  inversion Hk as [|? ? Hop Hrest]; subst. cbn [fold_left].
  destruct op as [key|now key value|now]; cbn [apply_op].
  - by apply IH.
  - destruct (IH (set now key value s) Hrest (set_bounded now key value s Hop Hs)) as [H1 H2].
    split; [done|]. by rewrite H2, set_keeps_capacity.
  - destruct (IH (triggerCleanup now s) Hrest (cleanup_bounded now s Hs)) as [H1 H2].
    split; [done|]. rewrite H2. apply cleanup_shrinks.
Qed.

Lemma rate_key_truthy (tier ip : string) : truthy_str (rate_key tier ip) = true.
Proof. unfold rate_key, truthy_str. destruct tier; done. Qed.

Lemma serve_bounded (s : BoundedRateLimitStore) (r : Request) :
  within_capacity s -> within_capacity (serve s r) /\ maxEntries (serve s r) = maxEntries s.
Proof.
  intros Hs. unfold serve, checkRateLimit, triggerCleanup.
  pose proof (cleanup_bounded (rq_t0 r) s Hs) as Hc.
  destruct (cleanup_shrinks (rq_t0 r) s) as (Hm & _ & _).
  destruct (get _ _) as [e|]; [destruct (resetTime e <? rq_now r)|]; cbn [snd];
    (split; [apply set_bounded; [apply rate_key_truthy | done]
            | by rewrite set_keeps_capacity]).
Qed.

Lemma serve_all_bounded (rs : list Request) (s : BoundedRateLimitStore) :
  within_capacity s ->
  within_capacity (serve_all rs s) /\ maxEntries (serve_all rs s) = maxEntries s.
Proof.
  unfold serve_all. revert s. induction rs as [|r rs IH]; intros s Hs; [done|].
  cbn [fold_left]. destruct (serve_bounded s r Hs) as [H1 H2].
  destruct (IH (serve s r) H1) as [H3 H4]. split; [done|]. by rewrite H4.
Qed.

Lemma fresh_store_within (now : Z) : within_capacity (rateLimitStore now).
Proof. unfold within_capacity, rateLimitStore, new_store, size. cbn. split; [lia|]. split; [lia|constructor]. Qed.

(** When the store is at capacity, the second half of [set] removes an
    entry whose reset time is the smallest and then inserts. *)
Lemma evicts_oldest (key : string) (value : Entry) (s : BoundedRateLimitStore) :
  within_capacity s -> maxEntries s <= size s ->
  exists k v,
    In (k, v) (store s) /\
    Forall (fun p => resetTime v <= resetTime (snd p)) (store s) /\
    store (evict_and_insert key value s) = map_set key value (map_delete k (store s)).
Proof.
  intros (Hpos & Hsize & Hkeys) Hfull. unfold evict_and_insert, size in *.
  apply Z.leb_le in Hfull as Hb. rewrite Hb. cbn [store].
  assert (Hne : store s <> []) by (intros E; rewrite E in Hfull; cbn in Hfull; lia).
  destruct (oldest_scan_min (store s) Hne) as (k & v & -> & Hin & Hmin). cbn [fst].
  pose proof (proj1 (List.Forall_forall _ _) Hkeys (k, v) Hin) as Hk. cbn [fst] in Hk.
  rewrite Hk. by exists k, v.
Qed.

(** C10.  The store of the middleware, created with capacity 10000,
    never holds more than 10000 entries: after any sequence of requests
    served by the middleware, and after any sequence of [get], [set] and
    cleanup operations whose keys are non-empty (as the middleware's
    [tier:ip] keys are).  [set] works as described: when the store is at
    capacity it first runs [cleanup], which drops every expired entry
    when a cleanup is due; if the store is still at capacity it removes
    an entry with the smallest reset time; then it inserts. *)
Theorem rate_limit_store_bounded :
  forall (t0 : Z),
    maxEntries (rateLimitStore t0) = 10000 /\
    (forall rs : list Request, size (serve_all rs (rateLimitStore t0)) <= 10000) /\
    (forall ops : list Op, truthy_keys ops -> size (run_ops ops (rateLimitStore t0)) <= 10000) /\
    (forall (now : Z) (key : string) (value : Entry) (s : BoundedRateLimitStore),
       set now key value s =
         evict_and_insert key value (if maxEntries s <=? size s then cleanup now s else s)) /\
    (forall (now : Z) (s : BoundedRateLimitStore),
       cleanupInterval <= now - lastCleanup s ->
       Forall (fun p => now <= resetTime (snd p)) (store (cleanup now s))) /\
    (forall (key : string) (value : Entry) (s : BoundedRateLimitStore),
       within_capacity s -> maxEntries s <= size s ->
       exists k v,
         In (k, v) (store s) /\
         Forall (fun p => resetTime v <= resetTime (snd p)) (store s) /\
         store (evict_and_insert key value s) = map_set key value (map_delete k (store s))) /\
    (forall (key : string) (value : Entry) (s : BoundedRateLimitStore),
       get key (evict_and_insert key value s) = Some value).
Proof.
  intros t0. split; [done|]. split; [|split; [|split; [done|split; [|split]]]].
  - intros rs. destruct (serve_all_bounded rs _ (fresh_store_within t0)) as [(_ & H & _) Hm].
    by rewrite Hm in H.
  - intros ops Hk. destruct (run_ops_bounded ops _ Hk (fresh_store_within t0)) as [(_ & H & _) Hm].
    by rewrite Hm in H.
  - apply cleanup_due_removes_expired.
  - apply evicts_oldest.
  - intros key value s. unfold get, evict_and_insert. cbn [store]. apply map_get_set.
Qed.

Lemma rate_limit_store_witness :
  size (run_ops [OpSet 5 "public:10.0.0.1" (mkEntry 1 60005); OpGet "public:10.0.0.1";
                 OpSet 9 "auth:10.0.0.2" (mkEntry 1 60009); OpCleanup 70000]
                (rateLimitStore 0)) <= 10000.
Proof.
  apply (proj1 (proj2 (proj2 (rate_limit_store_bounded 0)))).
  repeat constructor.
Defined.

End RateLimitFacts.

(** ** Whole runs of the ingest processor *)

Module FeedIngestRunFacts.
Import Js Eff FeedIngest FeedIngestRun FeedIngestFacts.
Local Open Scope eff_scope.

(** *** The batching loop *)

Lemma chunks_of_concat {A : Type} (n fuel : nat) (l : list A) :
  (0 < n)%nat -> (length l <= fuel)%nat -> concat (chunks_of fuel n l) = l.
Proof.
  intros Hn. revert l. induction fuel as [|fuel IH]; intros l Hl.
  - destruct l; [done | cbn in Hl; lia].
  - destruct l as [|x l]; [done|]. cbn [chunks_of concat].
    rewrite IH; [apply take_drop|].
    rewrite length_drop. cbn [length] in *. lia.
Qed.

Lemma chunks_of_sizes {A : Type} (n fuel : nat) (l : list A) :
  (0 < n)%nat ->
  Forall (fun b => b <> [] /\ (length b <= n)%nat) (chunks_of fuel n l).
Proof.
  intros Hn. revert l. induction fuel as [|fuel IH]; intros l; [constructor|].
  destruct l as [|x l]; [constructor|]. cbn [chunks_of]. constructor; [|apply IH].
  split.
  - destruct n; [lia | done].
  - rewrite length_take. lia.
Qed.

Lemma for_each_app {S A : Type} (body : A -> M S unit) (l1 l2 : list A) (s : S) :
  for_each body (l1 ++ l2) s = bind (for_each body l1) (fun _ => for_each body l2) s.
Proof.
  revert s. induction l1 as [|x l1 IH]; intros s; cbn [for_each app]; [done|].
  unfold bind in *. destruct (body x s) as [[[]|e] s1]; [|done]. apply IH.
Qed.

Lemma for_each_concat {S A : Type} (body : A -> M S unit) (bs : list (list A)) (s : S) :
  for_each (for_each body) bs s = for_each body (concat bs) s.
Proof.
  revert s. induction bs as [|b bs IH]; intros s; [done|].
  cbn [for_each concat]. rewrite for_each_app. unfold bind.
  destruct (for_each body b s) as [[[]|e] s1]; [|done]. apply IH.
Qed.

Lemma for_each_batches {S A : Type} (body : A -> M S unit) (l : list A) (s : S) :
  for_each (for_each body) (batches l) s = for_each body l s.
Proof.
  rewrite for_each_concat. unfold batches, BATCH_SIZE.
  rewrite chunks_of_concat; [done | lia | lia].
Qed.


(** *** Relations every statement of a run respects *)

Section Preserved.

Variable R : State -> State -> Prop.
Hypothesis R_refl : forall st, R st st.
Hypothesis R_trans : forall a b c, R a b -> R b c -> R a c.
Hypothesis R_stmt : forall st, R st (next_stmt st).
Hypothesis R_tick : forall st, R st (next_tick st).
Hypothesis R_result : forall c st, R st (set_result c st).
Hypothesis R_event : forall row st,
  existsb (same_key row) (events st) = false ->
  R st (set_events (events st ++ [row]) st).
Hypothesis R_series : forall id ts st,
  R st (set_series (List.map (update_row id ts) (series st)) st).
Hypothesis R_emit : forall e st, R st (emit e st).
Hypothesis R_runs : forall rs st, R st (set_runs rs st).

Lemma preserves_ret {A : Type} (a : A) : preserves R (@ret State A a).
Proof. intros st. apply R_refl. Qed.

Lemma preserves_throw {A : Type} (e : Thrown) : preserves R (@throw State A e).
Proof. intros st. apply R_refl. Qed.

Lemma preserves_bind {A B : Type} (m : M State A) (k : A -> M State B) :
  preserves R m -> (forall a, preserves R (k a)) -> preserves R (bind m k).
Proof.
  intros Hm Hk st. unfold bind. specialize (Hm st).
  destruct (m st) as [[a|e] st1]; cbn [snd] in *; [|done].
  eapply R_trans; [exact Hm | apply Hk].
Qed.

Lemma preserves_try_catch {A : Type} (m : M State A) (h : Thrown -> M State A) :
  preserves R m -> (forall e, preserves R (h e)) -> preserves R (try_catch m h).
Proof.
  intros Hm Hh st. unfold try_catch. specialize (Hm st).
  destruct (m st) as [[a|e] st1]; cbn [snd] in *; [done|].
  eapply R_trans; [exact Hm | apply Hh].
Qed.

Lemma preserves_storage {A : Type} (env : Env) (op : State -> Completion A * State) :
  (forall st, R st (snd (op st))) -> preserves R (storage env op).
Proof.
  intros Hop st. unfold storage.
  destruct (storage_fault env (stmt_no st)); cbn [snd]; [apply R_stmt|].
  eapply R_trans; [apply R_stmt | apply Hop].
Qed.

Lemma preserves_for_each {A : Type} (body : A -> M State unit) (l : list A) :
  (forall x, preserves R (body x)) -> preserves R (for_each body l).
Proof.
  intros Hb. induction l as [|x l IH]; cbn [for_each]; [apply preserves_ret|].
  apply preserves_bind; [apply Hb | intros _; exact IH].
Qed.

Lemma preserves_bump (f : Counts -> Counts) : preserves R (bump f).
Proof. intros st. apply R_result. Qed.

Lemma preserves_date_now (env : Env) : preserves R (date_now env).
Proof. intros st. apply R_tick. Qed.

Lemma preserves_persist (env : Env) (row : EventRow) (snap : option Z) :
  preserves R (persist_observation env row snap).
Proof.
  unfold persist_observation. apply preserves_try_catch.
  - apply preserves_bind.
    { apply preserves_storage. intros st.
      destruct (existsb _ _) eqn:E; cbn [snd]; [apply R_refl | by apply R_event]. }
    intros _. apply preserves_bind; [apply preserves_bump|]. intros _.
    destruct (shouldUpdate _ _); [|apply preserves_ret].
    apply preserves_bind; [|intros _; apply preserves_bump].
    apply preserves_storage. intros st. apply R_series.
  - intros e. destruct (is_unique_constraint_error e); apply preserves_bump.
Qed.

Lemma preserves_process_chapter (env : Env) (ch : MdChapter) :
  preserves R (process_chapter env ch).
Proof.
  unfold process_chapter. apply preserves_try_catch; [|intros _; apply preserves_bump].
  destruct (List.find _ _); [|apply preserves_bump].
  apply preserves_bind.
  { apply preserves_storage. intros st. apply R_refl. }
  intros [s|]; [|apply preserves_bump].
  apply preserves_bind; [apply preserves_date_now|]. intros d. apply preserves_persist.
Qed.

Lemma preserves_process_release (env : Env) (r : MuRelease) :
  preserves R (process_release env r).
Proof.
  unfold process_release.
  destruct (mu_series r) as [[sid snap]|]; [apply preserves_persist | apply preserves_bump].
Qed.

Lemma preserves_chapters (env : Env) (bs : list (list MdChapter)) :
  preserves R (for_each (for_each (process_chapter env)) bs).
Proof.
  apply preserves_for_each. intros b. apply preserves_for_each.
  apply preserves_process_chapter.
Qed.

Lemma preserves_releases (env : Env) (rs : list MuRelease) :
  preserves R (for_each (process_release env) rs).
Proof. apply preserves_for_each. apply preserves_process_release. Qed.

Lemma preserves_ingest_of (env : Env) (job : FeedIngestJobData) (id : string) :
  preserves R (ingest_of env job id).
Proof.
  unfold ingest_of, ingestMangaDexChapters, ingestMangaUpdatesReleases.
  destruct (String.eqb _ _); [|destruct (String.eqb _ _); [|apply preserves_throw]].
  - apply preserves_bind; [intros st; apply R_result|]. intros _.
    apply preserves_bind; [|intros _; apply preserves_bind;
                             [intros st; apply R_refl | intros st; apply preserves_ret]].
    apply preserves_try_catch.
    + apply preserves_bind; [intros st; apply R_emit|]. intros data.
      apply preserves_bind; [apply preserves_bump|]. intros _. apply preserves_chapters.
    + intros e. destruct (is_rate_limit_error e); [apply preserves_bump | apply preserves_throw].
  - apply preserves_bind; [intros st; apply R_result|]. intros _.
    apply preserves_bind; [|intros _; apply preserves_bind;
                             [intros st; apply R_refl | intros st; apply preserves_ret]].
    apply preserves_try_catch; [|intros e; apply preserves_bump].
    apply preserves_bind; [intros st; apply R_emit|]. intros data.
    apply preserves_bind; [apply preserves_bump|]. intros _. apply preserves_releases.
Qed.

Lemma preserves_complete (env : Env) (id : string) (p : PartialCounts) (error : option string) :
  preserves R (completeIngestRun env id p error).
Proof.
  unfold completeIngestRun. apply preserves_bind; [apply preserves_date_now|]. intros now.
  apply preserves_storage. intros st. destruct (existsb _ _); cbn [snd]; [|apply R_refl].
  eapply R_trans; [apply R_runs | apply R_emit].
Qed.

Lemma preserves_processFeedIngest (env : Env) (job : FeedIngestJobData) :
  preserves R (processFeedIngest env job).
Proof.
  unfold processFeedIngest.
  apply preserves_bind; [apply preserves_date_now|]. intros startTime.
  apply preserves_bind.
  { intros st. unfold checkQueueHealth. destruct (getTotalQueueDepth env); apply R_refl. }
  intros health. destruct (negb (fst health)).
  { apply preserves_bind; [apply preserves_date_now|]. intros now. apply preserves_ret. }
  apply preserves_bind.
  { unfold createIngestRun. apply preserves_storage. intros st. cbn [snd].
    eapply R_trans; [apply R_runs | apply R_emit]. }
  intros run. apply preserves_try_catch.
  - apply preserves_bind; [apply preserves_ingest_of|]. intros res.
    apply preserves_bind; [apply preserves_date_now|]. intros now. cbn zeta.
    apply preserves_bind; [apply preserves_complete|]. intros _. apply preserves_ret.
  - intros e. cbn zeta.
    apply preserves_bind; [apply preserves_complete|]. intros _. apply preserves_throw.
Qed.

End Preserved.

(** *** Idempotency keys stay unique *)

Lemma events_kept_same (st st' : State) : events st' = events st -> events_kept st st'.
Proof. intros E. split; [exists []; by rewrite app_nil_r | by rewrite E]. Qed.

Lemma events_kept_trans (a b c : State) : events_kept a b -> events_kept b c -> events_kept a c.
Proof.
  intros [(x & Hx) Hu] [(y & Hy) Hv]. split; [|auto].
  exists (x ++ y)%list. by rewrite Hy, Hx, app_assoc.
Qed.

Lemma key_count_app (row : EventRow) (a b : list EventRow) :
  key_count row (a ++ b) = (key_count row a + key_count row b)%nat.
Proof. unfold key_count. by rewrite List.filter_app, length_app. Qed.

Lemma same_key_sym (a b : EventRow) : same_key a b = same_key b a.
Proof.
  unfold same_key.
  by rewrite (String.eqb_sym (ev_series_id a)), (String.eqb_sym (ev_chapter_number a)),
    (String.eqb_sym (ev_source_name a)), (String.eqb_sym (ev_external_event_id a)).
Qed.

Lemma events_kept_insert (row : EventRow) (st : State) :
  existsb (same_key row) (events st) = false ->
  events_kept st (set_events (events st ++ [row]) st).
Proof.
  intros Hnew. split; [by exists [row]|]. cbn [events set_events].
  intros Hu r. rewrite key_count_app. unfold key_count at 2. cbn [List.filter].
  destruct (same_key r row) eqn:E; cbn [length]; [|specialize (Hu r); lia].
  unfold key_count. rewrite (same_key_filter row r) by by rewrite same_key_sym.
  rewrite (filter_none _ _ Hnew). cbn. lia.
Qed.

(** X2.  Whatever the feed returns and whichever statements fail, a run
    of the processor only appends to the event table, and a table
    without duplicate idempotency keys is still without duplicates
    after the run. *)
Theorem run_keeps_keys_unique :
  forall (env : Env) (job : FeedIngestJobData) (st : State),
    unique_keys (events st) ->
    unique_keys (events (snd (processFeedIngest env job st))) /\
    exists added, events (snd (processFeedIngest env job st)) = (events st ++ added)%list.
Proof.
  intros env job st Hu.
  assert (H : events_kept st (snd (processFeedIngest env job st))).
  { apply (preserves_processFeedIngest events_kept); clear.
    - intros st. by apply events_kept_same.
    - apply events_kept_trans.
    - intros st. by apply events_kept_same.
    - intros st. by apply events_kept_same.
    - intros c st. by apply events_kept_same.
    - apply events_kept_insert.
    - intros id ts st. by apply events_kept_same.
    - intros e st. by apply events_kept_same.
    - intros rs st. by apply events_kept_same. }
  destruct H as [Ha Hk]. split; [by apply Hk | exact Ha].
Qed.

Lemma run_keeps_keys_unique_witness :
  unique_keys (events (snd (processFeedIngest one_chapter_env (mkJob "mangadex" TierA None)
                              one_series))).
Proof.
  apply (run_keeps_keys_unique one_chapter_env (mkJob "mangadex" TierA None) one_series).
  intros row. cbn. lia.
Defined.

(** *** Watermarks only move forward *)

Lemma row_advanced_refl (r : SeriesRow) : row_advanced r r.
Proof. repeat split; auto using wm_le_refl. Qed.

Lemma row_advanced_trans (a b c : SeriesRow) :
  row_advanced a b -> row_advanced b c -> row_advanced a c.
Proof.
  intros (H1 & H2 & H3 & H4 & H5) (K1 & K2 & K3 & K4 & K5).
  split; [congruence|]. split; [congruence|]. split; [congruence|].
  split; [by eapply wm_le_trans|].
  intros Hd. rewrite (K5 ltac:(congruence)). by apply H5.
Qed.

Lemma row_advanced_update (id : string) (ts : Z) (r : SeriesRow) :
  row_advanced r (update_row id ts r).
Proof.
  unfold update_row.
  destruct (String.eqb (series_id r) id); cbn [andb]; [|apply row_advanced_refl].
  destruct (bool_decide (deleted_at r = None)) eqn:E; [|apply row_advanced_refl].
  apply bool_decide_eq_true in E.
  repeat split; cbn; [apply wm_le_greatest | congruence].
Qed.

Lemma series_advanced_same (st st' : State) : series st' = series st -> series_advanced st st'.
Proof.
  intros E. unfold series_advanced. rewrite E. clear E.
  induction (series st); constructor; auto using row_advanced_refl.
Qed.

Lemma series_advanced_trans (a b c : State) :
  series_advanced a b -> series_advanced b c -> series_advanced a c.
Proof.
  unfold series_advanced. generalize (series a) (series b) (series c). clear.
  intros x y z H. revert z. induction H as [|r r' l l' Hr _ IH]; intros z Hz.
  - by inversion Hz.
  - inversion Hz; subst. constructor; [by eapply row_advanced_trans | by apply IH].
Qed.

(** X3.  Whatever the feed returns and whichever statements fail, a run
    of the processor keeps every series row in place with its
    identifiers and soft-delete mark, never lowers a watermark, and
    leaves soft-deleted rows exactly as they were. *)
Theorem run_never_lowers_a_watermark :
  forall (env : Env) (job : FeedIngestJobData) (st : State),
    Forall2 row_advanced (series st) (series (snd (processFeedIngest env job st))).
Proof.
  intros env job st.
  apply (preserves_processFeedIngest series_advanced); clear.
  - intros st. by apply series_advanced_same.
  - apply series_advanced_trans.
  - intros st. by apply series_advanced_same.
  - intros st. by apply series_advanced_same.
  - intros c st. by apply series_advanced_same.
  - intros row st _. by apply series_advanced_same.
  - intros id ts st. unfold series_advanced. cbn [series set_series].
    induction (series st); constructor; auto using row_advanced_update.
  - intros e st. by apply series_advanced_same.
  - intros rs st. by apply series_advanced_same.
Qed.

(** *** Counting *)

Lemma items_counted_none (st st' : State) :
  result st' = result st -> events st' = events st -> items_counted 0 st st'.
Proof. intros Hr He. unfold items_counted. rewrite Hr, He. lia. Qed.

Lemma items_counted_trans (n m : nat) (a b c : State) :
  items_counted n a b -> items_counted m b c -> items_counted (n + m) a c.
Proof. unfold items_counted. lia. Qed.

Ltac count_cases :=
  repeat (case_match; simplify_eq/=);
  (split; [done|]); unfold items_counted, accounted; cbn;
  rewrite ?length_app; cbn; lia.

Lemma persist_counts (env : Env) (row : EventRow) (snap : option Z) (st : State) :
  fst (persist_observation env row snap st) = Normal tt /\
  items_counted 1 st (snd (persist_observation env row snap st)).
Proof.
  unfold persist_observation, try_catch, bind, event_create, series_advance, storage,
    bump, modify, ret.
  count_cases.
Qed.

Lemma chapter_counts (env : Env) (ch : MdChapter) (st : State) :
  fst (process_chapter env ch st) = Normal tt /\
  items_counted 1 st (snd (process_chapter env ch st)).
Proof.
  unfold process_chapter, try_catch, bind.
  destruct (List.find _ (md_relationships ch)) as [rel|]; [|unfold bump, modify; count_cases].
  unfold series_findUnique, storage.
  destruct (storage_fault env (stmt_no st)); [unfold bump, modify; count_cases|].
  cbn [series next_stmt]. destruct (List.find _ (series st)) as [s|];
    [|unfold bump, modify; count_cases].
  unfold date_now.
  match goal with |- context [persist_observation env ?r ?sn ?s0] =>
    destruct (persist_counts env r sn s0) as [Hn Hc];
    destruct (persist_observation env r sn s0) as [c st1] end.
  cbn [fst snd] in *. subst c. split; [done|].
  unfold items_counted in *. cbn in Hc. exact Hc.
Qed.

Lemma release_counts (env : Env) (r : MuRelease) (st : State) :
  fst (process_release env r st) = Normal tt /\
  items_counted 1 st (snd (process_release env r st)).
Proof.
  unfold process_release. destruct (mu_series r) as [[sid snap]|]; [apply persist_counts|].
  unfold bump, modify. count_cases.
Qed.

Lemma for_each_counts {A : Type} (body : A -> M State unit) (l : list A) (st : State) :
  (forall x s, fst (body x s) = Normal tt /\ items_counted 1 s (snd (body x s))) ->
  fst (for_each body l st) = Normal tt /\
  items_counted (length l) st (snd (for_each body l st)).
Proof.
  intros Hb. revert st. induction l as [|x l IH]; intros st.
  - split; [done|]. by apply items_counted_none.
  - cbn [for_each length]. unfold bind. destruct (Hb x st) as [Hn Hc].
    destruct (body x st) as [c st1]. cbn [fst snd] in *. subst c.
    destruct (IH st1) as [Hn' Hc']. split; [done|].
    change (S (length l)) with (1 + length l)%nat. by eapply items_counted_trans.
Qed.

Lemma chapters_leave_trace (env : Env) (l : list MdChapter) (st : State) :
  trace (snd (for_each (process_chapter env) l st)) = trace st.
Proof.
  apply (preserves_for_each same_trace); unfold same_trace; try done; try congruence.
  intros ch. apply preserves_process_chapter; unfold same_trace; try done; congruence.
Qed.

Lemma releases_leave_trace (env : Env) (rs : list MuRelease) (st : State) :
  trace (snd (for_each (process_release env) rs st)) = trace st.
Proof.
  apply (preserves_releases same_trace); unfold same_trace; try done; congruence.
Qed.

(** What [ingestMangaDexChapters] does, by the answer of the client. *)
Lemma mangadex_ingest_run (env : Env) (run : string) (t : FeedIngestTier) (lim : Z) (st : State) :
  let st0 := emit (AdapterFetch (Z.min lim 100)) (set_result zero_counts st) in
  ingestMangaDexChapters env run t lim st =
    match fetchLatestChapters env (Z.min lim 100) with
    | Normal data =>
        let st1 := snd (for_each (process_chapter env) data
                          (set_result (set_fetched (length data) zero_counts) st0)) in
        (Normal (result st1), st1)
    | Throw e =>
        if is_rate_limit_error e
        then (Normal (inc_rate_limit_hits zero_counts),
              set_result (inc_rate_limit_hits zero_counts) st0)
        else (Throw e, st0)
    end.
Proof.
  intros st0.
  unfold ingestMangaDexChapters;
    unfold bind at 1; unfold modify at 1; unfold bind at 1; unfold try_catch at 1;
    unfold bind at 1; unfold adapter_fetch at 1.
  destruct (fetchLatestChapters env (Z.min lim 100)) as [data|e].
  - unfold bind at 1. unfold bump at 1, modify at 1.
    rewrite for_each_batches.
    match goal with |- context [for_each (process_chapter env) data ?s] =>
      destruct (for_each_counts (process_chapter env) data s (chapter_counts env)) as [Hn _];
      change s with (set_result (set_fetched (length data) zero_counts) st0) in *;
      destruct (for_each (process_chapter env) data
                  (set_result (set_fetched (length data) zero_counts) st0)) as [c st1]
    end.
    cbn [fst snd] in *. by subst c.
  - destruct (is_rate_limit_error e); reflexivity.
Qed.

(** What [ingestMangaUpdatesReleases] does, by the answer of the query. *)
Lemma mangaupdates_ingest_run (env : Env) (run : string) (t : FeedIngestTier) (lim : Z)
    (st : State) :
  let st0 := emit (ReleaseQuery lim) (set_result zero_counts st) in
  ingestMangaUpdatesReleases env run t lim st =
    match findManyReleases env lim with
    | Normal data =>
        let st1 := snd (for_each (process_release env) data
                          (set_result (set_fetched (length data) zero_counts) st0)) in
        (Normal (result st1), st1)
    | Throw e =>
        (Normal (inc_errors zero_counts), set_result (inc_errors zero_counts) st0)
    end.
Proof.
  intros st0.
  unfold ingestMangaUpdatesReleases;
    unfold bind at 1; unfold modify at 1; unfold bind at 1; unfold try_catch at 1;
    unfold bind at 1; unfold release_query at 1.
  destruct (findManyReleases env lim) as [data|e]; [|reflexivity].
  unfold bind at 1. unfold bump at 1, modify at 1.
  match goal with |- context [for_each (process_release env) data ?s] =>
    destruct (for_each_counts (process_release env) data s (release_counts env)) as [Hn _];
    change s with (set_result (set_fetched (length data) zero_counts) st0) in *;
    destruct (for_each (process_release env) data
                (set_result (set_fetched (length data) zero_counts) st0)) as [c st1]
  end.
  cbn [fst snd] in *. by subst c.
Qed.

(** The selected ingest function, by source and answer. *)
Lemma ingest_of_run (env : Env) (job : FeedIngestJobData) (id : string) (st : State) :
  let lim := default MAX_EVENTS_PER_RUN (limit job) in
  let fetched (call : Effect) (n : nat) :=
    set_result (set_fetched n zero_counts) (emit call (set_result zero_counts st)) in
  ingest_of env job id st =
    if String.eqb (source job) "mangadex"
    then match fetchLatestChapters env (Z.min lim 100) with
         | Normal data =>
             let st1 := snd (for_each (process_chapter env) data
                               (fetched (AdapterFetch (Z.min lim 100)) (length data))) in
             (Normal (result st1), st1)
         | Throw e =>
             if is_rate_limit_error e
             then (Normal (inc_rate_limit_hits zero_counts),
                   set_result (inc_rate_limit_hits zero_counts)
                     (emit (AdapterFetch (Z.min lim 100)) (set_result zero_counts st)))
             else (Throw e, emit (AdapterFetch (Z.min lim 100)) (set_result zero_counts st))
         end
    else if String.eqb (source job) "mangaupdates"
    then match findManyReleases env lim with
         | Normal data =>
             let st1 := snd (for_each (process_release env) data
                               (fetched (ReleaseQuery lim) (length data))) in
             (Normal (result st1), st1)
         | Throw e =>
             (Normal (inc_errors zero_counts),
              set_result (inc_errors zero_counts)
                (emit (ReleaseQuery lim) (set_result zero_counts st)))
         end
    else (Throw (unknown_source (source job)), st).
Proof.
  intros lim fetched. unfold ingest_of. fold lim.
  destruct (String.eqb (source job) "mangadex"); [apply mangadex_ingest_run|].
  destruct (String.eqb (source job) "mangaupdates"); [apply mangaupdates_ingest_run|done].
Qed.

(** X4.  The counters of an ingest function that returns: every fetched
    item is counted as created, skipped or failed (none is lost), no
    more events are created than were fetched, the watermark is
    advanced at most once per created event, at most one rate-limit hit
    is recorded, and the event table has grown by exactly
    [events_created] rows. *)
Theorem counters_account_for_every_item :
  forall (env : Env) (job : FeedIngestJobData) (id : string) (st st' : State) (c : Counts),
    ingest_of env job id st = (Normal c, st') ->
    (events_fetched c <= events_created c + events_skipped c + errors c)%nat /\
    (series_updated c <= events_created c)%nat /\
    (events_created c <= events_fetched c)%nat /\
    (rate_limit_hits c <= 1)%nat /\
    length (events st') = (length (events st) + events_created c)%nat.
Proof.
  intros env job id st st' c. rewrite ingest_of_run. cbn zeta.
  destruct (String.eqb (source job) "mangadex").
  - destruct (fetchLatestChapters env _) as [data|e].
    + match goal with |- context [for_each ?b data ?s] =>
        destruct (for_each_counts b data s (chapter_counts env)) as [_ Hc] end.
      intros [= <- <-]. unfold items_counted, accounted in Hc. cbn in Hc. lia.
    + destruct (is_rate_limit_error e); [|done].
      intros [= <- <-]. cbn. lia.
  - destruct (String.eqb (source job) "mangaupdates"); [|done].
    destruct (findManyReleases env _) as [data|e].
    + match goal with |- context [for_each ?b data ?s] =>
        destruct (for_each_counts b data s (release_counts env)) as [_ Hc] end.
      intros [= <- <-]. unfold items_counted, accounted in Hc. cbn in Hc. lia.
    + intros [= <- <-]. cbn. lia.
Qed.

Lemma counters_account_witness :
  length (events (snd (ingest_of one_chapter_env (mkJob "mangadex" TierA None) "run-1"
                         one_series))) = 1%nat.
Proof.
  exact (proj2 (proj2 (proj2 (proj2
    (counters_account_for_every_item one_chapter_env (mkJob "mangadex" TierA None) "run-1"
       one_series
       (snd (ingest_of one_chapter_env (mkJob "mangadex" TierA None) "run-1" one_series))
       (mkCounts 1 1 0 1 0 0) eq_refl))))).
Defined.

(** *** When the store never fails *)

Section FaultFree.

Variable env : Env.
Hypothesis storage_up : forall k, storage_fault env k = None.

Lemma persist_exact (row : EventRow) (snap : option Z) (st : State) :
  items_exact 1 st (snd (persist_observation env row snap st)).
Proof.
  unfold persist_observation, try_catch, bind, event_create, series_advance, storage,
    bump, modify, ret.
  rewrite !storage_up. cbn [events next_stmt]. unfold items_exact.
  destruct (existsb _ _); [cbn; lia|]. cbn.
  destruct (shouldUpdate _ _); cbn; [rewrite storage_up; cbn|]; lia.
Qed.

Lemma chapter_exact (ch : MdChapter) (st : State) :
  items_exact 1 st (snd (process_chapter env ch st)).
Proof.
  unfold process_chapter, try_catch, bind.
  destruct (List.find _ (md_relationships ch)) as [rel|];
    [|unfold items_exact; cbn; lia].
  unfold series_findUnique, storage. rewrite storage_up.
  cbn [series next_stmt]. destruct (List.find _ (series st)) as [s|];
    [|unfold items_exact; cbn; lia].
  unfold date_now.
  match goal with |- context [persist_observation env ?r ?sn ?s0] =>
    pose proof (persist_exact r sn s0) as Hc;
    destruct (persist_counts env r sn s0) as [Hn _];
    destruct (persist_observation env r sn s0) as [c st1] end.
  cbn [fst snd] in *. subst c. unfold items_exact in *. cbn in Hc. exact Hc.
Qed.

Lemma release_exact (r : MuRelease) (st : State) :
  items_exact 1 st (snd (process_release env r st)).
Proof.
  unfold process_release. destruct (mu_series r) as [[sid snap]|]; [apply persist_exact|].
  unfold items_exact. cbn. lia.
Qed.

Lemma for_each_exact {A : Type} (body : A -> M State unit) (l : list A) (st : State) :
  (forall x s, fst (body x s) = Normal tt) ->
  (forall x s, items_exact 1 s (snd (body x s))) ->
  items_exact (length l) st (snd (for_each body l st)).
Proof.
  intros Hn Hb. revert st. induction l as [|x l IH]; intros st.
  - unfold items_exact. cbn. lia.
  - cbn [for_each length]. unfold bind. specialize (Hn x st). specialize (Hb x st).
    destruct (body x st) as [c st1]. cbn [fst snd] in *. subst c.
    specialize (IH st1). unfold items_exact in *. lia.
Qed.

End FaultFree.

(** X5.  With a store that never fails on its own, an ingest function
    that returns has counted every fetched item exactly once, as created
    or as skipped; no error is counted, except the single one of a
    release query that failed. *)
Theorem fault_free_counts_are_exact :
  forall (env : Env) (job : FeedIngestJobData) (id : string) (st st' : State) (c : Counts),
    (forall k, storage_fault env k = None) ->
    ingest_of env job id st = (Normal c, st') ->
    (events_created c + events_skipped c)%nat = events_fetched c /\
    (errors c = 0%nat \/ c = mkCounts 0 0 0 0 1 0).
Proof.
  intros env job id st st' c Hup. rewrite ingest_of_run. cbn zeta.
  destruct (String.eqb (source job) "mangadex").
  - destruct (fetchLatestChapters env _) as [data|e].
    + match goal with |- context [for_each ?b data ?s] =>
        pose proof (for_each_exact b data s
                      (fun x0 s0 => proj1 (chapter_counts env x0 s0))
                      (chapter_exact env Hup)) as Hc;
        destruct (for_each_counts b data s (chapter_counts env)) as [_ Hf] end.
      intros [= <- <-]. unfold items_exact, items_counted in *. cbn in Hc, Hf.
      split; [lia | left; lia].
    + destruct (is_rate_limit_error e); [|done].
      intros [= <- <-]. cbn. by split; [|left].
  - destruct (String.eqb (source job) "mangaupdates"); [|done].
    destruct (findManyReleases env _) as [data|e].
    + match goal with |- context [for_each ?b data ?s] =>
        pose proof (for_each_exact b data s
                      (fun x0 s0 => proj1 (release_counts env x0 s0))
                      (release_exact env Hup)) as Hc;
        destruct (for_each_counts b data s (release_counts env)) as [_ Hf] end.
      intros [= <- <-]. unfold items_exact, items_counted in *. cbn in Hc, Hf.
      split; [lia | left; lia].
    + intros [= <- <-]. cbn. by split; [|right].
Qed.

Lemma fault_free_counts_witness :
  exists c st',
    ingest_of one_chapter_env (mkJob "mangadex" TierA None) "run-1" one_series = (Normal c, st') /\
    (events_created c + events_skipped c)%nat = events_fetched c.
Proof.
  eexists _, _. split; [reflexivity|].
  exact (proj1 (fault_free_counts_are_exact one_chapter_env (mkJob "mangadex" TierA None)
                  "run-1" one_series _ _ (fun _ => eq_refl) eq_refl)).
Defined.

(** X6.  Each ingest makes exactly one upstream request: the MangaDex
    client is asked for at most 100 chapters whatever limit the job
    carries, the release query takes the limit of the job as it is, and
    a job without a limit asks for 100.  Handling the items adds no
    outside call. *)
Theorem one_upstream_request_per_ingest :
  forall (env : Env) (job : FeedIngestJobData) (id : string) (st : State),
    let lim := default MAX_EVENTS_PER_RUN (limit job) in
    trace (snd (ingest_of env job id st)) =
      (trace st ++
       (if String.eqb (source job) "mangadex" then [AdapterFetch (Z.min lim 100)]
        else if String.eqb (source job) "mangaupdates" then [ReleaseQuery lim]
        else []))%list /\
    Z.min lim 100 <= 100 /\
    (limit job = None -> lim = 100).
Proof.
  intros env job id st lim. split; [|split; [lia | intros E; subst lim; by rewrite E]].
  rewrite ingest_of_run. cbn zeta. fold lim.
  destruct (String.eqb (source job) "mangadex").
  - destruct (fetchLatestChapters env _) as [data|e].
    + cbn [snd]. by rewrite chapters_leave_trace.
    + by destruct (is_rate_limit_error e).
  - destruct (String.eqb (source job) "mangaupdates"); [|cbn; by rewrite app_nil_r].
    destruct (findManyReleases env _) as [data|e]; [|done].
    cbn [snd]. by rewrite releases_leave_trace.
Qed.

(** X7.  [ingestMangaUpdatesReleases] never throws, whatever the release
    query and the storage statements do.  A failing query is counted as
    one error, with nothing fetched and no table touched. *)
Theorem mangaupdates_ingest_never_throws :
  forall (env : Env) (run : string) (t : FeedIngestTier) (lim : Z) (st : State),
    exists c st',
      ingestMangaUpdatesReleases env run t lim st = (Normal c, st') /\
      (forall e, findManyReleases env lim = Throw e ->
         c = mkCounts 0 0 0 0 1 0 /\ events st' = events st /\ series st' = series st).
Proof.
  intros env run t lim st. rewrite mangaupdates_ingest_run. cbn zeta.
  destruct (findManyReleases env lim) as [data|e].
  - eexists _, _. split; [reflexivity | done].
  - eexists _, _. split; [reflexivity|]. intros e' _. done.
Qed.

(** X8.  [ingestMangaDexChapters] throws exactly when the client call
    threw an error that is not recognised as a rate limit, and then it
    throws that error with no table touched; no failure while handling a
    chapter (lookup, insert, watermark update) ever aborts the run. *)
Theorem mangadex_ingest_throws_only_adapter_errors :
  forall (env : Env) (run : string) (t : FeedIngestTier) (lim : Z) (st : State) (e : Thrown),
    (fst (ingestMangaDexChapters env run t lim st) = Throw e <->
     fetchLatestChapters env (Z.min lim 100) = Throw e /\ is_rate_limit_error e = false) /\
    (fst (ingestMangaDexChapters env run t lim st) = Throw e ->
     events (snd (ingestMangaDexChapters env run t lim st)) = events st /\
     series (snd (ingestMangaDexChapters env run t lim st)) = series st).
Proof.
  intros env run t lim st e. rewrite mangadex_ingest_run. cbn zeta.
  destruct (fetchLatestChapters env (Z.min lim 100)) as [data|e0].
  - cbn [fst]. split; [split; [done | by intros [? _]] | done].
  - destruct (is_rate_limit_error e0) eqn:E; cbn [fst snd].
    + split; [split; [done|] | done]. intros [[= ->] E']. congruence.
    + split; [split|].
      * by intros [= ->].
      * by intros [[= ->] _].
      * done.
Qed.

(** X9.  An observation whose event row was inserted and whose watermark
    update then failed is counted twice: once as created, and once more
    as an error, or as skipped when the text of the failure mentions
    [Unique constraint].  The event row stays. *)
Theorem failed_advance_counts_item_twice :
  forall (env : Env) (row : EventRow) (snap : option Z) (st : State) (e : Thrown),
    storage_fault env (stmt_no st) = None ->
    existsb (same_key row) (events st) = false ->
    shouldUpdate snap (ev_discovered_at row) = true ->
    storage_fault env (S (stmt_no st)) = Some e ->
    let st' := snd (persist_observation env row snap st) in
    fst (persist_observation env row snap st) = Normal tt /\
    events st' = (events st ++ [row])%list /\
    series st' = series st /\
    result st' =
      (if is_unique_constraint_error e then inc_skipped else inc_errors)
        (inc_created (result st)).
Proof.
  intros env row snap st e Hok Hnew Hsu Hfail.
  unfold persist_observation, try_catch, bind, event_create, series_advance, storage,
    bump, modify, ret.
  rewrite Hok. cbn [events next_stmt stmt_no set_events set_result]. rewrite Hnew, Hsu.
  cbn. rewrite Hfail. by destruct (is_unique_constraint_error e).
Qed.

Lemma failed_advance_witness :
  result (snd (persist_observation flaky_advance_env demo_row None empty_state))
  = mkCounts 0 1 0 0 1 0.
Proof.
  exact (proj2 (proj2 (proj2
    (failed_advance_counts_item_twice flaky_advance_env demo_row None empty_state
       (JsError StorageUnavailable "connection reset") eq_refl eq_refl eq_refl eq_refl)))).
Defined.


Lemma release_query_failure_witness :
  exists res st',
    processFeedIngest query_down_env (mkJob "mangaupdates" TierB None) empty_state
    = (Normal res, st') /\
    counts res = mkCounts 0 0 0 0 1 0.
Proof.
  destruct (release_query_failure_is_contained query_down_env (mkJob "mangaupdates" TierB None)
              empty_state 12 (JsError StorageUnavailable "connection refused")
              eq_refl eq_refl eq_refl eq_refl eq_refl)
    as (res & st' & Hp & Hc & _).
  exists res, st'. split; [exact Hp | exact Hc].
Defined.

End FeedIngestRunFacts.

(** ** Paging, series ids and lock keys *)

Module ChaptersRouteFacts.

Import Js JsParse Eff OnDemandSync ChaptersRoute.


(** *** Pages *)

Lemma windows_concat {A : Type} (rows : list A) (n k : nat) :
  concat (List.map (fun p => take n (drop ((p - 1) * n) rows)) (seq 1 k)) = take (k * n) rows.
Proof.
  induction k as [|k IH]; [done|].
  rewrite seq_S, List.map_app, concat_app, IH. cbn [List.map concat Nat.add].
  rewrite app_nil_r. replace (S k - 1)%nat with k by lia.
  rewrite take_take_drop. f_equal. lia.
Qed.

Lemma total_pages_bounds (total limit : Z) :
  0 < limit -> 0 <= total ->
  total <= total_pages total limit * limit < total + limit.
Proof.
  intros Hl Ht. unfold total_pages.
  pose proof (Z.div_mod (- total) limit ltac:(lia)) as Hdm.
  pose proof (Z.mod_pos_bound (- total) limit Hl) as Hm. nia.
Qed.

Lemma window_as_nat {A : Type} (rows : list A) (p : nat) (lim : Z) :
  (1 <= p)%nat -> 0 < lim ->
  window rows (mkPaging (Z.of_nat p) lim)
  = take (Z.to_nat lim) (drop ((p - 1) * Z.to_nat lim) rows).
Proof.
  intros Hp Hl. unfold window, skip_of. cbn [page limit]. do 2 f_equal.
  rewrite Z2Nat.inj_mul by lia. f_equal. lia.
Qed.

(** X11.  The pages of a listing tile it: with [limit >= 1], pages
    1, 2, ..., [total_pages] of the window [skip = (page - 1) * limit,
    take = limit], put one after the other, are the matching rows in
    order, each row on exactly one page; no page holds more than
    [limit] rows, every page after [total_pages = ceil(total / limit)]
    is empty, and the last of them is not. *)
Theorem pages_tile_the_listing :
  forall (A : Type) (rows : list A) (lim : Z),
    1 <= lim ->
    let total := Z.of_nat (length rows) in
    let pages := Z.to_nat (total_pages total lim) in
    concat (List.map (fun p => window rows (mkPaging (Z.of_nat p) lim)) (seq 1 pages)) = rows /\
    (forall p : Z, 1 <= p -> Z.of_nat (length (window rows (mkPaging p lim))) <= lim) /\
    (forall p : Z, total_pages total lim < p -> window rows (mkPaging p lim) = []) /\
    (rows <> [] -> window rows (mkPaging (total_pages total lim) lim) <> []).
Proof.
  intros A rows lim Hl total pages.
  pose proof (total_pages_bounds total lim ltac:(lia) ltac:(lia)) as Hb.
  assert (Hpos : 0 <= total_pages total lim) by nia.
  split; [|split; [|split]].
  - rewrite (map_ext_in _ (fun p => take (Z.to_nat lim) (drop ((p - 1) * Z.to_nat lim) rows))).
    + rewrite windows_concat. apply take_ge. subst pages total. nia.
    + intros p Hp. apply in_seq in Hp. apply window_as_nat; lia.
  - intros p Hp. unfold window. rewrite length_take. cbn [limit]. lia.
  - intros p Hp. unfold window, skip_of. cbn [page limit].
    rewrite drop_ge; [by rewrite take_nil|]. subst total. nia.
  - intros Hne. unfold window, skip_of. cbn [page limit].
    assert (Hlen : (0 < length rows)%nat) by (destruct rows; [done | cbn; lia]).
    intros E. apply (f_equal length) in E. rewrite length_take, length_drop in E.
    cbn [length] in E. subst total. nia.
Qed.

Lemma pages_tile_witness :
  concat (List.map (fun p => window [1; 2; 3; 4; 5] (mkPaging (Z.of_nat p) 2)) (seq 1 3))
  = [1; 2; 3; 4; 5].
Proof.
  exact (proj1 (pages_tile_the_listing Z [1; 2; 3; 4; 5] 2 ltac:(lia))).
Defined.

(** *** Series ids and lock keys *)

Lemma hex_digit_facts (c : ascii) (d : Z) :
  hex_digit c = Some d ->
  0 <= d < 16 /\ Ascii.eqb c "-"%char = false /\
  Ascii.eqb c "x"%char = false /\ Ascii.eqb c "X"%char = false.
Proof.
  destruct c as [[] [] [] [] [] [] [] []]; vm_compute; intros H;
    try discriminate H; injection H as <-; repeat split; try done.
Qed.

Lemma parseInt16_hex (c : ascii) (d : Z) (rest : string) :
  hex_digit c = Some d ->
  parseInt16 (String c rest) = hex_prefix (strip_0x (String c rest)) None.
Proof.
  intros H. unfold parseInt16.
  assert (Hs : skip_spaces (String c rest) = String c rest).
  { cbn [skip_spaces].
    destruct c as [[] [] [] [] [] [] [] []]; try done; vm_compute in H; discriminate H. }
  rewrite Hs.
  destruct c as [[] [] [] [] [] [] [] []]; try reflexivity; vm_compute in H; discriminate H.
Qed.

Lemma strip_0x_hex (c1 c2 : ascii) (rest : string) :
  Ascii.eqb c2 "x"%char = false -> Ascii.eqb c2 "X"%char = false ->
  strip_0x (String c1 (String c2 rest)) = String c1 (String c2 rest).
Proof.
  intros H1 H2. unfold strip_0x.
  destruct c1 as [[] [] [] [] [] [] [] []]; try reflexivity. by rewrite H1, H2.
Qed.

Lemma matches_cons (k : CharClass) (p : list CharClass) (s : string) :
  matches (k :: p) s = true ->
  exists c s', s = String c s' /\ in_class k c = true /\ matches p s' = true.
Proof.
  destruct s as [|c s']; cbn [matches]; [done|].
  intros H. apply andb_prop in H as [H1 H2]. by exists c, s'.
Qed.

Lemma hex_class (c : ascii) :
  in_class HexDigit c = true ->
  exists d, hex_digit c = Some d /\ 0 <= d < 16 /\ Ascii.eqb c "-"%char = false /\
            Ascii.eqb c "x"%char = false /\ Ascii.eqb c "X"%char = false.
Proof.
  unfold in_class. intros H. apply bool_decide_eq_true in H as [d Hd].
  exists d. split; [done|]. by apply hex_digit_facts.
Qed.

(** The lock key of a string that starts with eight hexadecimal digits
    and a dash. *)
Lemma lockId_of_prefix (sid : string) :
  matches (replicate 8 HexDigit ++ [Dash]) (String.substring 0 9 sid) = true ->
  exists key,
    lockId_of sid = Some key /\ 0 <= key < 4294967296 /\
    lockId_of sid = hex_prefix (String.substring 0 8 sid) None.
Proof.
  intros H.
  destruct sid as [|c1 [|c2 [|c3 [|c4 [|c5 [|c6 [|c7 [|c8 [|c9 rest]]]]]]]]];
    cbn [String.substring replicate app] in H;
    repeat (apply matches_cons in H as (? & ? & [= <- <-] & ? & H)); try discriminate H;
    try (apply matches_cons in H as (? & ? & [=] & _)).
  repeat match goal with
         | Hc : in_class HexDigit ?c = true |- _ =>
             apply hex_class in Hc as (? & ? & ? & ? & ? & ?)
         end.
  match goal with Hd : in_class Dash _ = true |- _ => cbn [in_class] in Hd end.
  unfold lockId_of. cbn [remove_dashes String.substring].
  repeat match goal with E : Ascii.eqb _ "-"%char = _ |- _ => rewrite E; clear E end.
  cbn [String.substring].
  erewrite parseInt16_hex by eassumption.
  rewrite strip_0x_hex by assumption.
  assert (H00 : forall t, String.substring 0 0 t = EmptyString) by by intros [].
  rewrite H00. cbn [hex_prefix].
  repeat match goal with E : hex_digit _ = Some _ |- _ => rewrite E; clear E end.
  cbn [hex_prefix default from_option id]. eexists. split; [reflexivity|].
  split; [lia | reflexivity].
Qed.

Lemma matches_app_prefix (p q : list CharClass) (s : string) :
  matches (p ++ q) s = true -> matches p (String.substring 0 (length p) s) = true.
Proof.
  revert s. induction p as [|k p IH]; intros s H.
  - by destruct s.
  - cbn [app] in H. apply matches_cons in H as (c & s' & -> & Hk & H).
    cbn [length String.substring matches]. rewrite Hk. cbn. by apply IH.
Qed.

Lemma matches_length (p : list CharClass) (s : string) :
  matches p s = true -> String.length s = length p.
Proof.
  revert s. induction p as [|k p IH]; intros [|c s] H; try done.
  cbn [matches] in H. apply andb_prop in H as [_ H]. cbn. f_equal. by apply IH.
Qed.

(** With a lock key, the function prints no invalid-id line. *)
Lemma keyed_sync_console (clb : Collaborators) (F : Faults) (sid : string) (key : Z) (w : World) :
  lockId_of sid = Some key ->
  exists added,
    console (snd (performOnDemandSync clb F sid w)) = (console w ++ added)%list /\
    Forall (fun l => l <> InvalidLockId sid) added.
Proof.
  intros Hk.
  unfold performOnDemandSync, try_catch, try_finally, bind, pg_try_advisory_lock,
    release, pg_advisory_unlock, log, modify.
  rewrite Hk.
  destruct (lock_fault F) as [e|].
  { eexists [_]. split; [done|]. by repeat constructor. }
  destruct (bool_decide (key ∈ locks w)).
  { eexists [_]. split; [done|]. by repeat constructor. }
  cbn [lock_refused negb].
  match goal with |- context [guarded clb F sid ?w0] =>
    destruct (guarded clb F sid w0) as [c w1] eqn:Hg end.
  destruct (OnDemandSyncFacts.guarded_frame _ _ _ _ _ _ Hg) as (_ & _ & Hc & _).
  cbn in Hc. unfold try_catch.
  destruct (unlock_fault F) as [eu|], c as [[]|eb]; cbn; rewrite Hc.
  - eexists [_]. split; [done|]. by repeat constructor.
  - eexists [_; _]. split; [by rewrite <- app_assoc|]. by repeat constructor.
  - exists []. split; [by rewrite app_nil_r | constructor].
  - eexists [_]. split; [done|]. by repeat constructor.
Qed.

(** The lock key of an id that matches [UUID_REGEX]. *)
Lemma uuid_lock_key (sid : string) :
  UUID_REGEX_test sid = true ->
  exists key,
    lockId_of sid = Some key /\ 0 <= key < 4294967296 /\
    lockId_of sid = hex_prefix (String.substring 0 8 sid) None.
Proof.
  intros H. apply lockId_of_prefix.
  unfold UUID_REGEX_test, UUID_PATTERN in H. rewrite app_assoc in H.
  by apply matches_app_prefix in H.
Qed.

(** X12.  A series id that passes [UUID_REGEX], as every id handed to
    [performOnDemandSync] by [GET] has, is 36 characters long and always
    has a lock key: the integer read from its first eight hexadecimal
    digits, between 0 and 2^32 - 1.  The invalid-id exit is never taken
    for it. *)
Theorem valid_series_id_has_a_lock_key :
  forall (sid : string),
    UUID_REGEX_test sid = true ->
    String.length sid = 36%nat /\
    exists key,
      lockId_of sid = Some key /\ 0 <= key < 2 ^ 32 /\
      lockId_of sid = hex_prefix (String.substring 0 8 sid) None /\
      (forall clb F w,
         In (InvalidLockId sid) (console (snd (performOnDemandSync clb F sid w))) ->
         In (InvalidLockId sid) (console w)).
Proof.
  intros sid H.
  split; [by apply matches_length in H|].
  destruct (uuid_lock_key sid H) as (key & Hk & Hr & Hs).
  exists key. split; [done|]. split; [exact Hr|]. split; [done|].
  intros clb F w Hin.
  destruct (keyed_sync_console clb F sid key w Hk) as (added & Hc & Hall).
  rewrite Hc in Hin. apply in_app_or in Hin as [Hin|Hin]; [done|].
  by apply (proj1 (List.Forall_forall _ _) Hall) in Hin.
Qed.

Lemma valid_series_id_witness :
  exists key, lockId_of demo_series = Some key /\ 0 <= key < 2 ^ 32.
Proof.
  destruct (valid_series_id_has_a_lock_key demo_series eq_refl) as (_ & key & Hk & Hr & _).
  exists key. split; [exact Hk | exact Hr].
Defined.



End ChaptersRouteFacts.

(** ** The re-check of the on-demand sync, both ways *)

Module OnDemandSyncRunFacts.
Import Js Eff OnDemandSync OnDemandSyncCases OnDemandSyncFacts.

(** The last part of the guarded section with nothing failing, when the
    re-check finds the series in need of syncing. *)
Lemma recheck_fetches_when_needed (clb : Collaborators) (sid : string) (w : World)
    (src : SeriesSource) (scraper : string -> Completion (list ScrapedChapter)) :
  scrapers clb (source_name src) = Some scraper ->
  chapter_count sid (db w) = 0%nat \/
  chapter_source_count sid (db w) = 0%nat \/
  (chapter_count sid (db w) = 3%nat /\ forallb is_dummy_title (all_titles sid (db w)) = true) ->
  scrape_calls (snd (recheck_and_fetch clb no_faults sid (chapter_count sid (db w))
                       (chapter_source_count sid (db w)) src w))
  = (scrape_calls w ++ [(source_name src, source_id src)])%list.
Proof.
  intros Hscr Hneed.
  assert (Hend : forall b : bool,
            b = false ->
            scrape_calls (snd ((if b then ret tt
                                else match scrapers clb (source_name src) with
                                     | None => ret tt
                                     | Some scraper =>
                                         bind (scrape scraper (source_name src) (source_id src))
                                           (fun scraped =>
                                              if Nat.ltb 0 (length scraped)
                                              then sync clb sid (source_id src) (source_name src) scraped
                                              else ret tt)
                                     end) w))
            = (scrape_calls w ++ [(source_name src, source_id src)])%list).
  { intros b ->. rewrite Hscr. unfold bind, scrape, sync, ret.
    destruct (scraper (source_id src)) as [chs|e]; [|done].
    destruct (Nat.ltb 0 (length chs)); [|done]. cbn.
    by destruct (syncChapters _ _ _ _ _ _). }
  unfold recheck_and_fetch. unfold bind at 1.
  destruct (Nat.eqb (chapter_count sid (db w)) 3) eqn:E3.
  - unfold bind at 1. unfold chapter_titles, stmt. cbn [titles_fault no_faults ret].
    fold (all_titles sid (db w)). apply Hend.
    destruct Hneed as [H0|[H0|[_ Hd]]].
    + apply Nat.eqb_eq in E3. lia.
    + rewrite H0. by destruct (Nat.ltb 0 _), (forallb _ _).
    + rewrite Hd. by destruct (Nat.ltb 0 _).
  - cbn [ret]. apply Hend.
    destruct Hneed as [H0|[H0|[H3 _]]].
    + by rewrite H0.
    + rewrite H0. by destruct (Nat.ltb 0 _).
    + apply Nat.eqb_neq in E3. lia.
Qed.

(** The guarded section with nothing failing, for a series in need of
    syncing whose source is bound already or can be bound from its
    MangaDex id. *)
Lemma guarded_scrapes_when_needed (clb : Collaborators) (sid : string) (w : World)
    (s : SeriesRow) (src : SeriesSource)
    (scraper : string -> Completion (list ScrapedChapter)) :
  List.find (fun x => String.eqb (series_id x) sid) (series (db w)) = Some s ->
  sync_source_of sid s (series_sources (db w)) = Some src ->
  scrapers clb (source_name src) = Some scraper ->
  chapter_count sid (db w) = 0%nat \/
  chapter_source_count sid (db w) = 0%nat \/
  (chapter_count sid (db w) = 3%nat /\ forallb is_dummy_title (all_titles sid (db w)) = true) ->
  scrape_calls (snd (guarded clb no_faults sid w))
  = (scrape_calls w ++ [(source_name src, source_id src)])%list.
Proof.
  intros Hs Hsrc Hscr Hneed.
  unfold guarded. unfold bind at 1. unfold counts, stmt. cbn [count_fault no_faults fst snd].
  unfold bind at 1. unfold find_series, stmt. cbn [find_series_fault no_faults].
  rewrite Hs. unfold sync_source_of in Hsrc.
  destruct (pick_source _) as [x|].
  - injection Hsrc as ->. unfold bind at 1. cbn [ret].
    exact (recheck_fetches_when_needed _ _ _ _ scraper Hscr Hneed).
  - destruct (truthy_ostr (mangadex_id s)); [|done]. injection Hsrc as <-.
    unfold bind at 1. unfold bind at 1. unfold upsert_mangadex, stmt.
    cbn [upsert_fault no_faults ret].
    match goal with |- context [recheck_and_fetch _ _ _ _ _ ?x ?w'] =>
      change (chapter_count sid (db w)) with (chapter_count sid (db w'));
      change (chapter_source_count sid (db w)) with (chapter_source_count sid (db w'));
      rewrite (recheck_fetches_when_needed clb sid w' x scraper Hscr)
    end; [done|exact Hneed].
Qed.

(** X14.  The re-check in the other direction.  With nothing failing and
    the lock free, a series that has no live chapter, or no per-source
    detail row, or exactly three live chapters while every chapter of
    the series (soft-deleted ones included) carries a placeholder title,
    is scraped exactly once, through its bound source or, when it has
    none, through the one bound from its MangaDex id, provided a scraper
    is registered for that source; and the lock is free again
    afterwards. *)
Theorem needed_sync_reaches_the_scraper :
  forall (clb : Collaborators) (sid : string) (key : Z) (w : World)
         (s : SeriesRow) (src : SeriesSource)
         (scraper : string -> Completion (list ScrapedChapter)),
    lockId_of sid = Some key -> key ∉ locks w ->
    List.find (fun x => String.eqb (series_id x) sid) (series (db w)) = Some s ->
    sync_source_of sid s (series_sources (db w)) = Some src ->
    scrapers clb (source_name src) = Some scraper ->
    chapter_count sid (db w) = 0%nat \/
    chapter_source_count sid (db w) = 0%nat \/
    (chapter_count sid (db w) = 3%nat /\ forallb is_dummy_title (all_titles sid (db w)) = true) ->
    let w' := snd (performOnDemandSync clb no_faults sid w) in
    scrape_calls w' = (scrape_calls w ++ [(source_name src, source_id src)])%list /\
    locks w' = locks w /\
    lock_trace w' = (lock_trace w ++ [TryLock key; Unlock key])%list.
Proof.
  intros clb sid key w s src scraper Hk Hfree Hs Hsrc Hscr Hneed.
  unfold performOnDemandSync, try_catch, try_finally, bind, pg_try_advisory_lock,
    release, pg_advisory_unlock, log, modify.
  rewrite Hk. cbn [lock_fault unlock_fault no_faults].
  rewrite bool_decide_eq_false_2 by done. cbn [lock_refused negb].
  match goal with |- context [guarded clb no_faults sid ?w0] =>
    pose proof (guarded_scrapes_when_needed clb sid w0 s src scraper Hs Hsrc Hscr Hneed) as Hg;
    destruct (guarded clb no_faults sid w0) as [c w1] eqn:E;
    destruct (guarded_frame _ _ _ _ _ _ E) as (Hl & Ht & _ & _)
  end.
  cbn [snd] in Hg. cbn in Hl, Ht. unfold try_catch.
  destruct c as [[]|e]; cbn; rewrite Hg, Hl, Ht;
    (split; [done|]; split; [by apply lock_released | by rewrite <- app_assoc]).
Qed.

Lemma needed_sync_witness :
  scrape_calls (snd (performOnDemandSync demo_collaborators no_faults demo_series cold_world))
  = [("mangadex", "md-1")].
Proof.
  exact (proj1 (needed_sync_reaches_the_scraper demo_collaborators demo_series 439041101
                  cold_world (mkSeries demo_series "Title" (Some "md-1"))
                  (mkSource demo_series "mangadex" "md-1") (fun _ => Normal [mkScraped "1" None])
                  eq_refl ltac:(set_solver) eq_refl eq_refl eq_refl (or_introl eq_refl))).
Defined.

(** The placeholder test fails as soon as one chapter of the series,
    live or not, has another title. *)
Lemma real_title_defeats_placeholders (sid : string) (d : Db) (c : Chapter) :
  In c (chapters d) -> ch_series_id c = sid -> is_dummy_title (chapter_title c) = false ->
  forallb is_dummy_title (all_titles sid d) = false.
Proof.
  intros Hin Hsid Hreal. unfold all_titles.
  apply not_true_is_false. intros Hall.
  rewrite forallb_forall in Hall.
  specialize (Hall (chapter_title c)). rewrite Hreal in Hall.
  enough (false = true) by done. apply Hall.
  apply in_map. apply List.filter_In. split; [done|]. by rewrite Hsid, String.eqb_refl.
Qed.

(** X15.  The placeholder test reads the titles of soft-deleted chapters
    too: when the three live chapters of a series are the seeded
    placeholders and have a detail row, but some soft-deleted chapter of
    the series carries another title, [performOnDemandSync] calls no
    scraper, and the placeholders stay. *)
Theorem deleted_chapter_hides_placeholders :
  forall (clb : Collaborators) (F : Faults) (sid : string) (w : World) (c : Chapter),
    placeholder_pattern sid (db w) ->
    chapter_source_count sid (db w) <> 0%nat ->
    In c (chapters (db w)) -> ch_series_id c = sid ->
    is_dummy_title (chapter_title c) = false ->
    scrape_calls (snd (performOnDemandSync clb F sid w)) = scrape_calls w /\
    ch_deleted_at c <> None.
Proof.
  intros clb F sid w c [H3 Hph] Hsc Hin Hsid Hreal. split.
  2:{ intros Hlive.
      assert (Hl : In c (live_chapters sid (db w))).
      { unfold live_chapters. apply List.filter_In. split; [done|].
        rewrite Hsid, String.eqb_refl. cbn. by apply bool_decide_eq_true. }
      apply (proj1 (List.Forall_forall _ _) Hph) in Hl. congruence. }
  destruct (decide (scrape_calls (snd (performOnDemandSync clb F sid w)) = scrape_calls w))
    as [E|E]; [exact E|]. exfalso.
  apply sync_scrapes_in_guarded in E as (key & w0 & cpl & w1 & _ & Hd & _ & Hg & Hne).
  apply Hne. clear Hne. revert Hg.
  pose proof (real_title_defeats_placeholders sid (db w) c Hin Hsid Hreal) as Hnd.
  rewrite <- Hd in Hnd, Hsc, H3. fold (chapter_count sid (db w0)) in H3.
  unfold guarded, recheck_and_fetch, bind, counts, find_series, upsert_mangadex,
    chapter_titles, stmt, ret.
  destruct (count_fault F); [by intros [= _ <-]|].
  destruct (find_series_fault F); [by intros [= _ <-]|].
  cbn [fst snd]. destruct (List.find _ (series (db w0))) as [s|]; [|by intros [= _ <-]].
  rewrite H3. cbn [Nat.eqb].
  destruct (pick_source _) as [x|].
  - destruct (titles_fault F); [by intros [= _ <-]|].
    fold (all_titles sid (db w0)). rewrite Hnd.
    destruct (chapter_source_count sid (db w0)) as [|n]; [done|].
    cbn. by intros [= _ <-].
  - destruct (truthy_ostr (mangadex_id s)); [|by intros [= _ <-]].
    destruct (upsert_fault F); [by intros [= _ <-]|].
    destruct (titles_fault F); [by intros [= _ <-]|].
    cbn [db set_db chapters].
    fold (all_titles sid (db w0)). rewrite Hnd.
    destruct (chapter_source_count sid (db w0)) as [|n]; [done|].
    cbn. by intros [= _ <-].
Qed.

Lemma deleted_chapter_witness :
  placeholder_pattern demo_series (db haunted_world) /\
  scrape_calls (snd (performOnDemandSync demo_collaborators no_faults demo_series haunted_world))
  = [].
Proof.
  assert (H : placeholder_pattern demo_series (db haunted_world)).
  { split; [reflexivity|]. by repeat constructor. }
  split; [exact H|].
  exact (proj1 (deleted_chapter_hides_placeholders demo_collaborators no_faults demo_series
                  haunted_world (mkChapter "old" demo_series (Some "Chapter 1") (Some 5))
                  H ltac:(vm_compute; discriminate)
                  ltac:(vm_compute; tauto) eq_refl eq_refl)).
Defined.

End OnDemandSyncRunFacts.

(** ** Handlers and cooldown keys *)

Module AlertingRunFacts.
Import Js Eff Alerting AlertingCases AlertingFacts.

Lemma call_handlers_all (alert : DLQAlert) (hs : list AlertHandler) (i : nat)
    (calls : list (nat * DLQAlert)) (errs : list Thrown) :
  call_handlers alert i hs calls errs =
    ((calls ++ imap (fun k _ => ((i + k)%nat, alert)) hs)%list,
     (errs ++ omap (thrown_by alert) hs)%list).
Proof.
  revert i calls errs. induction hs as [|h hs IH]; intros i calls errs.
  - cbn. by rewrite !app_nil_r.
  - cbn [call_handlers].
    replace (omap (thrown_by alert) (h :: hs))
      with ((match h alert with Throw e => [e] | Normal _ => [] end)
            ++ omap (thrown_by alert) hs)%list
      by (cbn; unfold thrown_by at 2; by destruct (h alert)).
    replace (imap (fun k (_ : AlertHandler) => ((i + k)%nat, alert)) (h :: hs))
      with ((i, alert) :: imap (fun k (_ : AlertHandler) => ((S i + k)%nat, alert)) hs)
      by (cbn [imap]; rewrite Nat.add_0_r; f_equal; apply imap_ext; intros; cbn; f_equal; lia).
    destruct (h alert) as [[]|e]; rewrite IH, <- !app_assoc; done.
Qed.

(** X16.  An alert that is not in its cooldown is handed to every
    registered handler, once each and in the order of registration; a
    handler that throws does not keep the later ones from running, its
    error is printed, and the alert is still recorded and passed to the
    error monitor. *)
Theorem every_handler_sees_the_alert :
  forall (now : Z) (alert : DLQAlert) (svc : Service),
    in_cooldown svc (alertKey alert) now = false ->
    let svc' := sendAlert now alert svc in
    handler_calls svc' = (handler_calls svc ++ imap (fun i _ => (i, alert)) (handlers svc))%list /\
    handler_errors svc' = (handler_errors svc ++ omap (thrown_by alert) (handlers svc))%list /\
    dispatched svc' = (dispatched svc ++ [alert])%list /\
    captured svc' = (captured svc ++ [message alert])%list /\
    handlers svc' = handlers svc.
Proof.
  intros now alert svc Hfree. cbn zeta. unfold sendAlert. rewrite Hfree.
  rewrite call_handlers_all. cbn. done.
Qed.

Lemma every_handler_witness :
  handler_calls (sendAlert 5000 demo_alert noisy_service)
  = [(0%nat, demo_alert); (1%nat, demo_alert)].
Proof.
  exact (proj1 (every_handler_sees_the_alert 5000 demo_alert noisy_service eq_refl)).
Defined.

(** X17.  The cooldown law.  After an alert was dispatched at [t1], the
    next alert with the same key, at [t2], is dropped exactly when [t1]
    is not the zero timestamp and [t2 - t1] is below five minutes;
    otherwise it is dispatched too, and the key then remembers [t2]. *)
Theorem cooldown_law :
  forall (t1 t2 : Z) (a1 a2 : DLQAlert) (svc : Service),
    alertKey a1 = alertKey a2 ->
    in_cooldown svc (alertKey a1) t1 = false ->
    let svc1 := sendAlert t1 a1 svc in
    let svc2 := sendAlert t2 a2 svc1 in
    (t1 <> 0 /\ t2 - t1 < 300000 -> svc2 = svc1) /\
    (t1 = 0 \/ 300000 <= t2 - t1 ->
     dispatched svc2 = (dispatched svc ++ [a1; a2])%list /\
     lastAlertTime svc2 !! alertKey a2 = Some t2).
Proof.
  intros t1 t2 a1 a2 svc Hk Hfree svc1 svc2.
  destruct (sendAlert_dispatches t1 a1 svc Hfree) as [Hd Hl]. fold svc1 in Hd, Hl.
  assert (Hc : in_cooldown svc1 (alertKey a2) t2
               = negb (t1 =? 0) && (t2 - t1 <? alertCooldownMs)).
  { unfold in_cooldown. by rewrite Hl, Hk, lookup_insert_eq. }
  split.
  - intros [Hnz Hw]. apply sendAlert_suppressed. rewrite Hc.
    apply andb_true_intro. split; [by apply negb_true_iff, Z.eqb_neq | by apply Z.ltb_lt].
  - intros Hor.
    assert (Hf : in_cooldown svc1 (alertKey a2) t2 = false).
    { rewrite Hc. destruct Hor as [->|Hw]; [done|].
      apply andb_false_intro2. apply Z.ltb_ge. exact Hw. }
    destruct (sendAlert_dispatches t2 a2 svc1 Hf) as [Hd2 Hl2]. fold svc2 in Hd2, Hl2.
    rewrite Hd2, Hd, Hl2, <- app_assoc. split; [done | apply lookup_insert_eq].
Qed.

Lemma cooldown_law_witness :
  dispatched (sendAlert 301000 demo_alert (sendAlert 1000 demo_alert fresh))
  = [demo_alert; demo_alert].
Proof.
  refine (proj1 (proj2 (cooldown_law 1000 301000 demo_alert demo_alert fresh eq_refl eq_refl) _)).
  right. lia.
Defined.

(** X18.  The warning and the error alert of [checkDLQThresholds] share
    one cooldown key ([dlq_threshold:global]): when a warning was
    dispatched, a check that finds the queue in the error band less
    than five minutes later is dropped and leaves the service as it
    was.  The critical alert has a key of its own and still goes out. *)
Theorem escalation_shares_the_cooldown :
  forall (svc : Service) (th : Thresholds) (c1 c2 stamp1 stamp2 t1 t2 : Z),
    th_warning th <= c1 -> c1 < th_error th ->
    th_error th <= c2 -> c2 < th_critical th ->
    in_cooldown svc "dlq_threshold:global" t1 = false ->
    t1 <> 0 -> t2 - t1 < alertCooldownMs ->
    let svc1 := checkDLQThresholds c1 th stamp1 t1 svc in
    let svc2 := checkDLQThresholds c2 th stamp2 t2 svc1 in
    svc2 = svc1 /\
    (exists a, dispatched svc1 = (dispatched svc ++ [a])%list /\ severity a = warning) /\
    (forall c3 stamp3 : Z,
       th_critical th <= c3 ->
       in_cooldown svc "dlq_critical:global" t2 = false ->
       exists a,
         dispatched (checkDLQThresholds c3 th stamp3 t2 svc1) = (dispatched svc1 ++ [a])%list /\
         severity a = critical).
Proof.
  intros svc th c1 c2 stamp1 stamp2 t1 t2 Hw1 He1 He2 Hc2 Hfree Hnz Hwin svc1 svc2.
  subst svc1 svc2. unfold checkDLQThresholds.
  rewrite (proj2 (Z.leb_gt (th_critical th) c1)) by lia.
  rewrite (proj2 (Z.leb_gt (th_error th) c1)) by lia.
  rewrite (proj2 (Z.leb_le (th_warning th) c1)) by lia.
  rewrite (proj2 (Z.leb_gt (th_critical th) c2)) by lia.
  rewrite (proj2 (Z.leb_le (th_error th) c2)) by lia.
  match goal with |- context [sendAlert t2 ?a2 (sendAlert t1 ?a1 svc)] =>
    pose proof (second_send_suppressed t1 t2 a1 a2 svc eq_refl eq_refl Hfree Hnz Hwin) as Hs;
    destruct (sendAlert_dispatches t1 a1 svc Hfree) as [Hd Hl]
  end.
  split; [exact Hs|]. split; [eexists; split; [exact Hd | done]|].
  intros c3 stamp3 Hc3 Hfree3.
  rewrite (proj2 (Z.leb_le (th_critical th) c3)) by lia.
  match goal with |- context [sendAlert t2 ?a3 ?s1] =>
    destruct (sendAlert_dispatches t2 a3 s1) as [Hd3 _]
  end.
  { unfold in_cooldown in *.
    rewrite Hl. cbn [alertKey type entityId type_name or_str].
    rewrite lookup_insert_ne by done. exact Hfree3. }
  eexists. split; [exact Hd3 | reflexivity].
Qed.

Lemma escalation_witness :
  checkDLQThresholds 250 default_thresholds 61000 61000
    (checkDLQThresholds 60 default_thresholds 1000 1000 fresh)
  = checkDLQThresholds 60 default_thresholds 1000 1000 fresh.
Proof.
  refine (proj1 (escalation_shares_the_cooldown fresh default_thresholds 60 250
                   1000 61000 1000 61000 _ _ _ _ eq_refl _ _));
    unfold default_thresholds, alertCooldownMs; cbn [th_warning th_error th_critical]; lia.
Defined.

Lemma append_inj_l (p x y : string) : p +:+ x = p +:+ y -> x = y.
Proof. induction p as [|c p IH]; cbn; [done|]. intros [= H]. by apply IH. Qed.

(** X19.  Two alerts share a cooldown exactly when they have the same
    type and the same entity, where a missing entity id, an empty one
    and the id [global] all count as the same entity. *)
Theorem alerts_sharing_a_cooldown :
  forall (a1 a2 : DLQAlert),
    (alertKey a1 = alertKey a2 <->
     type a1 = type a2 /\ or_str (entityId a1) "global" = or_str (entityId a2) "global") /\
    (forall (t : AlertType) (n : Z) (m : string) (ts : Z) (sv : Severity),
       alertKey (mkAlert t None n m ts sv) = alertKey (mkAlert t (Some "global") n m ts sv) /\
       alertKey (mkAlert t None n m ts sv) = alertKey (mkAlert t (Some "") n m ts sv)).
Proof.
  intros a1 a2. split; [|done]. unfold alertKey. split.
  - intros H.
    destruct (type a1), (type a2); cbn [type_name] in H;
      try (split; [reflexivity|]; apply append_inj_l in H; by apply (append_inj_l ":") in H);
      exfalso; cbv [String.append] in H; discriminate H.
  - intros [-> ->]. reflexivity.
Qed.

End AlertingRunFacts.

(** ** The error monitor *)

Module MonitoringFacts.

Import Js Monitoring.

Section Random.

Variable random : nat -> Q.

Lemma capture_queues (m : ErrorMonitoring) (items : list (ErrorInfo * option ErrorContext)) :
  isInitialized m = false ->
  fold_left (fun s it => captureException random (fst it) (snd it) s) items m
  = mkMonitoring (config m) false (queue m ++ items) (console m) (draws m).
Proof.
  revert m. induction items as [|it items IH]; intros m Hm.
  - cbn. rewrite app_nil_r. destruct m; cbn in *. rewrite Hm. reflexivity.
  - destruct it as [e ctx]. cbn [fold_left]. unfold captureException at 2.
    rewrite Hm. cbn [negb]. rewrite IH by done. cbn. by rewrite <- app_assoc.
Qed.

Lemma processQueue_drains (fuel : nat) (m : ErrorMonitoring) :
  isInitialized m = true -> reporting_off (config m) = false ->
  (length (queue m) <= fuel)%nat ->
  let m' := processQueue random fuel m in
  queue m' = [] /\ isInitialized m' = true /\ config m' = config m /\
  (exists lines, console m' = (console m ++ lines)%list /\
                 sublist lines (List.map line_of (queue m))) /\
  (keeps_all random (config m) ->
   console m' = (console m ++ List.map line_of (queue m))%list).
Proof.
  revert m. induction fuel as [|fuel IH]; intros m Hi Hon Hlen.
  - destruct (queue m) eqn:E; [|cbn in Hlen; lia]. cbn. rewrite E.
    repeat split; try done.
    + exists []. by rewrite app_nil_r.
    + intros _. by rewrite app_nil_r.
  - cbn [processQueue]. destruct (queue m) as [|item rest] eqn:E.
    + cbn. rewrite E. repeat split; try done.
      * exists []. by rewrite app_nil_r.
      * intros _. by rewrite app_nil_r.
    + unfold captureException. cbn [isInitialized config queue console draws].
      rewrite Hi, Hon. cbn [negb].
      destruct (sampled_out (config m) (random (draws m))) eqn:Es.
      * match goal with |- context [processQueue random fuel ?m1] =>
          destruct (IH m1) as (Hq & Hin & Hc & (lines & Hl & Hs) & Hk);
            [done | done | cbn in *; lia |] end.
        cbn [queue config console] in *. rewrite Hq, Hin, Hc.
        repeat split.
        -- exists lines. split; [done|]. by apply sublist_cons.
        -- intros Hall. by rewrite Hall in Es.
      * match goal with |- context [processQueue random fuel ?m1] =>
          destruct (IH m1) as (Hq & Hin & Hc & (lines & Hl & Hs) & Hk);
            [done | done | cbn in *; lia |] end.
        cbn [queue config console] in *. rewrite Hq, Hin, Hc.
        destruct item as [e ctx]. cbn [fst snd] in *.
        repeat split.
        -- exists (line_of (e, ctx) :: lines). rewrite Hl, <- app_assoc.
           split; [done|]. by apply sublist_skip.
        -- intros Hall. rewrite (Hk Hall), <- app_assoc. done.
Qed.

End Random.

(** X20.  Errors captured before [init] are only queued, and nothing is
    printed for them; an [init] that finds a DSN and reporting enabled
    then reports the queued errors in the order they were captured,
    less those the sampling drops, and leaves the queue empty.  With
    sampling that lets everything through, every queued error is
    printed; the default rate of 1 is such a sampling, [Math.random()]
    staying below 1.  A second [init] changes nothing. *)
Theorem queued_errors_are_reported_at_init :
  forall (random : nat -> Q) (m : ErrorMonitoring)
         (items : list (ErrorInfo * option ErrorContext)) (overrides again : Overrides),
    isInitialized m = false ->
    reporting_off (merge (config m) overrides) = false ->
    let m1 := fold_left (fun s it => captureException random (fst it) (snd it) s) items m in
    let m2 := init random overrides m1 in
    console m1 = console m /\ queue m1 = (queue m ++ items)%list /\
    queue m2 = [] /\ isInitialized m2 = true /\
    (exists lines, console m2 = (console m ++ lines)%list /\
                   sublist lines (List.map line_of (queue m ++ items))) /\
    (keeps_all random (merge (config m) overrides) ->
     console m2 = (console m ++ List.map line_of (queue m ++ items))%list) /\
    ((forall k, Qle_bool (random k) 1 = true) ->
     sampleRate (merge (config m) overrides) = Some 1%Q ->
     keeps_all random (merge (config m) overrides)) /\
    init random again m2 = m2.
Proof.
  intros random m items overrides again Hm Hon m1 m2.
  assert (E1 : m1 = mkMonitoring (config m) false (queue m ++ items) (console m) (draws m))
    by by apply capture_queues.
  assert (E2 : m2 = processQueue random (length (queue m ++ items))
                      (mkMonitoring (merge (config m) overrides) true (queue m ++ items)
                                    (console m) (draws m))).
  { subst m2. rewrite E1. unfold init. cbn [isInitialized config queue console draws].
    by rewrite Hon. }
  match type of E2 with _ = processQueue _ ?n ?m0 =>
    destruct (processQueue_drains random n m0 eq_refl Hon ltac:(done))
      as (Hq & Hi & Hc & Hl & Hk) end.
  rewrite <- E2 in Hq, Hi, Hc, Hl, Hk. cbn [console queue config] in *.
  rewrite E1. cbn [console queue].
  repeat split; try done.
  - intros Hr Hs k. unfold sampled_out. rewrite Hs. by rewrite Hr.
  - unfold init. by rewrite Hi.
Qed.

Lemma queued_errors_witness :
  console (init (fun _ => 0%Q) no_overrides
             (captureException (fun _ => 0%Q) (mkError "TypeError" "x is undefined") None
                (new_monitoring (Some "https://key@sentry.example/1") None
                                (Some "production") None)))
  = [CapturedException "TypeError" "x is undefined" None None None].
Proof.
  refine (proj1 (proj2 (proj2 (proj2 (proj2 (proj2
    (queued_errors_are_reported_at_init (fun _ => 0%Q)
       (new_monitoring (Some "https://key@sentry.example/1") None (Some "production") None)
       [(mkError "TypeError" "x is undefined", None)] no_overrides no_overrides
       eq_refl eq_refl)))))) _).
  intros k. reflexivity.
Defined.

Lemma off_call (random : nat -> Q) (m : ErrorMonitoring) (c : Call) :
  isInitialized m = true -> reporting_off (config m) = true -> call random m c = m.
Proof.
  intros Hi Hoff. destruct c as [o|e ctx|msg lvl]; cbn [call].
  - unfold init. by rewrite Hi.
  - unfold captureException. by rewrite Hi, Hoff.
  - unfold captureMessage. by rewrite Hoff.
Qed.

(** X21.  An [init] that finds no DSN, or reporting not enabled, marks
    the monitor initialized and returns: the errors queued so far stay
    in the queue, nothing is printed for them, and no later call
    ([init], [captureException], [captureMessage]) changes the monitor
    any more.  Outside production the monitor starts out like this
    unless the overrides enable it. *)
Theorem disabled_monitor_reports_nothing :
  forall (random : nat -> Q) (m : ErrorMonitoring) (overrides : Overrides) (calls : list Call),
    isInitialized m = false ->
    reporting_off (merge (config m) overrides) = true ->
    let m1 := init random overrides m in
    isInitialized m1 = true /\ queue m1 = queue m /\ console m1 = console m /\
    run_calls random calls m1 = m1 /\
    (forall d1 d2 env ver : option string,
       env <> Some "production" ->
       reporting_off (config (new_monitoring d1 d2 env ver)) = true).
Proof.
  intros random m overrides calls Hm Hoff m1.
  assert (E : m1 = mkMonitoring (merge (config m) overrides) true (queue m) (console m) (draws m)).
  { subst m1. unfold init. by rewrite Hm, Hoff. }
  rewrite E. cbn [isInitialized queue console]. repeat split.
  - unfold run_calls. induction calls as [|c calls IH]; [done|].
    cbn [fold_left]. by rewrite off_call.
  - intros d1 d2 env ver Henv. unfold reporting_off, new_monitoring. cbn [config enabled default].
    rewrite bool_decide_eq_false_2 by done. cbn. apply orb_true_r.
Qed.

Lemma disabled_monitor_witness :
  let m := captureException (fun _ => 0%Q) (mkError "TypeError" "x is undefined") None
             (new_monitoring None None (Some "development") None) in
  queue (init (fun _ => 0%Q) no_overrides m) = queue m /\
  console (init (fun _ => 0%Q) no_overrides m) = [].
Proof.
  destruct (disabled_monitor_reports_nothing (fun _ => 0%Q)
              (captureException (fun _ => 0%Q) (mkError "TypeError" "x is undefined") None
                 (new_monitoring None None (Some "development") None))
              no_overrides [] eq_refl eq_refl) as (_ & Hq & Hc & _).
  split; [exact Hq | exact Hc].
Defined.

End MonitoringFacts.

(** ** The limiter under traffic *)

Module RateLimitRunFacts.
Import Js RateLimit RateLimitTraffic RateLimitFacts.

Lemma get_set (now : Z) (key : string) (value : Entry) (s : BoundedRateLimitStore) :
  get key (set now key value s) = Some value.
Proof. unfold set, get, evict_and_insert. cbn [store]. apply map_get_set. Qed.

Lemma map_get_filter (f : string * Entry -> bool) (key : string) (e : Entry)
    (m : list (string * Entry)) :
  map_get key m = Some e -> f (key, e) = true ->
  map_get key (List.filter f m) = Some e.
Proof.
  unfold map_get. induction m as [|p m IH]; cbn [List.find List.filter]; [done|].
  destruct (String.eqb (fst p) key) eqn:E.
  - cbn. intros [= <-] Hf. apply String.eqb_eq in E.
    destruct p as [k v]. cbn [fst snd] in *. subst k. rewrite Hf. cbn.
    by rewrite String.eqb_refl.
  - intros Hg Hf. destruct (f p); [|by apply IH].
    cbn [List.find]. rewrite E. by apply IH.
Qed.

(** A cleanup never drops a live entry of a store within capacity. *)
Lemma cleanup_keeps_live (now : Z) (key : string) (e : Entry) (s : BoundedRateLimitStore) :
  within_capacity s -> get key s = Some e -> now <= resetTime e ->
  get key (cleanup now s) = Some e.
Proof.
  intros (Hpos & Hsize & _) Hg Hlive. unfold cleanup, get in *.
  destruct (now - lastCleanup s <? cleanupInterval); [done|]. cbn [store].
  pose proof (List.filter_length_le (fun p => negb (resetTime (snd p) <? now)) (store s)) as Hf.
  unfold size in Hsize.
  rewrite (proj2 (Z.ltb_ge _ _)) by lia.
  apply map_get_filter; [done|]. cbn. apply negb_true_iff, Z.ltb_ge. done.
Qed.

(** One more request inside an open window. *)
Lemma answer_in_window (s : BoundedRateLimitStore) (r : Request) (c R : Z) :
  within_capacity s ->
  get (rate_key (rq_tier r) (rq_ip r)) s = Some (mkEntry c R) ->
  rq_t0 r <= R -> rq_now r <= R ->
  fst (answer s r) = mkRateLimitResult (c + 1 <=? rq_limit r)
                       (Z.max 0 (rq_limit r - (c + 1))) R (rq_limit r) /\
  get (rate_key (rq_tier r) (rq_ip r)) (snd (answer s r)) = Some (mkEntry (c + 1) R) /\
  within_capacity (snd (answer s r)).
Proof.
  intros Hs Hg Ht0 Hnow.
  split; [|split; [|apply (serve_bounded s r Hs)]];
    unfold answer, checkRateLimit, triggerCleanup;
    rewrite (cleanup_keeps_live _ _ _ _ Hs Hg Ht0); cbn [resetTime count];
    rewrite (proj2 (Z.ltb_ge _ _)) by lia; cbn [fst snd]; [done | apply get_set].
Qed.

(** The first request of a window. *)
Lemma answer_opens_window (s : BoundedRateLimitStore) (r : Request) :
  within_capacity s ->
  match get (rate_key (rq_tier r) (rq_ip r)) (triggerCleanup (rq_t0 r) s) with
  | Some e => resetTime e < rq_now r
  | None => True
  end ->
  fst (answer s r) = mkRateLimitResult true (rq_limit r - 1) (rq_now r + rq_window r) (rq_limit r) /\
  get (rate_key (rq_tier r) (rq_ip r)) (snd (answer s r))
    = Some (mkEntry 1 (rq_now r + rq_window r)) /\
  within_capacity (snd (answer s r)).
Proof.
  intros Hs Hnew.
  split; [|split; [|apply (serve_bounded s r Hs)]];
    unfold answer, checkRateLimit;
    destruct (get _ _) as [e|]; try (rewrite (proj2 (Z.ltb_lt _ _)) by done);
    cbn [fst snd]; try done; apply get_set.
Qed.

Lemma answers_in_window (r0 : Request) (rest : list Request) (s : BoundedRateLimitStore)
    (c : Z) :
  within_capacity s ->
  get (rate_key (rq_tier r0) (rq_ip r0)) s = Some (mkEntry c (rq_now r0 + rq_window r0)) ->
  Forall (same_window r0) rest ->
  forall (i : nat) (a : RateLimitResult),
    answers rest s !! i = Some a ->
    allowed a = (c + Z.of_nat (S i) <=? rq_limit r0) /\
    remaining a = Z.max 0 (rq_limit r0 - (c + Z.of_nat (S i))) /\
    reset a = rq_now r0 + rq_window r0 /\ rl_limit a = rq_limit r0.
Proof.
  intros Hs Hg Hall. revert s c Hs Hg.
  induction Hall as [|r rest (Ht & Hip & Hl & Hw & Ht0 & Hnow) _ IH]; intros s c Hs Hg i a Hi;
    [done|].
  cbn [answers] in Hi.
  rewrite <- Ht, <- Hip in Hg.
  destruct (answer_in_window s r c _ Hs Hg Ht0 Hnow) as (Ha & Hg' & Hs').
  destruct i as [|i]; cbn in Hi.
  - injection Hi as <-. rewrite Ha, Hl. cbn. repeat split; f_equal; lia.
  - rewrite Ht, Hip in Hg'.
    destruct (IH _ _ Hs' Hg' i a Hi) as (H1 & H2 & H3 & H4).
    rewrite H1, H2. repeat split; try done; f_equal; lia.
Qed.

(** X22.  The limiter counts the requests of one client inside a window.
    When a request opens a window (the client has no record, or an
    expired one) and the following requests of the same client come
    before the reset time, the [k]-th request of the window is allowed
    exactly when [k <= limit], is told [max(0, limit - k)] remaining
    requests, and every answer carries the reset time of the window,
    so no more than [limit] requests are allowed in it. *)
Theorem limiter_allows_limit_requests_per_window :
  forall (s : BoundedRateLimitStore) (r0 : Request) (rest : list Request),
    within_capacity s ->
    1 <= rq_limit r0 ->
    match get (rate_key (rq_tier r0) (rq_ip r0)) (triggerCleanup (rq_t0 r0) s) with
    | Some e => resetTime e < rq_now r0
    | None => True
    end ->
    Forall (same_window r0) rest ->
    (forall (i : nat) (a : RateLimitResult),
       answers (r0 :: rest) s !! i = Some a ->
       allowed a = (Z.of_nat (S i) <=? rq_limit r0) /\
       remaining a = Z.max 0 (rq_limit r0 - Z.of_nat (S i)) /\
       reset a = rq_now r0 + rq_window r0) /\
    (length (List.filter allowed (answers (r0 :: rest) s)) <= Z.to_nat (rq_limit r0))%nat.
Proof.
  intros s r0 rest Hs Hlim Hnew Hall.
  destruct (answer_opens_window s r0 Hs Hnew) as (Ha & Hg & Hs').
  assert (Hans : forall (i : nat) (a : RateLimitResult),
             answers (r0 :: rest) s !! i = Some a ->
             allowed a = (Z.of_nat (S i) <=? rq_limit r0) /\
             remaining a = Z.max 0 (rq_limit r0 - Z.of_nat (S i)) /\
             reset a = rq_now r0 + rq_window r0).
  { intros i a Hi. cbn [answers] in Hi. destruct i as [|i]; cbn in Hi.
    - injection Hi as <-. rewrite Ha. cbn. repeat split; [|lia].
      symmetry. apply Z.leb_le. lia.
    - destruct (answers_in_window r0 rest _ 1 Hs' Hg Hall i a Hi) as (H1 & H2 & H3 & _).
      rewrite H1, H2. repeat split; try done; f_equal; lia. }
  split; [exact Hans|].
  remember (answers (r0 :: rest) s) as l eqn:El. clear -Hans Hlim.
  assert (Hgen : forall (l : list RateLimitResult) (off : nat),
            (forall i a, l !! i = Some a -> allowed a = (Z.of_nat (S (off + i)) <=? rq_limit r0)) ->
            (length (List.filter allowed l) <= Z.to_nat (rq_limit r0) - off)%nat).
  { clear. induction l as [|a l IH]; intros off H; [cbn; lia|].
    cbn [List.filter]. pose proof (H 0%nat a eq_refl) as Ha. rewrite Nat.add_0_r in Ha.
    specialize (IH (S off)).
    assert (Hl : (length (List.filter allowed l) <= Z.to_nat (rq_limit r0) - S off)%nat).
    { apply IH. intros i b Hi. rewrite (H (S i) b Hi). do 2 f_equal. lia. }
    destruct (allowed a); [|lia]. symmetry in Ha. apply Z.leb_le in Ha. cbn [length]. lia. }
  specialize (Hgen l 0%nat). rewrite Nat.sub_0_r in Hgen. apply Hgen.
  intros i a Hi. by destruct (Hans i a Hi) as (-> & _).
Qed.

Lemma limiter_witness :
  List.map allowed
    (answers [mkRequest "auth" "10.0.0.1" 2 60000 0 0 0;
              mkRequest "auth" "10.0.0.1" 2 60000 10 10 10;
              mkRequest "auth" "10.0.0.1" 2 60000 20 20 20] (rateLimitStore 0))
  = [true; true; false] /\
  (length (List.filter allowed
     (answers [mkRequest "auth" "10.0.0.1" 2 60000 0 0 0;
               mkRequest "auth" "10.0.0.1" 2 60000 10 10 10;
               mkRequest "auth" "10.0.0.1" 2 60000 20 20 20] (rateLimitStore 0))) <= 2)%nat.
Proof.
  split; [reflexivity|].
  refine (proj2 (limiter_allows_limit_requests_per_window (rateLimitStore 0)
                   (mkRequest "auth" "10.0.0.1" 2 60000 0 0 0)
                   [mkRequest "auth" "10.0.0.1" 2 60000 10 10 10;
                    mkRequest "auth" "10.0.0.1" 2 60000 20 20 20]
                   (fresh_store_within 0) _ I _)).
  - cbn. lia.
  - repeat constructor; cbn; lia.
Defined.

Lemma map_set_new_length (key : string) (value : Entry) (m : list (string * Entry)) :
  map_get key m = None -> length (map_set key value m) = S (length m).
Proof.
  unfold map_get. induction m as [|p m IH]; cbn; [done|].
  destruct (String.eqb (fst p) key); cbn; [done|]. intros H. f_equal. by apply IH.
Qed.

(** X23.  The eviction of [set] tests the oldest key for truthiness
    before deleting it.  When the store is at capacity, no cleanup is
    due and the entry with the smallest reset time sits under the empty
    key, nothing is evicted, and inserting a new key takes the store
    past [maxEntries]. *)
Theorem empty_key_escapes_eviction :
  forall (now : Z) (key : string) (value : Entry) (s : BoundedRateLimitStore),
    maxEntries s <= size s ->
    now - lastCleanup s < cleanupInterval ->
    fst (oldest_scan (store s)) = Some "" ->
    get key s = None ->
    size (set now key value s) = size s + 1 /\
    maxEntries s < size (set now key value s) /\
    get "" (set now key value s) = get "" s.
Proof.
  intros now key value s Hfull Hthr Hold Hnew.
  unfold set, cleanup. apply Z.leb_le in Hfull as Hb. apply Z.ltb_lt in Hthr as Ht.
  rewrite Hb, Ht. unfold evict_and_insert. rewrite Hb, Hold. cbn [truthy_str String.eqb negb].
  unfold size, get in *. cbn [store].
  rewrite (map_set_new_length key value (store s) Hnew).
  split; [lia|]. split; [lia|].
  assert (Hk : key <> "").
  { intros ->. destruct (store s) as [|p m]; [done|].
    destruct (oldest_scan_min (p :: m) ltac:(done)) as (k & v & Hs & Hin & _).
    rewrite Hs in Hold. cbn in Hold. injection Hold as ->.
    unfold map_get in Hnew. 
    destruct (List.find _ (p :: m)) eqn:Ef; [done|].
    apply (List.find_none _ _ Ef) in Hin. cbn in Hin. done. }
  clear -Hk. unfold map_get. induction (store s) as [|p m IH]; cbn.
  - destruct (String.eqb key "") eqn:E; [|done]. by apply String.eqb_eq in E.
  - destruct (String.eqb (fst p) key) eqn:E; cbn.
    + apply String.eqb_eq in E. destruct (String.eqb key "") eqn:E2.
      { by apply String.eqb_eq in E2. }
      rewrite E. rewrite (proj2 (String.eqb_neq _ _) Hk). done.
    + destruct (String.eqb (fst p) ""); [done|]. apply IH.
Qed.

Lemma empty_key_witness :
  size (set 10 "public:10.0.0.2" (mkEntry 1 300) empty_key_store) = 3 /\
  maxEntries empty_key_store = 2.
Proof.
  split; [|reflexivity].
  exact (proj1 (empty_key_escapes_eviction 10 "public:10.0.0.2" (mkEntry 1 300) empty_key_store
                  ltac:(vm_compute; discriminate) eq_refl eq_refl eq_refl)).
Defined.

Lemma map_get_set_other (k key : string) (value : Entry) (m : list (string * Entry)) :
  k <> key -> map_get k (map_set key value m) = map_get k m.
Proof.
  intros Hne. unfold map_get. induction m as [|p m IH]; cbn.
  - by rewrite (proj2 (String.eqb_neq key k)) by done.
  - destruct (String.eqb (fst p) key) eqn:E; cbn.
    + apply String.eqb_eq in E. rewrite E.
      by rewrite !(proj2 (String.eqb_neq key k)) by done.
    + destruct (String.eqb (fst p) k); [done|]. apply IH.
Qed.

Lemma map_get_delete (k : string) (m : list (string * Entry)) :
  map_get k (map_delete k m) = None.
Proof.
  unfold map_get, map_delete. induction m as [|p m IH]; cbn; [done|].
  destruct (String.eqb (fst p) k) eqn:E; cbn; [exact IH|]. by rewrite E.
Qed.

Lemma map_get_delete_other (k key : string) (m : list (string * Entry)) :
  k <> key -> map_get key (map_delete k m) = map_get key m.
Proof.
  intros Hne. unfold map_get, map_delete. induction m as [|p m IH]; cbn; [done|].
  destruct (String.eqb (fst p) k) eqn:E; cbn.
  - apply String.eqb_eq in E. rewrite E.
    by rewrite (proj2 (String.eqb_neq k key)) by done.
  - destruct (String.eqb (fst p) key); [done|]. apply IH.
Qed.

Lemma map_set_same_length (key : string) (value : Entry) (m : list (string * Entry)) :
  map_get key m <> None -> length (map_set key value m) = length m.
Proof.
  unfold map_get. induction m as [|p m IH]; cbn; [done|].
  destruct (String.eqb (fst p) key); cbn; [done|]. intros H. f_equal. by apply IH.
Qed.

(** X24.  Eviction is by reset time and is run for every [set] at
    capacity, also for one that only updates a record: when the store
    is full and no cleanup is due, a request of a client that has a
    record still removes the record whose window ends first, which
    belongs to another client; that record is gone afterwards, the
    writer's record holds the value written and the store ends below
    capacity. *)
Theorem update_at_capacity_evicts_another_client :
  forall (now : Z) (key : string) (value : Entry) (s : BoundedRateLimitStore),
    within_capacity s ->
    maxEntries s <= size s ->
    now - lastCleanup s < cleanupInterval ->
    get key s <> None ->
    fst (oldest_scan (store s)) <> Some key ->
    exists k,
      fst (oldest_scan (store s)) = Some k /\ k <> key /\
      get k s <> None /\
      get k (set now key value s) = None /\
      get key (set now key value s) = Some value /\
      size (set now key value s) < maxEntries s.
Proof.
  intros now key value s Hs Hfull Hthr Hkey Hold.
  destruct Hs as (Hpos & Hsize & Hkeys).
  assert (Hne : store s <> []) by (intros E; unfold size in Hfull; rewrite E in Hfull; cbn in Hfull; lia).
  destruct (oldest_scan_min (store s) Hne) as (k' & v' & Hscan & Hin' & _).
  assert (Hset : store (set now key value s) = store (evict_and_insert key value s)).
  { unfold set, cleanup. apply Z.leb_le in Hfull as Hb. apply Z.ltb_lt in Hthr as Ht.
    by rewrite Hb, Ht. }
  assert (Hev : store (evict_and_insert key value s)
                = map_set key value (map_delete k' (store s))).
  { unfold evict_and_insert. apply Z.leb_le in Hfull as Hb. rewrite Hb, Hscan. cbn [fst store].
    pose proof (proj1 (List.Forall_forall _ _) Hkeys (k', v') Hin') as Hk. cbn [fst] in Hk.
    by rewrite Hk. }
  rewrite Hscan in Hold. cbn [fst] in Hold.
  assert (Hkk : k' <> key) by (intros ->; done).
  exists k'. split; [by rewrite Hscan|]. split; [done|].
  unfold get, size in *. rewrite Hset, Hev.
  split; [|split; [|split]].
  - unfold map_get. destruct (List.find _ (store s)) eqn:Ef; [done|].
    apply (List.find_none _ _ Ef) in Hin'. cbn in Hin'. by rewrite String.eqb_refl in Hin'.
  - rewrite map_get_set_other by done. apply map_get_delete.
  - apply map_get_set.
  - rewrite map_set_same_length by (by rewrite map_get_delete_other).
    assert (Hlt : (length (map_delete k' (store s)) < length (store s))%nat).
    { apply map_delete_present. apply in_map_iff. by exists (k', v'). }
    lia.
Qed.

Lemma update_at_capacity_witness :
  get "auth:10.0.0.9" (set 10 "public:10.0.0.1" (mkEntry 2 200) crowded_store) = None /\
  get "auth:10.0.0.9" crowded_store = Some (mkEntry 1 100).
Proof.
  split; [|reflexivity].
  destruct (update_at_capacity_evicts_another_client 10 "public:10.0.0.1" (mkEntry 2 200)
              crowded_store) as (k & Hk & _ & _ & Hgone & _).
  - split; [done|]. split; [done|]. by repeat constructor.
  - done.
  - done.
  - done.
  - done.
  - injection Hk as <-. exact Hgone.
Defined.

End RateLimitRunFacts.

(** ** The middleware *)

Module MiddlewareFacts.

Import Js JsParse RateLimit RateLimitTraffic Middleware RateLimitFacts RateLimitRunFacts.

Lemma security_keeps_status (env : Env) (id : string) (r : NextResponse) :
  status (setSecurityHeaders env id r) = status r /\ body (setSecurityHeaders env id r) = body r.
Proof. unfold setSecurityHeaders. by destruct (production env). Qed.

Lemma cors_keeps_status (env : Env) (req : NextRequest) (r : NextResponse) :
  status (setCorsHeaders env req r) = status r /\ body (setCorsHeaders env req r) = body r.
Proof. unfold setCorsHeaders. by destruct (_ && _). Qed.

(** The session check lets a request pass exactly when a user is
    signed in, or the path is public. *)
Lemma session_passes (env : Env) (out : Outside) (req : NextRequest) :
  next_headers out !! "location" = None ->
  let r := fst (updateSession env out req) in
  let early := negb (status r =? 200) || truthy_ostr (headers r !! "location") in
  snd (updateSession env out req) = user_of (auth out) /\
  (startsWith (pathname req) "/api" = true ->
   early = negb (bool_decide (is_Some (user_of (auth out))) ||
                 existsb (startsWith (pathname req)) publicApiPaths)) /\
  (early = true -> status r = 401 \/ status r = 307) /\
  (early = false -> r = mkResponse 200 PassOn (next_headers out)).
Proof.
  intros Hloc. unfold updateSession.
  destruct (user_of (auth out)) as [u|] eqn:Hu; cbn [fst snd status headers].
  - rewrite Hloc. cbn. repeat split; try done.
  - destruct (startsWith (pathname req) "/api") eqn:Hapi; cbn [andb].
    + destruct (existsb _ publicApiPaths) eqn:Hp; cbn [negb andb].
      * rewrite andb_false_r. cbn [fst snd status headers andb]. rewrite Hloc. cbn.
        repeat split; try done.
      * cbn [fst snd status]. cbn. repeat split; try done. intros _. by left.
    + destruct (_ && _); cbn [fst snd status headers].
      * cbn. repeat split; try done. intros _. by right.
      * rewrite Hloc. cbn. repeat split; try done.
Qed.

(** What the middleware does, case by case. *)
Lemma middleware_cases (env : Env) (out : Outside) (req : NextRequest)
    (s : BoundedRateLimitStore) :
  next_headers out !! "location" = None ->
  let requestId := or_str (header req (REQUEST_ID_HEADER env)) (generated_id out) in
  let passed := mkResponse 200 PassOn (next_headers out) in
  let tl := tier_of req (user_of (auth out)) in
  let rl := checkRateLimit (clock_cleanup out) (clock_check out) (clock_set out)
              (rate_key (fst tl) (client_ip req)) (snd tl) 60000 s in
  middleware env out req s =
    if startsWith (pathname req) "/api" && String.eqb (method req) "OPTIONS"
    then (setSecurityHeaders env requestId (setCorsHeaders env req (mkResponse 204 NoBody ∅)), s)
    else if startsWith (pathname req) "/api"
    then
      if bool_decide (is_Some (user_of (auth out))) ||
         existsb (startsWith (pathname req)) publicApiPaths
      then
        if body_too_large req then (too_large_response env requestId, s)
        else if allowed (fst rl)
        then (setSecurityHeaders env requestId
                (set_header "x-ratelimit-reset" (pretty (reset (fst rl)))
                   (set_header "x-ratelimit-remaining" (pretty (remaining (fst rl)))
                      (set_header "x-ratelimit-limit" (pretty (rl_limit (fst rl)))
                         (setCorsHeaders env req passed)))), snd rl)
        else (rate_limited_response env requestId (fst rl)
                (retry_after (reset (fst rl)) (clock_retry out)), snd rl)
      else (setSecurityHeaders env requestId (fst (updateSession env out req)), s)
    else (setSecurityHeaders env requestId (fst (updateSession env out req)), s).
Proof.
  intros Hloc requestId passed tl rl. unfold middleware. fold requestId.
  destruct (startsWith (pathname req) "/api" && String.eqb (method req) "OPTIONS"); [done|].
  destruct (session_passes env out req Hloc) as (Hu & Hapi & _ & Hpass). cbn zeta in *.
  destruct (updateSession env out req) as [r u]. cbn [fst snd] in *. subst u.
  destruct (startsWith (pathname req) "/api") eqn:Ea.
  - rewrite (Hapi eq_refl).
    destruct (bool_decide _ || existsb _ _); cbn [negb]; [|done].
    rewrite (Hpass (Hapi eq_refl)). fold passed.
    destruct (body_too_large req); [done|].
    fold tl. destruct tl as [tier limit] eqn:Etl. cbn [fst snd] in rl. fold rl.
    destruct rl as [a s'] eqn:Erl. cbn [fst snd]. by destruct (allowed a).
  - by destruct (negb _ || _).
Qed.

(** X25.  Which requests the limiter counts.  A request changes the
    store of the limiter only if it is an API request other than a
    preflight, is let through by the session check (a signed-in user, or
    a public API path) and does not announce a body over 1 MiB; it is
    then counted once, under [tier:ip] with the limit of its tier, and
    answered 429 exactly when the limiter denies it.  Every other
    request (pages, preflights, 401s and redirects of the session
    check, oversized requests) leaves the store as it was and is never
    answered 429. *)
Theorem only_passed_api_requests_are_counted :
  forall (env : Env) (out : Outside) (req : NextRequest) (s : BoundedRateLimitStore),
    next_headers out !! "location" = None ->
    let resp := fst (middleware env out req s) in
    let s' := snd (middleware env out req s) in
    let tl := tier_of req (user_of (auth out)) in
    let rl := checkRateLimit (clock_cleanup out) (clock_check out) (clock_set out)
                (rate_key (fst tl) (client_ip req)) (snd tl) 60000 s in
    (reaches_limiter out req = true ->
     s' = snd rl /\ status resp = (if allowed (fst rl) then 200 else 429)) /\
    (reaches_limiter out req = false ->
     s' = s /\
     (status resp = 204 \/ status resp = 401 \/ status resp = 307 \/
      status resp = 413 \/ status resp = 200)) /\
    (tl = ("auth", 10) \/ tl = ("authenticated", 120) \/ tl = ("public", 30)).
Proof.
  intros env out req s Hloc resp s' tl rl. subst resp s'.
  rewrite (middleware_cases env out req s Hloc). cbn zeta. fold tl. fold rl.
  unfold reaches_limiter.
  destruct (session_passes env out req Hloc) as (_ & Hapi & Hearly & Hpass). cbn zeta in *.
  split; [|split].
  - intros Hr. apply andb_prop in Hr as [Hr Hbody]. apply andb_prop in Hr as [Hr Hsess].
    apply andb_prop in Hr as [Ha Hm]. apply negb_true_iff in Hm, Hbody.
    rewrite Ha, Hm, Hsess, Hbody. cbn [andb].
    destruct (allowed (fst rl)); cbn [fst snd]; [|done].
    split; [done|]. rewrite (proj1 (security_keeps_status _ _ _)). cbn [status set_header].
    by rewrite (proj1 (cors_keeps_status _ _ _)).
  - intros Hr.
    destruct (startsWith (pathname req) "/api") eqn:Ea; cbn [andb] in *.
    + destruct (String.eqb (method req) "OPTIONS"); cbn [negb andb] in *.
      { cbn [fst snd]. split; [done|]. left.
        rewrite (proj1 (security_keeps_status _ _ _)).
        by rewrite (proj1 (cors_keeps_status _ _ _)). }
      destruct (bool_decide _ || existsb _ _) eqn:Es; cbn [negb andb] in *.
      * apply negb_false_iff in Hr. rewrite Hr. cbn [fst snd]. split; [done|]. auto.
      * cbn [fst snd]. split; [done|]. rewrite (proj1 (security_keeps_status _ _ _)).
        specialize (Hapi eq_refl). cbn [negb] in Hapi.
        destruct (Hearly Hapi); auto.
    + cbn [fst snd]. split; [done|]. rewrite (proj1 (security_keeps_status _ _ _)).
      match type of Hearly with ?e = true -> _ => destruct e eqn:Ee end.
      * destruct (Hearly eq_refl); auto.
      * rewrite (Hpass eq_refl). cbn. auto.
  - unfold tl, tier_of. destruct (startsWith _ "/api/auth"); [by left|].
    destruct (user_of (auth out)); auto.
Qed.

Lemma retry_after_bounds (reset now : Z) :
  1 <= retry_after reset now /\
  reset - now <= 1000 * retry_after reset now /\
  (1000 < reset - now -> 1000 * (retry_after reset now - 1) < reset - now).
Proof.
  unfold retry_after.
  pose proof (Z.div_mod (- (reset - now)) 1000 ltac:(lia)) as Hdm.
  pose proof (Z.mod_pos_bound (- (reset - now)) 1000 ltac:(lia)) as Hm. lia.
Qed.

(** X26.  A request inside an open window of its client, whose record
    counts [c] requests so far: it is answered 429 exactly when [c] has
    reached the limit of the tier, and then with a [Retry-After] of at
    least one second that reaches the reset time of the window; below
    the limit it is passed on with status 200.  Either way the record
    counts one request more and keeps its reset time. *)
Theorem denied_request_is_told_when_to_retry :
  forall (env : Env) (out : Outside) (req : NextRequest) (s : BoundedRateLimitStore) (c R : Z),
    next_headers out !! "location" = None ->
    reaches_limiter out req = true ->
    within_capacity s ->
    let tl := tier_of req (user_of (auth out)) in
    let key := rate_key (fst tl) (client_ip req) in
    get key s = Some (mkEntry c R) ->
    clock_cleanup out <= R -> clock_check out <= R ->
    let resp := fst (middleware env out req s) in
    let requestId := or_str (header req (REQUEST_ID_HEADER env)) (generated_id out) in
    (snd tl <= c ->
     status resp = 429 /\
     body resp = RateLimited (retry_after R (clock_retry out)) requestId /\
     1 <= retry_after R (clock_retry out) /\
     R - clock_retry out <= 1000 * retry_after R (clock_retry out)) /\
    (c < snd tl -> status resp = 200 /\ body resp = PassOn) /\
    get key (snd (middleware env out req s)) = Some (mkEntry (c + 1) R).
Proof.
  intros env out req s c R Hloc Hreach Hs tl key Hg Ht0 Hnow resp requestId.
  subst resp. rewrite (middleware_cases env out req s Hloc). cbn zeta. fold tl. fold requestId.
  unfold reaches_limiter in Hreach.
  apply andb_prop in Hreach as [Hr Hbody]. apply andb_prop in Hr as [Hr Hsess].
  apply andb_prop in Hr as [Ha Hm]. apply negb_true_iff in Hm, Hbody.
  rewrite Ha, Hm, Hsess, Hbody. cbn [andb].
  pose (r := mkRequest (fst tl) (client_ip req) (snd tl) 60000
                       (clock_cleanup out) (clock_check out) (clock_set out)).
  destruct (answer_in_window s r c R Hs Hg Ht0 Hnow) as (Hans & Hg' & _).
  change (answer s r) with
    (checkRateLimit (clock_cleanup out) (clock_check out) (clock_set out)
       (rate_key (fst tl) (client_ip req)) (snd tl) 60000 s) in Hans, Hg'.
  cbn [rq_limit rq_tier rq_ip r] in Hans, Hg'.
  rewrite Hans. cbn [allowed reset].
  destruct (retry_after_bounds R (clock_retry out)) as (Hb1 & Hb2 & _).
  split; [|split].
  - intros Hle. rewrite (proj2 (Z.leb_gt _ _)) by lia. cbn [fst]. done.
  - intros Hlt. rewrite (proj2 (Z.leb_le _ _)) by lia. cbn [fst].
    rewrite !(proj1 (security_keeps_status _ _ _)), !(proj2 (security_keeps_status _ _ _)).
    cbn [status body set_header].
    by rewrite (proj1 (cors_keeps_status _ _ _)), (proj2 (cors_keeps_status _ _ _)).
  - destruct (_ <=? _); exact Hg'.
Qed.

Lemma denied_request_witness :
  status (fst (middleware demo_env anonymous (listing_request "https://orchids.cloud")
                 spent_store)) = 429 /\
  body (fst (middleware demo_env anonymous (listing_request "https://orchids.cloud")
               spent_store)) = RateLimited 59 "K3J9X2ABLZ0".
Proof.
  destruct (denied_request_is_told_when_to_retry demo_env anonymous
              (listing_request "https://orchids.cloud") spent_store 30 60000
              eq_refl eq_refl) as (H & _ & _).
  - split; [done|]. split; [done|]. by repeat constructor.
  - reflexivity.
  - done.
  - done.
  - destruct (H ltac:(done)) as (H1 & H2 & _). split; [exact H1 | exact H2].
Defined.

Ltac header_lookup :=
  repeat first
    [ rewrite lookup_insert_eq
    | rewrite lookup_insert_ne by (first [discriminate | congruence | done])
    | rewrite lookup_singleton_ne by (first [discriminate | congruence | done])
    | rewrite lookup_empty ];
  try done.

Lemma lookup_set_header (name value k : string) (r : NextResponse) :
  headers (set_header name value r) !! k
  = if String.eqb name k then Some value else headers r !! k.
Proof.
  unfold set_header. cbn [headers]. destruct (String.eqb name k) eqn:E.
  - apply String.eqb_eq in E. subst. apply lookup_insert_eq.
  - apply String.eqb_neq in E. by apply lookup_insert_ne.
Qed.

Lemma security_headers_set (env : Env) (id : string) (r : NextResponse) :
  headers (setSecurityHeaders env id r) !! "content-security-policy"
    = Some CONTENT_SECURITY_POLICY /\
  headers (setSecurityHeaders env id r) !! "x-frame-options" = Some "DENY" /\
  headers (setSecurityHeaders env id r) !! "x-content-type-options" = Some "nosniff" /\
  (production env = true ->
   headers (setSecurityHeaders env id r) !! "strict-transport-security"
     = Some "max-age=31536000; includeSubDomains").
Proof.
  unfold setSecurityHeaders.
  destruct (production env); rewrite !lookup_set_header; repeat split; try reflexivity.
  all: intros H; discriminate H.
Qed.

(** X27.  The 413 and 429 responses are built afresh and returned as
    they are: they carry their own few headers and nothing else, so
    neither the content security policy nor any CORS header, although
    the response they replace had been given its CORS headers.  Every
    other response of the middleware leaves through
    [setSecurityHeaders] and carries the policy. *)
Theorem error_responses_skip_the_security_headers :
  forall (env : Env) (out : Outside) (req : NextRequest) (s : BoundedRateLimitStore),
    next_headers out !! "location" = None ->
    let resp := fst (middleware env out req s) in
    let requestId := or_str (header req (REQUEST_ID_HEADER env)) (generated_id out) in
    (status resp <> 413 -> status resp <> 429 ->
     headers resp !! "content-security-policy" = Some CONTENT_SECURITY_POLICY /\
     headers resp !! "x-frame-options" = Some "DENY" /\
     headers resp !! "x-content-type-options" = Some "nosniff") /\
    (status resp = 413 ->
     headers resp = <[REQUEST_ID_HEADER env := requestId]>
                      {["content-type" := "application/json"]}) /\
    (status resp = 413 \/ status resp = 429 ->
     REQUEST_ID_HEADER env <> "content-security-policy" ->
     REQUEST_ID_HEADER env <> "access-control-allow-origin" ->
     headers resp !! "content-security-policy" = None /\
     headers resp !! "access-control-allow-origin" = None /\
     headers resp !! REQUEST_ID_HEADER env = Some requestId).
Proof.
  intros env out req s Hloc resp requestId. subst resp.
  rewrite (middleware_cases env out req s Hloc). cbn zeta. fold requestId.
  destruct (session_passes env out req Hloc) as (_ & Hapi & Hearly & Hpass). cbn zeta in *.
  assert (Hsec : forall r : NextResponse,
            headers (setSecurityHeaders env requestId r) !! "content-security-policy"
              = Some CONTENT_SECURITY_POLICY /\
            headers (setSecurityHeaders env requestId r) !! "x-frame-options" = Some "DENY" /\
            headers (setSecurityHeaders env requestId r) !! "x-content-type-options"
              = Some "nosniff").
  { intros r. destruct (security_headers_set env requestId r) as (H1 & H2 & H3 & _). done. }
  assert (Hst : forall r : NextResponse,
            status (setSecurityHeaders env requestId r) = status r).
  { intros r. apply security_keeps_status. }
  assert (Hsession : status (fst (updateSession env out req)) <> 413 /\
                     status (fst (updateSession env out req)) <> 429).
  { match type of Hearly with ?e = true -> _ => destruct e eqn:Ee end.
    - destruct (Hearly eq_refl) as [-> | ->]; done.
    - rewrite (Hpass eq_refl). done. }
  destruct (startsWith (pathname req) "/api" && String.eqb (method req) "OPTIONS").
  { cbn [fst]. rewrite Hst, (proj1 (cors_keeps_status _ _ _)). cbn [status].
    split; [intros _ _; apply Hsec|]. split; [done|]. by intros [|]. }
  destruct (startsWith (pathname req) "/api").
  2:{ cbn [fst]. rewrite Hst. split; [intros _ _; apply Hsec|].
      split; [by intros ?; destruct Hsession|]. intros [|]; by destruct Hsession. }
  destruct (bool_decide _ || existsb _ _).
  2:{ cbn [fst]. rewrite Hst. split; [intros _ _; apply Hsec|].
      split; [by intros ?; destruct Hsession|]. intros [|]; by destruct Hsession. }
  destruct (body_too_large req).
  { cbn [fst too_large_response status headers]. split; [done|]. split; [done|].
    intros _ H1 H2. header_lookup. }
  destruct (allowed _).
  - cbn [fst]. rewrite Hst. cbn [status set_header]. rewrite (proj1 (cors_keeps_status _ _ _)).
    cbn [status]. split; [intros _ _; apply Hsec|]. split; [done|]. by intros [|].
  - cbn [fst rate_limited_response status headers]. split; [done|]. split; [done|].
    intros _ H1 H2. header_lookup.
Qed.

Lemma append_cons (c : ascii) (s1 s2 : string) :
  String c s1 +:+ s2 = String c (s1 +:+ s2).
Proof. reflexivity. Qed.

Lemma append_nil (s : string) : "" +:+ s = s.
Proof. reflexivity. Qed.

Lemma any_run_unfold (p : list Piece) (s : string) :
  regex_test (AnyRun :: p) s =
    regex_test p s ||
    match s with
    | String d s' => dot_matches d && regex_test (AnyRun :: p) s'
    | EmptyString => false
    end.
Proof. by destruct s. Qed.

Lemma any_run_skips (p : list Piece) (h s : string) :
  one_line h = true -> regex_test p s = true -> regex_test (AnyRun :: p) (h +:+ s) = true.
Proof.
  intros Hh Hs. induction h as [|c h IH].
  - change ("" +:+ s) with s. by rewrite any_run_unfold, Hs.
  - change (String c h +:+ s) with (String c (h +:+ s)).
    cbn [one_line] in Hh. apply andb_prop in Hh as [Hc Hh].
    rewrite any_run_unfold, Hc, (IH Hh). apply orb_true_r.
Qed.

Lemma cors_allows (env : Env) (req : NextRequest) (resp : NextResponse) (origin : string) :
  header req "origin" = Some origin -> truthy_str origin = true ->
  existsb (origin_allowed origin) (allowedOrigins env) = true ->
  headers (setCorsHeaders env req resp) !! "access-control-allow-origin" = Some origin /\
  headers (setCorsHeaders env req resp) !! "access-control-allow-credentials" = Some "true".
Proof.
  intros Ho Ht Ha. unfold setCorsHeaders, set_header. rewrite Ho.
  cbn [truthy_ostr default from_option id].
  rewrite Ht, Ha. cbn [andb headers]. split; header_lookup.
Qed.

Lemma cors_refuses (env : Env) (req : NextRequest) (resp : NextResponse) :
  truthy_ostr (header req "origin") &&
  existsb (origin_allowed (default "" (header req "origin"))) (allowedOrigins env) = false ->
  headers (setCorsHeaders env req resp) !! "access-control-allow-origin"
    = headers resp !! "access-control-allow-origin" /\
  headers (setCorsHeaders env req resp) !! "access-control-allow-credentials"
    = headers resp !! "access-control-allow-credentials".
Proof.
  intros H. unfold setCorsHeaders, set_header. rewrite H. cbn [headers]. split; header_lookup.
Qed.

(** X28.  The allowed origin [https://*.orchids.cloud] is turned into a
    regular expression with its periods left unescaped, so each period
    stands for any character: every origin
    [https://<anything><one character>orchids<one character>cloud] is
    granted [Access-Control-Allow-Origin] with credentials, the
    subdomains of [orchids.cloud] among them, but also hosts of other
    domains whose name merely ends that way.  An origin that matches no
    allowed entry is granted nothing, and an entry without a star must
    be equal to the origin. *)
Theorem cors_periods_match_any_character :
  forall (env : Env) (req : NextRequest) (resp : NextResponse)
         (h : string) (c d : ascii),
    one_line h = true -> dot_matches c = true -> dot_matches d = true ->
    let origin := "https://" +:+ h +:+ String c ("orchids" +:+ String d "cloud") in
    origin_allowed origin "https://*.orchids.cloud" = true /\
    (header req "origin" = Some origin ->
     headers (setCorsHeaders env req resp) !! "access-control-allow-origin" = Some origin /\
     headers (setCorsHeaders env req resp) !! "access-control-allow-credentials" = Some "true") /\
    (forall o allowed : string,
       includes allowed "*" = false -> origin_allowed o allowed = String.eqb allowed o) /\
    (truthy_ostr (header req "origin") &&
     existsb (origin_allowed (default "" (header req "origin"))) (allowedOrigins env) = false ->
     headers (setCorsHeaders env req resp) !! "access-control-allow-origin"
       = headers resp !! "access-control-allow-origin").
Proof.
  intros env req resp h c d Hh Hc Hd origin.
  assert (Hall : origin_allowed origin "https://*.orchids.cloud" = true).
  { unfold origin_allowed.
    change (includes "https://*.orchids.cloud" "*") with true. cbn iota.
    change (pieces "https://*.orchids.cloud")
      with ([Literal "h"; Literal "t"; Literal "t"; Literal "p"; Literal "s"; Literal ":";
             Literal "/"; Literal "/"]%char
            ++ AnyRun :: pieces ".orchids.cloud")%list.
    subst origin.
    rewrite !append_cons, !append_nil.
    cbn [app regex_test Ascii.eqb Bool.eqb andb].
    apply any_run_skips; [done|].
    cbn [pieces Ascii.eqb Bool.eqb regex_test andb].
    rewrite Hc, Hd. reflexivity. }
  split; [exact Hall|]. split; [|split].
  - intros Ho. apply cors_allows; [done | done |].
    unfold allowedOrigins. rewrite existsb_app. cbn [existsb]. rewrite Hall.
    by rewrite !orb_true_r.
  - intros o allowed Hn. unfold origin_allowed. by rewrite Hn.
  - intros H. by apply cors_refuses.
Qed.

Lemma cors_witness :
  origin_allowed "https://evilorchids.cloud" "https://*.orchids.cloud" = true /\
  headers (fst (middleware demo_env anonymous (listing_request "https://evilorchids.cloud")
                  (rateLimitStore 0)))
    !! "access-control-allow-origin" = Some "https://evilorchids.cloud".
Proof.
  split.
  - exact (proj1 (cors_periods_match_any_character demo_env
                    (listing_request "https://evilorchids.cloud") (mkResponse 200 PassOn ∅)
                    "evi" "l"%char "."%char eq_refl eq_refl eq_refl)).
  - vm_compute. reflexivity.
Defined.

Lemma only_passed_witness :
  status (fst (middleware demo_env anonymous (listing_request "https://orchids.cloud")
                 (rateLimitStore 0))) = 200 /\
  get "public:10.0.0.1"
      (snd (middleware demo_env anonymous (listing_request "https://orchids.cloud")
              (rateLimitStore 0))) = Some (mkEntry 1 61000).
Proof.
  destruct (only_passed_api_requests_are_counted demo_env anonymous
              (listing_request "https://orchids.cloud") (rateLimitStore 0) eq_refl)
    as (H & _ & _).
  destruct (H eq_refl) as [Hs Hst]. split; [exact Hst|].
  exact (eq_trans (f_equal (get "public:10.0.0.1") Hs) eq_refl).
Defined.

Lemma error_responses_witness :
  status (fst (middleware demo_env anonymous (listing_request "https://orchids.cloud")
                 spent_store)) = 429 /\
  headers (fst (middleware demo_env anonymous (listing_request "https://orchids.cloud")
                  spent_store)) !! "content-security-policy" = None.
Proof.
  split; [reflexivity|].
  destruct (error_responses_skip_the_security_headers demo_env anonymous
              (listing_request "https://orchids.cloud") spent_store eq_refl)
    as (_ & _ & H).
  exact (proj1 (H (or_intror eq_refl) ltac:(discriminate) ltac:(discriminate))).
Defined.

End MiddlewareFacts.
